(** * Passcards: key derivation, vault and local item store

    A shallow embedding of the vault code (the unnamed source part holding
    [decryptKey], [SimpleKeyAgent], [Item], [Vault] and [ItemContent]) and of
    [lib/local_store.ts] ([Store], and the URL helpers of the item search
    that follows it in the file).

    Promises are modelled by their outcome; code that mutates an object and
    may throw half-way is modelled by explicit state passing in which the
    state reached so far survives a rejection. *)

From Stdlib Require Import Ascii String ZArith.
From stdpp Require Import base strings list gmap option.

(** ** Outcomes of promises and of throwing code *)

Module Q.

(** What the code throws or rejects with.  The sources throw plain strings
    or [Error] objects; [message] gives the literal text where the source
    has one. *)
Inductive Failure : Type :=
| KeyValidationError                 (* decryptKey: throw 'Failed to decrypt key' *)
| NoSuchKeyError (id : string)       (* 'No such key: ' + id *)
| UnsupportedAlgorithmError          (* 'Unknown encryption algorithm' *)
| NoKeyForLevelError (level : string)(* 'No key ' + level + ' found' *)
| NotFoundError (uuid : string)      (* 'No such item ' + uuid *)
| VaultLockedError                   (* 'Unable to fetch overview key. Vault may be locked?' *)
| NoKeysSavedError                   (* 'No encryption keys have been saved' *)
| ContentNotAvailable                (* 'content not available' *)
| AssertionViolation                 (* a failed assert(...) *)
| TypeError                          (* a method call on undefined *)
| SchemaError                        (* stored data that does not parse *)
| StorageError (key : string).       (* the key-value store rejected an operation *)

Definition message (e : Failure) : string :=
  match e with
  | KeyValidationError => "Failed to decrypt key"
  | NoSuchKeyError id => "No such key: " +:+ id
  | UnsupportedAlgorithmError => "Unknown encryption algorithm"
  | NoKeyForLevelError level => "No key " +:+ level +:+ " found"
  | NotFoundError uuid => "No such item " +:+ uuid
  | VaultLockedError => "Unable to fetch overview key. Vault may be locked?"
  | NoKeysSavedError => "No encryption keys have been saved"
  | ContentNotAvailable => "content not available"
  | AssertionViolation => "AssertionError"
  | TypeError => "TypeError"
  | SchemaError => "SyntaxError"
  | StorageError key => "storage failure: " +:+ key
  end.

Global Instance Failure_eq_dec : EqDecision Failure.
Proof. solve_decision. Defined.

Inductive Outcome (A : Type) : Type :=
| Fulfilled (a : A)
| Rejected (e : Failure).
Global Arguments Fulfilled {A} a.
Global Arguments Rejected {A} e.

Global Instance Outcome_eq_dec `{EqDecision A} : EqDecision (Outcome A).
Proof. solve_decision. Defined.

Definition isFulfilled {A} (o : Outcome A) : bool :=
  match o with Fulfilled _ => true | Rejected _ => false end.

(** [Q.all]: fulfilled with all the values when every promise is fulfilled,
    rejected with the first rejection otherwise. *)
Fixpoint all {A} (ps : list (Outcome A)) : Outcome (list A) :=
  match ps with
  | [] => Fulfilled []
  | Rejected e :: _ => Rejected e
  | Fulfilled a :: rest =>
      match all rest with
      | Fulfilled l => Fulfilled (a :: l)
      | Rejected e => Rejected e
      end
  end.

(** [asyncutil.eraseResult]: keeps the outcome, forgets the value. *)
Definition eraseResult {A} (p : Outcome A) : Outcome unit :=
  match p with Fulfilled _ => Fulfilled () | Rejected e => Rejected e end.

End Q.
Import Q.

(** ** Cryptographic primitives

    [onepass_crypto] is not part of the sources at hand; its operations are
    the methods of an interface, as [crypto.CryptoImpl] is in the code. *)

Module Crypto.

Record SaltCipher := { salt : string; cipherText : string }.
Record KeyParams := { key : string; iv : string }.

Class CryptoImpl := {
  (* pbkdf2(password, salt, iterations, keyLen) *)
  pbkdf2 : string → string → N → nat → string;
  (* aesCbcDecrypt(key, cipherText, iv) *)
  aesCbcDecrypt : string → string → string → string;
  (* aesCbcEncrypt(key, plainText, iv) *)
  aesCbcEncrypt : string → string → string → string;
  (* openSSLKey(impl, password, salt): the legacy salted key/IV derivation *)
  openSSLKey : string → string → KeyParams;
  (* extractSaltAndCipherText(blob) *)
  extractSaltAndCipherText : string → SaltCipher;
  (* encryptAgileKeychainItemData(impl, key, plainText) *)
  encryptAgileKeychainItemData : string → string → string;
  (* decryptAgileKeychainItemData(impl, key, cipherText) *)
  decryptAgileKeychainItemData : string → string → string;
  (* decryptAgileKeychainItemData(impl, key, cipherText) for a cipherText that
     is null or undefined, as the store hands it over when nothing is stored
     under a key: the text it returns, or what it throws *)
  decryptNoItemData : string → Outcome string;
}.

(** A small concrete implementation, used to run the code on examples.
    A ciphertext is the key material followed by the plaintext; decrypting
    under other key material yields text that no key of the examples
    equals. *)
Module Toy.

Fixpoint stripPrefix (p s : string) : option string :=
  match p, s with
  | EmptyString, _ => Some s
  | String a p', String b s' => if decide (a = b) then stripPrefix p' s' else None
  | String _ _, EmptyString => None
  end.

Definition toyEncrypt (k m i : string) : string := k +:+ i +:+ m.
Definition toyDecrypt (k c i : string) : string :=
  match stripPrefix (k +:+ i) c with
  | Some m => m
  | None => "?" +:+ k +:+ c
  end.

(* a blob is "<4 characters of salt><ciphertext>" *)
Definition toyExtract (blob : string) : SaltCipher :=
  {| salt := String.substring 0 4 blob;
     cipherText := String.substring 4 (String.length blob - 4) blob |}.

Fixpoint pad (n : nat) (s : string) : string :=
  match n with
  | O => EmptyString
  | S n' =>
      match s with
      | EmptyString => String "."%char (pad n' EmptyString)
      | String a s' => String a (pad n' s')
      end
  end.

Definition toy : CryptoImpl := {|
  pbkdf2 pwd slt _ len := pad len (pwd +:+ slt);
  aesCbcDecrypt := toyDecrypt;
  aesCbcEncrypt := toyEncrypt;
  openSSLKey pwd slt := {| key := pwd; iv := slt |};
  extractSaltAndCipherText := toyExtract;
  encryptAgileKeychainItemData k m := toyEncrypt k m "salt";
  decryptAgileKeychainItemData k c := toyDecrypt k c "salt";
  decryptNoItemData _ := Rejected TypeError;
|}.

End Toy.

End Crypto.
Import Crypto.

(** ** The vault: key entries, key agent, items *)

Module Onepass.

Record EncryptionKeyEntry := {
  data : string;
  identifier : string;
  iterations : N;
  level : string;
  validation : string;
}.

(** [CryptoAlgorithm] is a numeric enum with one member,
    [AES128_OpenSSLKey], which is 0; a value of the type can be any number,
    and the [default] branches of [decrypt] and [encrypt] are there for the
    other ones. *)
Definition CryptoAlgorithm : Type := Z.

Definition AES128_OpenSSLKey : CryptoAlgorithm := 0%Z.

Record CryptoParams := { algo : CryptoAlgorithm }.

(** *** Dates

    A [Date] holds a time value: a whole number of milliseconds since the
    epoch, at most 8.64e15 in size, or NaN, which makes it an invalid date.
    [new Date(value)] of a number outside that range is an invalid date. *)
Inductive Date :=
| DateOf (time : Z)
| InvalidDate.

Global Instance Date_eq_dec : EqDecision Date.
Proof. solve_decision. Defined.

Definition maxTime : Z := 8640000000000000.

(* new Date(value), for a whole number [value] *)
Definition newDate (value : Z) : Date :=
  if decide (- maxTime ≤ value ≤ maxTime)%Z then DateOf value else InvalidDate.

Section WithCrypto.
Context {crypto : CryptoImpl}.

Definition KEY_LEN : nat := 32.

(** [decryptKey]: a [throw] is a [Rejected] outcome. *)
Definition decryptKey (masterPwd encryptedKey salt : string) (iterCount : N)
    (validation : string) : Outcome string :=
  let derivedKey := pbkdf2 masterPwd salt iterCount KEY_LEN in
  let aesKey := String.substring 0 16 derivedKey in
  let iv := String.substring 16 (32 - 16) derivedKey in
  let decryptedKey := aesCbcDecrypt aesKey encryptedKey iv in
  let validationSaltCipher := extractSaltAndCipherText validation in
  let keyParams := openSSLKey decryptedKey (Crypto.salt validationSaltCipher) in
  let decryptedValidation :=
    aesCbcDecrypt (key keyParams) (cipherText validationSaltCipher) (Crypto.iv keyParams) in
  if decide (decryptedValidation ≠ decryptedKey)
  then Rejected KeyValidationError
  else Fulfilled decryptedKey.

(** *** SimpleKeyAgent

    [keys] is a JS object used as a map from ids to keys; the pairs are kept
    in the order in which the ids were first assigned, which is the order
    [Object.keys] lists property names in.  This is the model of an object
    whose ids are ordinary names: an array index ("0", "1", ...) would be
    listed before the other names, the assignment of a string to "__proto__"
    would store nothing, and a key under "hasOwnProperty" would hide the
    method that [decrypt] and [encrypt] call. *)
Record SimpleKeyAgent := { keys : list (string * string) }.

Definition newKeyAgent : SimpleKeyAgent := {| keys := [] |}.

(* this.keys[id] = key *)
Fixpoint assign (id key : string) (ks : list (string * string)) : list (string * string) :=
  match ks with
  | [] => [(id, key)]
  | (i, k) :: rest =>
      if decide (i = id) then (id, key) :: rest else (i, k) :: assign id key rest
  end.

(* this.keys[id] *)
Fixpoint property (id : string) (ks : list (string * string)) : option string :=
  match ks with
  | [] => None
  | (i, k) :: rest => if decide (i = id) then Some k else property id rest
  end.

Definition addKey (id key : string) (agent : SimpleKeyAgent) : SimpleKeyAgent :=
  {| keys := assign id key (keys agent) |}.

Definition listKeys (agent : SimpleKeyAgent) : list string := (keys agent).*1.

Definition forgetKeys (agent : SimpleKeyAgent) : SimpleKeyAgent := {| keys := [] |}.

(** The names that are integer indices: the decimal numerals without leading
    zeros ("0", "1", "42", ...).  [Object.keys] lists such names before the
    others, whenever they were assigned. *)
Definition digitValue (c : ascii) : option N :=
  let n := N_of_ascii c in
  if decide (48 ≤ n ≤ 57)%N then Some (n - 48)%N else None.

Fixpoint numeral (s : string) (value : N) : option N :=
  match s with
  | EmptyString => Some value
  | String c s' =>
      match digitValue c with
      | Some d => numeral s' (value * 10 + d)%N
      | None => None
      end
  end.

Definition integerIndex (id : string) : option N :=
  match id with
  | EmptyString => None
  | String "0" EmptyString => Some 0%N
  | String "0" _ => None
  | _ => numeral id 0
  end.

(** The ids for which [assign] and [listKeys] are what the object does: the
    names that are no integer index and not "__proto__". *)
Definition ordinaryName (id : string) : Prop :=
  integerIndex id = None ∧ id ≠ "__proto__".

(** The agents on which [decrypt] and [encrypt] are what the object does: no
    key was added under "hasOwnProperty", the method these two call on
    [keys], and none is held under "__proto__", where the object stores
    none. *)
Definition ordinaryAgent (agent : SimpleKeyAgent) : Prop :=
  ("hasOwnProperty" ∉ listKeys agent) ∧ ("__proto__" ∉ listKeys agent).

(** [decrypt] and [encrypt].  [this.keys.hasOwnProperty(id)] is the lookup of
    [id] among the ids held; on an [ordinaryAgent] that is what the call
    gives. *)
Definition decrypt (agent : SimpleKeyAgent) (id cipherText : string) (params : CryptoParams)
    : Outcome string :=
  match property id (keys agent) with
  | None => Rejected (NoSuchKeyError id)
  | Some k =>
      match algo params with
      | 0%Z => (* case CryptoAlgorithm.AES128_OpenSSLKey *)
          Fulfilled (decryptAgileKeychainItemData k cipherText)
      | _ => Rejected UnsupportedAlgorithmError
      end
  end.

(** [decrypt] when the caller hands it null or undefined for the text, as
    the store does for a key under which nothing is stored: the same steps,
    the value going to [crypto.decryptAgileKeychainItemData] as it is. *)
Definition decryptNothing (agent : SimpleKeyAgent) (id : string) (params : CryptoParams)
    : Outcome string :=
  match property id (keys agent) with
  | None => Rejected (NoSuchKeyError id)
  | Some k =>
      match algo params with
      | 0%Z => decryptNoItemData k
      | _ => Rejected UnsupportedAlgorithmError
      end
  end.

Definition encrypt (agent : SimpleKeyAgent) (id plainText : string) (params : CryptoParams)
    : Outcome string :=
  match property id (keys agent) with
  | None => Rejected (NoSuchKeyError id)
  | Some k =>
      match algo params with
      | 0%Z => (* case CryptoAlgorithm.AES128_OpenSSLKey *)
          Fulfilled (encryptAgileKeychainItemData k plainText)
      | _ => Rejected UnsupportedAlgorithmError
      end
  end.

(** *** Item (the fields that contents.js fills) *)

Record Item := {
  updatedAt : option Date;
  title : string;
  securityLevel : string;
  typeName : string;
  uuid : string;
  location : string;
  folderUuid : string;
  trashed : bool;
}.

(* new Item(vault, uuid), the uuid being given *)
Definition newItem (uuid : string) : Item :=
  {| updatedAt := None; title := ""; securityLevel := "SL5";
     typeName := "webforms.WebForm"; uuid := uuid; location := "";
     folderUuid := ""; trashed := false |}.

Definition isTombstone (item : Item) : bool :=
  bool_decide (typeName item = "system.Tombstone").

(** [dateFromUNIXDate], for a timestamp of whole seconds.  The product is a
    floating point number; it is exact below 2^53, and a product beyond the
    range of [Date] is beyond it rounded too. *)
Definition dateFromUNIXDate (timestamp : Z) : Date := newDate (timestamp * 1000).

(** One 8-element tuple of contents.js:
    [uuid, typeName, title, location, updatedAt, folderUuid, 0, trashed]. *)
Record ContentsEntry := {
  entry0 : string;
  entry1 : string;
  entry2 : string;
  entry3 : string;
  entry4 : Z;
  entry5 : string;
  entry6 : Z;
  entry7 : string;
}.

(** *** Vault

    [keys] is the promise made by [readKeyData] when the vault is
    constructed; [keyAgent] is the agent's current state. *)
Record Vault := {
  vaultKeys : Outcome (list EncryptionKeyEntry);
  keyAgent : SimpleKeyAgent;
}.

(** [readKeyData] on the parsed encryptionKeys.js: [keyList] is the [list]
    member, [None] when it is missing; [atob] decodes base64. *)
Definition readKeyData (atob : string → string)
    (content : Outcome (option (list EncryptionKeyEntry))) : Outcome (list EncryptionKeyEntry) :=
  match content with
  | Rejected err => Rejected err
  | Fulfilled None => Rejected SchemaError
  | Fulfilled (Some keyList) =>
      let decoded := map (λ entry,
        {| data := atob (data entry);
           identifier := identifier entry;
           iterations := iterations entry;
           level := level entry;
           validation := atob (validation entry) |}) keyList in
      Fulfilled (filter (λ item, level item ≠ "SL3") decoded)
  end.

Definition newVault (atob : string → string)
    (content : Outcome (option (list EncryptionKeyEntry))) : Vault :=
  {| vaultKeys := readKeyData atob content; keyAgent := newKeyAgent |}.

(** The [forEach] of [unlock]: each entry is decrypted and its key added
    before the next entry is looked at; a throw in [decryptKey] ends the
    loop and leaves the agent as it is at that point. *)
Fixpoint unlockEach (pwd : string) (keyEntries : list EncryptionKeyEntry)
    (agent : SimpleKeyAgent) : Outcome unit * SimpleKeyAgent :=
  match keyEntries with
  | [] => (Fulfilled (), agent)
  | item :: rest =>
      let saltCipher := extractSaltAndCipherText (data item) in
      match decryptKey pwd (cipherText saltCipher) (salt saltCipher)
                       (iterations item) (validation item) with
      | Rejected e => (Rejected e, agent)
      | Fulfilled key => unlockEach pwd rest (addKey (identifier item) key agent)
      end
  end.

Definition unlock (pwd : string) (vault : Vault) : Outcome unit * Vault :=
  match vaultKeys vault with
  | Rejected e => (Rejected e, vault)
  | Fulfilled keyEntries =>
      let '(r, agent) := unlockEach pwd keyEntries (keyAgent vault) in
      (r, {| vaultKeys := vaultKeys vault; keyAgent := agent |})
  end.

Definition lock (vault : Vault) : Vault :=
  {| vaultKeys := vaultKeys vault; keyAgent := forgetKeys (keyAgent vault) |}.

Definition isLocked (vault : Vault) : Outcome bool :=
  match vaultKeys vault with
  | Rejected e => Rejected e
  | Fulfilled keyEntries =>
      let keyIDs := listKeys (keyAgent vault) in
      Fulfilled (fold_left (λ locked entry,
        if bool_decide (identifier entry ∈ keyIDs) then locked else true) keyEntries false)
  end.

(* the item that the loop of [listItems] makes of one tuple: a new [Item]
   with the assignments from [entry] *)
Definition itemOfEntry (entry : ContentsEntry) : Item :=
  let item := newItem (entry0 entry) in
  {| uuid := entry0 entry;
     typeName := entry1 entry;
     title := entry2 entry;
     location := entry3 entry;
     updatedAt := Some (dateFromUNIXDate (entry4 entry));
     folderUuid := entry5 entry;
     trashed := bool_decide (entry7 entry = "Y");
     securityLevel := securityLevel item |}.

(** [listItems] on the outcome of reading and parsing contents.js. *)
Definition listItems (content : Outcome (list ContentsEntry)) : Outcome (list Item) :=
  match content with
  | Rejected err => Rejected err
  | Fulfilled entries =>
      Fulfilled (fold_left (λ vaultItems entry,
        let item := itemOfEntry entry in
        (* skip markers for deleted items *)
        if isTombstone item then vaultItems else vaultItems ++ [item]) entries [])
  end.

(** The [forEach] of [decryptItemData] and [encryptItemData]: [return] only
    leaves the callback, so every entry is visited and a later entry of the
    same level replaces [result]. *)
Definition forLevel (op : string → string → CryptoParams → Outcome string)
    (keys : list EncryptionKeyEntry) (lvl data : string) : option (Outcome string) :=
  fold_left (λ result key,
    if decide (level key = lvl)
    then Some (op (identifier key) data {| algo := AES128_OpenSSLKey |})
    else result) keys None.

Definition decryptItemData (vault : Vault) (lvl data : string) : Outcome string :=
  match vaultKeys vault with
  | Rejected e => Rejected e
  | Fulfilled keys =>
      match forLevel (decrypt (keyAgent vault)) keys lvl data with
      | Some result => result
      | None => Rejected (NoKeyForLevelError lvl)
      end
  end.

Definition encryptItemData (vault : Vault) (lvl data : string) : Outcome string :=
  match vaultKeys vault with
  | Rejected e => Rejected e
  | Fulfilled keys =>
      match forLevel (encrypt (keyAgent vault)) keys lvl data with
      | Some result => result
      | None => Rejected (NoKeyForLevelError lvl)
      end
  end.

(** *** Notions the statements about the vault use *)

(** The two lines of [unlock]'s loop that make the key of one entry. *)
Definition deriveKey (pwd : string) (item : EncryptionKeyEntry) : Outcome string :=
  let saltCipher := extractSaltAndCipherText (data item) in
  decryptKey pwd (cipherText saltCipher) (salt saltCipher)
             (iterations item) (validation item).

(** The agent after the keys of [items] (those that derive) were added. *)
Definition registered (pwd : string) (items : list EncryptionKeyEntry)
    (agent : SimpleKeyAgent) : SimpleKeyAgent :=
  fold_left (λ a item,
    match deriveKey pwd item with
    | Fulfilled key => addKey (identifier item) key a
    | Rejected _ => a
    end) items agent.

(** The candidate raw key [decryptKey] computes, and the decrypted
    validation it compares the candidate with. *)
Definition candidateKey (masterPwd encryptedKey salt : string) (iterCount : N) : string :=
  let derivedKey := pbkdf2 masterPwd salt iterCount KEY_LEN in
  aesCbcDecrypt (String.substring 0 16 derivedKey) encryptedKey
                (String.substring 16 16 derivedKey).

Definition decryptValidation (candidate validation : string) : string :=
  let validationSaltCipher := extractSaltAndCipherText validation in
  let keyParams := openSSLKey candidate (Crypto.salt validationSaltCipher) in
  aesCbcDecrypt (key keyParams) (cipherText validationSaltCipher) (Crypto.iv keyParams).

(** Modelled from the spec: making a key entry is not part of the sources at
    hand.  Section 3: an entry holds the "wrapped-key blob (salt+ciphertext)"
    and the "validation blob"; section 4.1 fixes how they are read, so an
    entry "derived with password P" for the raw key [rawKey] wraps [rawKey]
    under the PBKDF2 key and IV of [pwd], and its validation blob is [rawKey]
    encrypted under the key and IV derived from [rawKey] itself. *)
Definition derivedWith (pwd rawKey : string) (item : EncryptionKeyEntry) : Prop :=
  let wrapped := extractSaltAndCipherText (data item) in
  let derivedKey := pbkdf2 pwd (salt wrapped) (iterations item) KEY_LEN in
  let check := extractSaltAndCipherText (validation item) in
  let keyParams := openSSLKey rawKey (salt check) in
  cipherText wrapped =
    aesCbcEncrypt (String.substring 0 16 derivedKey) rawKey
                  (String.substring 16 16 derivedKey)
  ∧ cipherText check = aesCbcEncrypt (key keyParams) rawKey (Crypto.iv keyParams).

(** What is asked of the primitives: decryption undoes encryption under the
    same key and IV. *)
Definition aesRoundTrip : Prop :=
  ∀ k m i, aesCbcDecrypt k (aesCbcEncrypt k m i) i = m.

(** The validation blob of [item] pins [rawKey] down: no other candidate is
    what the blob decrypts to under the key and IV derived from that
    candidate. *)
Definition validationBinds (rawKey : string) (item : EncryptionKeyEntry) : Prop :=
  ∀ candidate, decryptValidation candidate (validation item) = candidate →
               candidate = rawKey.

(** The last entry of [keys] at level [lvl]. *)
Definition entryForLevel (keys : list EncryptionKeyEntry) (lvl : string)
    : option EncryptionKeyEntry :=
  list.last (filter (λ key, level key = lvl) keys).

(** The entry of the key file that item data of level [lvl] goes by: the
    last one at that level, and none for SL3, whose entries are not
    loaded. *)
Definition persistedEntryForLevel (keyList : list EncryptionKeyEntry) (lvl : string)
    : option EncryptionKeyEntry :=
  if decide (lvl = "SL3") then None else entryForLevel keyList lvl.

End WithCrypto.

(** *** Dates and the tuples of contents.js *)

(** [x|0]: the integer [x] wrapped into 32 bits, two's complement. *)
Definition toInt32 (x : Z) : Z := ((x + 2 ^ 31) mod 2 ^ 32 - 2 ^ 31)%Z.

(** [UNIXDateFromDate].  The division is one of floating point numbers and
    [|0] cuts the quotient towards zero; for the times a [Date] can hold (at
    most 8.64e15 in size, below 2^53) the rounded quotient lies less than
    2^-11 from the exact one, which is a multiple of 1/1000, so it is cut to
    the same integer as the exact one.  [getTime()] of an invalid date is
    NaN, and so is NaN / 1000; [NaN|0] is 0. *)
Definition UNIXDateFromDate (date : Date) : Z :=
  match date with
  | DateOf time => toInt32 (time ÷ 1000)%Z
  | InvalidDate => 0%Z
  end.

(** The tuple that [saveItem] writes for an item: [now] is the time of the
    clock, which the head of [saveItem] has just set [item.updatedAt] to,
    with [new Date()]. *)
Definition contentsEntryOf (now : Z) (item : Item) : ContentsEntry :=
  {| entry0 := uuid item;
     entry1 := typeName item;
     entry2 := title item;
     entry3 := location item;
     entry4 := UNIXDateFromDate (newDate now);
     entry5 := folderUuid item;
     entry6 := 0;
     entry7 := if trashed item then "Y" else "N" |}.

(** The callback of [saveItem] that brings contents.js up to date, on the
    parsed file: [underscore.find] gives the first tuple that carries the
    item's uuid, which is assigned in place; when there is none a new tuple
    is pushed and assigned. *)
Definition updateContentEntries (now : Z) (item : Item)
    (contentEntries : list ContentsEntry) : list ContentsEntry :=
  match list_find (λ entry, entry0 entry = uuid item) contentEntries with
  | Some (i, _) => <[i := contentsEntryOf now item]> contentEntries
  | None => contentEntries ++ [contentsEntryOf now item]
  end.

(** The item that a listing shows for [item] once it was saved at [now]:
    the date is the one of the tuple, and the security level is the one that
    the constructor of [Item] sets, since no tuple carries a level. *)
Definition listedAfterSave (now : Z) (item : Item) : Item :=
  {| updatedAt := Some (dateFromUNIXDate (UNIXDateFromDate (newDate now)));
     title := title item;
     securityLevel := "SL5";
     typeName := typeName item;
     uuid := uuid item;
     location := location item;
     folderUuid := folderUuid item;
     trashed := trashed item |}.

(** *** Item content and its form in a .1password file

    [ItemContent] is made by a constructor that sets every member;
    [ItemSection] and [ItemField] are not, so a member of theirs is whatever
    was assigned to it, a string or undefined ([None]).  The objects of
    [agilekeychain] come out of [JSON.parse]: any member may be missing. *)
Module Keychain.

Record ItemUrl := { label : string; url : string }.

Record WebFormField := {
  value : string;
  id : string;
  name : string;
  type : string;
  designation : string;
}.

Record ItemField := {
  field_kind : option string;
  field_name : option string;
  field_title : option string;
  field_value : option string;
}.

Record ItemSection := {
  section_name : option string;
  section_title : option string;
  section_fields : list ItemField;
}.

Record ItemContent := {
  sections : list ItemSection;
  urls : list ItemUrl;
  notes : string;
  formFields : list WebFormField;
  htmlMethod : string;
  htmlAction : string;
  htmlId : string;
}.

(* new ItemContent() *)
Definition newItemContent : ItemContent :=
  {| sections := []; urls := []; notes := ""; formFields := [];
     htmlMethod := ""; htmlAction := ""; htmlId := "" |}.

(* agilekeychain.ItemField *)
Record KeychainField := {
  k : option string;
  n : option string;
  t : option string;
  v : option string;
}.

(* agilekeychain.ItemSection *)
Record KeychainSection := {
  keychain_name : option string;
  keychain_title : option string;
  keychain_fields : option (list KeychainField);
}.

(* agilekeychain.ItemContent *)
Record KeychainContent := {
  keychain_sections : option (list KeychainSection);
  URLs : option (list ItemUrl);
  notesPlain : option string;
  fields : option (list WebFormField);
  keychain_htmlAction : option string;
  keychain_htmlMethod : option string;
  htmlID : option string;
}.

(* [if (s)] on a member that holds a string: undefined and '' are falsy *)
Definition truthy (s : option string) : bool :=
  match s with
  | None | Some "" => false
  | Some _ => true
  end.

Definition ItemField_toAgileKeychainObject (field : ItemField) : KeychainField :=
  {| k := field_kind field; n := field_name field;
     t := field_title field; v := field_value field |}.

Definition ItemField_fromAgileKeychainObject (fieldData : KeychainField) : ItemField :=
  {| field_kind := k fieldData; field_name := n fieldData;
     field_title := t fieldData; field_value := v fieldData |}.

Definition ItemSection_toAgileKeychainObject (section : ItemSection) : KeychainSection :=
  {| keychain_name := section_name section;
     keychain_title := section_title section;
     keychain_fields :=
       Some (fold_left (λ pushed field, pushed ++ [ItemField_toAgileKeychainObject field])
                       (section_fields section) []) |}.

(* [if (data.fields)]: an array is truthy *)
Definition ItemSection_fromAgileKeychainObject (data : KeychainSection) : ItemSection :=
  {| section_name := keychain_name data;
     section_title := keychain_title data;
     section_fields :=
       match keychain_fields data with
       | Some fieldList =>
           fold_left (λ pushed fieldData,
                        pushed ++ [ItemField_fromAgileKeychainObject fieldData]) fieldList []
       | None => []
       end |}.

(** [ItemContent.toAgileKeychainObject]: [content.sections], [content.urls]
    and [content.formFields] are arrays, which are truthy, so each of the
    three [if]s is taken. *)
Definition ItemContent_toAgileKeychainObject (content : ItemContent) : KeychainContent :=
  {| keychain_sections :=
       Some (fold_left (λ pushed section,
                          pushed ++ [ItemSection_toAgileKeychainObject section])
                       (sections content) []);
     URLs := Some (fold_left (λ pushed url', pushed ++ [url']) (urls content) []);
     notesPlain := Some (notes content);
     fields := Some (fold_left (λ pushed field, pushed ++ [field]) (formFields content) []);
     keychain_htmlAction := Some (htmlAction content);
     keychain_htmlMethod := Some (htmlMethod content);
     htmlID := Some (htmlId content) |}.

(** [ItemContent.fromAgileKeychainObject]: a new [ItemContent] to which what
    [data] holds is pushed and assigned. *)
Definition ItemContent_fromAgileKeychainObject (data : KeychainContent) : ItemContent :=
  let content := newItemContent in
  {| sections :=
       match keychain_sections data with
       | Some sectionList =>
           fold_left (λ pushed section,
                        pushed ++ [ItemSection_fromAgileKeychainObject section])
                     sectionList (sections content)
       | None => sections content
       end;
     urls :=
       match URLs data with
       | Some urlList => fold_left (λ pushed url', pushed ++ [url']) urlList (urls content)
       | None => urls content
       end;
     notes := if truthy (notesPlain data) then default "" (notesPlain data)
              else notes content;
     formFields :=
       match fields data with
       | Some fieldList =>
           fold_left (λ pushed field, pushed ++ [field]) fieldList (formFields content)
       | None => formFields content
       end;
     htmlAction := if truthy (keychain_htmlAction data)
                   then default "" (keychain_htmlAction data) else htmlAction content;
     htmlMethod := if truthy (keychain_htmlMethod data)
                   then default "" (keychain_htmlMethod data) else htmlMethod content;
     htmlId := if truthy (htmlID data) then default "" (htmlID data) else htmlId content |}.

End Keychain.

(** Entries of a vault under the small implementation. *)
Module Toy.

Definition salted (slt text : string) : string := slt +:+ text.

(* an entry for the raw key [rawKey], wrapped under the password [pwd] *)
Definition entry (id lvl pwd rawKey : string) : EncryptionKeyEntry :=
  let derivedKey := Crypto.Toy.pad 32 (pwd +:+ "abcd") in
  {| data := salted "abcd"
       (Crypto.Toy.toyEncrypt (String.substring 0 16 derivedKey) rawKey
                              (String.substring 16 16 derivedKey));
     identifier := id;
     iterations := 1000;
     level := lvl;
     validation := salted "wxyz" (Crypto.Toy.toyEncrypt rawKey rawKey "wxyz") |}.

(* a vault's entries: one wrapped under "correct", one under "other" *)
Definition twoEntries : list EncryptionKeyEntry :=
  [entry "id1" "SL5" "correct" "RAWKEY1"; entry "id2" "SL4" "other" "RAWKEY2"].

(* a key file with an entry of level SL3 next to the one of level SL5 *)
Definition withUnusedEntry : list EncryptionKeyEntry :=
  [entry "id1" "SL5" "correct" "RAWKEY1"; entry "id3" "SL3" "correct" "RAWKEY3"].

(* two keys under one identifier *)
Definition sameIdentifier : list EncryptionKeyEntry :=
  [entry "id1" "SL5" "correct" "RAWKEY1"; entry "id1" "SL4" "other" "RAWKEY2"].

End Toy.

End Onepass.

(** ** The local store (lib/local_store.ts) *)

(** Modelled from the spec: [key_value_store.ObjectStore] is not part of the
    sources at hand.  Section 6 gives its contract: [get(key)] yields the
    value or null, [set(key,value)], [remove(key)], [list(prefix)] yields the
    keys with that prefix in no particular order.  [failing] names the keys on
    which the storage engine rejects [set] and [remove]; reads succeed. *)
Module KeyValueStore.

Record ObjectStore (V : Type) := {
  entries : gmap string V;
  failing : string → bool;
}.
Global Arguments entries {V} _.
Global Arguments failing {V} _.

Definition get {V} (key : string) (os : ObjectStore V) : Outcome (option V) :=
  Fulfilled (entries os !! key).

Definition set {V} (key : string) (value : V) (os : ObjectStore V)
    : Outcome unit * ObjectStore V :=
  if failing os key then (Rejected (StorageError key), os)
  else (Fulfilled (), {| entries := <[key := value]> (entries os); failing := failing os |}).

Definition remove {V} (key : string) (os : ObjectStore V) : Outcome unit * ObjectStore V :=
  if failing os key then (Rejected (StorageError key), os)
  else (Fulfilled (), {| entries := delete key (entries os); failing := failing os |}).

Definition list {V} (prefix : string) (os : ObjectStore V) : Outcome (list string) :=
  Fulfilled (filter (λ key, String.prefix prefix key = true) (map_to_list (entries os)).*1).

End KeyValueStore.

Module LocalStore.

(** *** item_store data *)

Record ItemOpenContents := { tags : list string; scope : string }.

Record ItemUrl := { label : string; url : string }.

Record WebFormField := {
  value : string;
  id : string;
  name : string;
  type : string;
  designation : string;
}.

Record ItemField := {
  field_kind : string;
  field_name : string;
  field_title : string;
  field_value : string;
}.

Record ItemSection := {
  section_name : string;
  section_title : string;
  fields : list ItemField;
}.

Record ItemContent := {
  sections : list ItemSection;
  urls : list ItemUrl;
  notes : string;
  formFields : list WebFormField;
  htmlMethod : string;
  htmlAction : string;
  htmlId : string;
}.

(** An item as the store uses it.  A date is the time value of a [Date],
    whole milliseconds since the epoch, [None] when the field is not set;
    the dates are taken to be valid ones, for which [new Date(t).getTime()]
    is [t] (a number beyond 8.64e15 in size would make an invalid date).
    [content] is what [setContent] put on the item, if anything. *)
Record Item := {
  uuid : string;
  title : string;
  updatedAt : option Z;
  createdAt : option Z;
  trashed : bool;
  typeName : string;
  openContents : option ItemOpenContents;
  account : string;
  locations : list string;
  revision : option string;
  parentRevision : option string;
  content : option ItemContent;
}.

(** Modelled from the spec: [item_store.ChangeSource] is not part of the
    sources at hand; [saveItem] names [Sync] only, and section 4.6 calls the
    other source a local edit. *)
Inductive ChangeSource := Sync | Local.

Global Instance ChangeSource_eq_dec : EqDecision ChangeSource.
Proof. solve_decision. Defined.

Record ListItemsOptions := { includeTombstones : option bool }.

(* the default argument [{}] *)
Definition noOptions : ListItemsOptions := {| includeTombstones := None |}.

(** *** JSON structures of the store *)

Record ItemOverview := {
  ov_title : string;
  ov_updatedAt : Z;
  ov_createdAt : Z;
  ov_trashed : bool;
  ov_typeName : string;
  ov_openContents : option ItemOpenContents;
  ov_locations : list string;
  ov_account : string;
  ov_revision : option string;
  ov_parentRevision : option string;
}.

(** The numbers that are the time value of a [Date]: for these, and for no
    other number, [new Date(t).getTime()] is [t]. *)
Definition validTime (t : Z) : Prop := (- Onepass.maxTime ≤ t ≤ Onepass.maxTime)%Z.

(** A number read from a stored object: a value, null, or undefined when the
    property is missing. *)
Inductive Nullable (A : Type) : Type :=
| Value (a : A)
| Null
| Undefined.
Global Arguments Value {A} a.
Global Arguments Null {A}.
Global Arguments Undefined {A}.

Global Instance Nullable_eq_dec `{EqDecision A} : EqDecision (Nullable A).
Proof. solve_decision. Defined.

(* [ItemIndexEntry extends ItemOverview] with [lastSyncedAt] *)
Record ItemIndexEntry := {
  entry_overview : ItemOverview;
  lastSyncedAt : Nullable Z;
}.

Record ItemRevision := {
  rev_parentRevision : option string;
  rev_overview : ItemOverview;
  rev_content : ItemContent;
}.

Record LastSyncEntry := {
  timestamp : Nullable Z;
  sync_revision : string;
}.

Definition KEY_ID_PREFIX : string := "key/".

(** What the two object stores hold. *)
Inductive KeyStoreValue :=
| HintValue (hint : string)
| KeyValue (key : Onepass.EncryptionKeyEntry).

Inductive ItemStoreValue :=
| Encrypted (data : string)
| LastSynced (entry : LastSyncEntry).

(** [JSON.stringify] and [JSON.parse] at the type [T]. *)
Class Json (T : Type) := {
  stringify : T → string;
  parse : string → option T;
}.

(** Modelled from the spec: [item_store] is not part of the sources at hand.
    [generateRevisionId] computes the revision id "deterministically from
    (overview, content)" (section 4.6, step 4); [contentLocations] and
    [contentAccount] are what [updateOverviewFromContent] reads off the
    content for the overview's [locations] and [account]. *)
Class ItemStoreModule := {
  generateRevisionId : Item → ItemContent → string;
  contentLocations : ItemContent → list string;
  contentAccount : ItemContent → string;
}.

(** The store: the key agent it was constructed with (one that keeps its keys
    in memory, as [SimpleKeyAgent] does), the two object stores of the
    database, the value held by [itemIndex] (a [cached.Cached]), and what has
    been published on the two event streams. *)
Record Store := {
  keyAgent : Onepass.SimpleKeyAgent;
  keyStore : KeyValueStore.ObjectStore KeyStoreValue;
  itemStore : KeyValueStore.ObjectStore ItemStoreValue;
  itemIndex : option (gmap string ItemIndexEntry);
  onItemUpdated : list Item;
  onUnlock : nat;
}.

Definition withKeyAgent (agent : Onepass.SimpleKeyAgent) (st : Store) : Store :=
  {| keyAgent := agent; keyStore := keyStore st; itemStore := itemStore st;
     itemIndex := itemIndex st; onItemUpdated := onItemUpdated st; onUnlock := onUnlock st |}.

Definition withKeyStore (ks : KeyValueStore.ObjectStore KeyStoreValue) (st : Store) : Store :=
  {| keyAgent := keyAgent st; keyStore := ks; itemStore := itemStore st;
     itemIndex := itemIndex st; onItemUpdated := onItemUpdated st; onUnlock := onUnlock st |}.

Definition withItemStore (os : KeyValueStore.ObjectStore ItemStoreValue) (st : Store) : Store :=
  {| keyAgent := keyAgent st; keyStore := keyStore st; itemStore := os;
     itemIndex := itemIndex st; onItemUpdated := onItemUpdated st; onUnlock := onUnlock st |}.

Definition withItemIndex (cached : option (gmap string ItemIndexEntry)) (st : Store) : Store :=
  {| keyAgent := keyAgent st; keyStore := keyStore st; itemStore := itemStore st;
     itemIndex := cached; onItemUpdated := onItemUpdated st; onUnlock := onUnlock st |}.

(* this.onItemUpdated.publish(item) *)
Definition publishItemUpdated (item : Item) (st : Store) : Store :=
  {| keyAgent := keyAgent st; keyStore := keyStore st; itemStore := itemStore st;
     itemIndex := itemIndex st; onItemUpdated := onItemUpdated st ++ [item];
     onUnlock := onUnlock st |}.

(** An asynchronous operation of the store: it ends fulfilled or rejected,
    and the store is as the operation left it in either case. *)
Definition Async (A : Type) : Type := Store → Outcome A * Store.

Definition resolve {A} (a : A) : Async A := λ st, (Fulfilled a, st).
Definition reject {A} (e : Failure) : Async A := λ st, (Rejected e, st).
Definition settle {A} (o : Outcome A) : Async A := λ st, (o, st).

(* promise.then(k) *)
Definition andThen {A B} (m : Async A) (k : A → Async B) : Async B :=
  λ st, match m st with
        | (Fulfilled a, st') => k a st'
        | (Rejected e, st') => (Rejected e, st')
        end.

Global Instance Async_ret : MRet Async := @resolve.
Global Instance Async_bind : MBind Async := λ A B k m, andThen m k.

(** Operations started together ([ids.map(...)], a [forEach] that pushes
    promises): each one runs whatever happens to the others. *)
Fixpoint startAll {A} (ops : list (Async A)) : Store → list (Outcome A) * Store :=
  λ st, match ops with
        | [] => ([], st)
        | op :: rest =>
            let '(o, st') := op st in
            let '(os, st'') := startAll rest st' in
            (o :: os, st'')
        end.

(* Q.all(ops) *)
Definition allOf {A} (ops : list (Async A)) : Async (list A) :=
  λ st, let '(os, st') := startAll ops st in (Q.all os, st').

Definition keyStoreOp {A} (op : KeyValueStore.ObjectStore KeyStoreValue → Outcome A * KeyValueStore.ObjectStore KeyStoreValue)
    : Async A :=
  λ st, let '(o, ks) := op (keyStore st) in (o, withKeyStore ks st).

Definition itemStoreOp {A} (op : KeyValueStore.ObjectStore ItemStoreValue → Outcome A * KeyValueStore.ObjectStore ItemStoreValue)
    : Async A :=
  λ st, let '(o, os) := op (itemStore st) in (o, withItemStore os st).

Section WithImplementations.
Context {crypto : CryptoImpl} {jsonIndex : Json (gmap string ItemIndexEntry)}
        {jsonRevision : Json ItemRevision} {itemStoreModule : ItemStoreModule}.

(** *** Item (item_store.Item) *)

Definition isTombstone (item : Item) : bool :=
  bool_decide (typeName item = "system.Tombstone").

(** Modelled from the spec: [Item.updateTimestamps] is not part of the
    sources at hand.  Section 4.6, step 1: "stamp updatedAt (and createdAt if
    absent) to now". *)
Definition updateTimestamps (now : Z) (item : Item) : Item :=
  {| uuid := uuid item; title := title item;
     updatedAt := Some now;
     createdAt := match createdAt item with Some c => Some c | None => Some now end;
     trashed := trashed item; typeName := typeName item;
     openContents := openContents item; account := account item;
     locations := locations item; revision := revision item;
     parentRevision := parentRevision item; content := content item |}.

(** Modelled from the spec: [Item.updateOverviewFromContent] is not part of
    the sources at hand.  Of the overview fields, [locations] and [account]
    are the ones that come from the content. *)
Definition updateOverviewFromContent (content' : ItemContent) (item : Item) : Item :=
  {| uuid := uuid item; title := title item;
     updatedAt := updatedAt item; createdAt := createdAt item;
     trashed := trashed item; typeName := typeName item;
     openContents := openContents item; account := contentAccount content';
     locations := contentLocations content'; revision := revision item;
     parentRevision := parentRevision item; content := content item |}.

(* item.parentRevision = r *)
Definition setParentRevision (r : option string) (item : Item) : Item :=
  {| uuid := uuid item; title := title item;
     updatedAt := updatedAt item; createdAt := createdAt item;
     trashed := trashed item; typeName := typeName item;
     openContents := openContents item; account := account item;
     locations := locations item; revision := revision item;
     parentRevision := r; content := content item |}.

(* item.revision = r *)
Definition setRevision (r : option string) (item : Item) : Item :=
  {| uuid := uuid item; title := title item;
     updatedAt := updatedAt item; createdAt := createdAt item;
     trashed := trashed item; typeName := typeName item;
     openContents := openContents item; account := account item;
     locations := locations item; revision := r;
     parentRevision := parentRevision item; content := content item |}.

(** *** Store *)

(* [new Date(overview.updatedAt)] is the date with that time value, for a
   [validTime] *)
Definition itemFromOverview (uuid' : string) (overview : ItemOverview) : Item :=
  {| uuid := uuid'; title := ov_title overview;
     updatedAt := Some (ov_updatedAt overview);
     createdAt := Some (ov_createdAt overview);
     trashed := ov_trashed overview; typeName := ov_typeName overview;
     openContents := ov_openContents overview;
     account := ov_account overview; locations := ov_locations overview;
     revision := ov_revision overview;
     parentRevision := ov_parentRevision overview; content := None |}.

(* [item.updatedAt.getTime()] throws when the date is not set *)
Definition overviewFromItem (item : Item) : Outcome ItemOverview :=
  match updatedAt item, createdAt item with
  | Some updated, Some created =>
      Fulfilled {| ov_title := title item; ov_updatedAt := updated;
                   ov_createdAt := created; ov_trashed := trashed item;
                   ov_typeName := typeName item;
                   ov_openContents := openContents item;
                   ov_locations := locations item; ov_account := account item;
                   ov_revision := revision item;
                   ov_parentRevision := parentRevision item |}
  | _, _ => Rejected TypeError
  end.

Definition cryptoParams : Onepass.CryptoParams :=
  {| Onepass.algo := Onepass.AES128_OpenSSLKey |}.

(* returns the key used to encrypt item overview data *)
Definition overviewKey : Async string :=
  λ st, match Onepass.listKeys (keyAgent st) with
        | [] => (Rejected VaultLockedError, st)
        | keyId :: _ => (Fulfilled keyId, st)
        end.

Definition keyForItem (item : Item) : Async string := overviewKey.

Definition encrypt {T} `{!Json T} (key : string) (data : T) : Async string :=
  λ st, (Onepass.encrypt (keyAgent st) key (stringify data) cryptoParams, st).

Definition decrypt {T} `{!Json T} (key data : string) : Async T :=
  decrypted ← (λ st, (Onepass.decrypt (keyAgent st) key data cryptoParams, st)) : Async string;
  match parse decrypted with
  | Some v => resolve v
  | None => reject SchemaError
  end.

(** [decrypt] handed what was read for a key under which there is no text:
    the value goes to the key agent as it is. *)
Definition decryptNothing {T} `{!Json T} (key : string) : Async T :=
  decrypted ← (λ st, (Onepass.decryptNothing (keyAgent st) key cryptoParams, st)) : Async string;
  match parse decrypted with
  | Some v => resolve v
  | None => reject SchemaError
  end.

(* a value read for a key that holds encrypted text *)
Definition encryptedText (value : option ItemStoreValue) : option string :=
  match value with
  | Some (Encrypted data) => Some data
  | _ => None
  end.

(** [this.decrypt(key, data)] for a [data] that was read from the item
    store.  The keys that the store reads text from hold text or nothing. *)
Definition decryptRead {T} `{!Json T} (key : string) (data : option ItemStoreValue)
    : Async T :=
  match encryptedText data with
  | Some text => decrypt key text
  | None => decryptNothing key
  end.

Definition writeItemIndex (index : gmap string ItemIndexEntry) : Async unit :=
  key ← overviewKey;
  encrypted ← encrypt key index;
  itemStoreOp (KeyValueStore.set "index" (Encrypted encrypted)).

(* [if (encryptedItemIndex)]: null and the empty string are falsy *)
Definition readItemIndex : Async (gmap string ItemIndexEntry) :=
  key ← overviewKey;
  encryptedItemIndex ← (λ st, (KeyValueStore.get "index" (itemStore st), st));
  match encryptedItemIndex with
  | None | Some (Encrypted "") => resolve ∅
  | Some _ => decryptRead key encryptedItemIndex
  end.

(** Modelled from the spec: [cached.Cached] is not part of the sources at
    hand.  Section 4.4: [get()] "returns the cached value if present;
    otherwise invokes the loader"; [set(value)] "persists via the writer, then
    updates the cache ... only on writer success"; [clear()] "drops the cached
    value in memory; no persisted-storage side effect".  The store makes it
    with [readItemIndex] as loader and [writeItemIndex] as writer. *)
Definition itemIndex_get : Async (gmap string ItemIndexEntry) :=
  λ st, match itemIndex st with
        | Some cached => (Fulfilled cached, st)
        | None =>
            match readItemIndex st with
            | (Fulfilled loaded, st') => (Fulfilled loaded, withItemIndex (Some loaded) st')
            | (Rejected e, st') => (Rejected e, st')
            end
        end.

Definition itemIndex_set (value : gmap string ItemIndexEntry) : Async unit :=
  λ st, match writeItemIndex value st with
        | (Fulfilled _, st') => (Fulfilled (), withItemIndex (Some value) st')
        | (Rejected e, st') => (Rejected e, st')
        end.

Definition itemIndex_clear (st : Store) : Store := withItemIndex None st.

(** The listener the constructor registers on [keyAgent.onLock()]. *)
Definition onLockListener (st : Store) : Store := itemIndex_clear st.

(** Modelled from the spec: [key_agent.KeyAgent.forgetKeys] and its lock
    event are not part of the sources at hand.  Section 4.2: it "clears all
    state, transitions to Locked, emits an unlock-state event"; the event
    runs the store's listener. *)
Definition forgetKeys (st : Store) : Store :=
  onLockListener (withKeyAgent (Onepass.forgetKeys (keyAgent st)) st).

Definition addKey (id key : string) (st : Store) : Store :=
  withKeyAgent (Onepass.addKey id key (keyAgent st)) st.

Definition itemsOf (opts : ListItemsOptions) (overviewMap : gmap string ItemIndexEntry)
    : list Item :=
  fold_left (λ items '(key, overview),
    let item := itemFromOverview key (entry_overview overview) in
    if negb (isTombstone item) || default false (includeTombstones opts)
    then items ++ [item] else items) (map_to_list overviewMap) [].

Definition listItems (opts : ListItemsOptions) : Async (list Item) :=
  overviewMap ← itemIndex_get;
  resolve (itemsOf opts overviewMap).

Definition getLastSyncEntries (ids : list string) : Async (list (option ItemStoreValue)) :=
  allOf (map (λ id st, (KeyValueStore.get ("lastSynced/" +:+ id) (itemStore st), st)) ids).

(* [entry ? entry.timestamp : 0] *)
Definition lastSyncTime (entry : option ItemStoreValue) : Nullable Z :=
  match entry with
  | None | Some (Encrypted "") => Value 0%Z
  | Some (LastSynced e) => timestamp e
  | Some (Encrypted _) => Undefined
  end.

(** The [forEach] of [updateIndex]: [overviewMap] is assigned to item by
    item; a throw ([getTime] on a missing date, the assertion) ends the loop
    with the assignments made so far in place. *)
Fixpoint assignEntries (updatedItems : list Item) (lastSyncTimes : list (Nullable Z))
    (overviewMap : gmap string ItemIndexEntry)
    : Outcome unit * gmap string ItemIndexEntry :=
  match updatedItems with
  | [] => (Fulfilled (), overviewMap)
  | item :: rest =>
      match overviewFromItem item with
      | Rejected e => (Rejected e, overviewMap)
      | Fulfilled overview =>
          let entry := {| entry_overview := overview;
                          lastSyncedAt := default Undefined (head lastSyncTimes) |} in
          if decide (lastSyncedAt entry = Null)
          then (Rejected AssertionViolation, overviewMap)
          else assignEntries rest (tail lastSyncTimes) (<[uuid item := entry]> overviewMap)
      end
  end.

(** [updateIndex]: [itemIndex.get()] hands out the cached object itself, so
    the assignments of the loop are made on the cached map, before and
    whether or not [itemIndex.set] writes it.  The index read is always an
    object, so [if (!overviewMap)] never replaces it. *)
Definition updateIndex (updatedItems : list Item) : Async unit :=
  let updatedItemIds := map uuid updatedItems in
  λ st,
    let '(index, st1) := itemIndex_get st in
    let '(synced, st2) := getLastSyncEntries updatedItemIds st1 in
    match index, synced with
    | Rejected e, _ => (Rejected e, st2)
    | Fulfilled _, Rejected e => (Rejected e, st2)
    | Fulfilled overviewMap, Fulfilled entries =>
        let lastSyncTimes := map lastSyncTime entries in
        let '(assigned, overviewMap') := assignEntries updatedItems lastSyncTimes overviewMap in
        let st3 := withItemIndex (Some overviewMap') st2 in
        match assigned with
        | Rejected e => (Rejected e, st3)
        | Fulfilled _ => itemIndex_set overviewMap' st3
        end
    end.

(** Modelled from the spec: [collectionutil.BatchedUpdateQueue] is not part
    of the sources at hand.  Section 4.5: [push(item)] "returns a future that
    resolves once that batch is durably merged"; the merge is the callback
    the constructor gives the queue, [updateIndex].  One push with nothing
    else pending is a batch of one. *)
Definition indexUpdateQueue_push (item : Item) : Async unit := updateIndex [item].

Definition revisionKey (rev : option string) : string :=
  "revisions/" +:+ default "undefined" rev.

Definition getContent (item : Item) : Async ItemContent :=
  key ← keyForItem item;
  revisionData ← (λ st, (KeyValueStore.get (revisionKey (revision item)) (itemStore st), st));
  revision' ← decryptRead key revisionData;
  resolve (rev_content revision').

(** Modelled from the spec: [Item.getContent] is not part of the sources at
    hand.  Section 4.6, step 3: "Fetch current content": what [setContent]
    put on the item, else what the store holds for the item's revision. *)
Definition item_getContent (item : Item) : Async ItemContent :=
  match content item with
  | Some c => resolve c
  | None => getContent item
  end.

(** The synchronous head of [saveItem]. *)
Definition stampOrAssert (now : Z) (item : Item) (source : ChangeSource) : Outcome Item :=
  if decide (source ≠ Sync) then
    (* set last-modified time to current time *)
    Fulfilled (updateTimestamps now item)
  else
    (* when syncing an item from another store, it must already have been saved *)
    match createdAt item, updatedAt item with
    | Some _, Some _ => Fulfilled item
    | _, _ => Rejected AssertionViolation
    end.

(** [saveItem]: the outcome of the returned promise (or what the call
    throws), the item as the call leaves it (it is changed in place), and
    the store.  [now] is the clock.  The index update and the write of the
    revision are both started before either is waited for; they touch
    different keys of the item store. *)
Definition saveItem (now : Z) (item : Item) (source : ChangeSource) (st : Store)
    : Outcome unit * Item * Store :=
  match stampOrAssert now item source with
  | Rejected e => (Rejected e, item, st)
  | Fulfilled item =>
      match keyForItem item st with
      | (Rejected e, st) => (Rejected e, item, st)
      | (Fulfilled key, st) =>
          match item_getContent item st with
          | (Rejected e, st) => (Rejected e, item, st)
          | (Fulfilled content, st) =>
              let item := updateOverviewFromContent content item in
              let item := setParentRevision (revision item) item in
              let item := setRevision (Some (generateRevisionId item content)) item in
              match overviewFromItem item with
              | Rejected e => (Rejected e, item, st)
              | Fulfilled overview =>
                  let revision' :=
                    {| rev_parentRevision := parentRevision item;
                       rev_overview := overview;
                       rev_content := content |} in
                  match encrypt key revision' st with
                  | (Rejected e, st) => (Rejected e, item, st)
                  | (Fulfilled revisionData, st) =>
                      let '(indexUpdated, st) := indexUpdateQueue_push item st in
                      let '(revisionSaved, st) :=
                        itemStoreOp (KeyValueStore.set (revisionKey (revision item))
                                                       (Encrypted revisionData)) st in
                      match eraseResult (Q.all [indexUpdated; revisionSaved]) with
                      | Rejected e => (Rejected e, item, st)
                      | Fulfilled _ => (Fulfilled (), item, publishItemUpdated item st)
                      end
                  end
              end
          end
      end
  end.

Definition listKeys : Async (list (option KeyStoreValue)) :=
  keyIds ← (λ st, (KeyValueStore.list KEY_ID_PREFIX (keyStore st), st));
  allOf (map (λ id st, (KeyValueStore.get id (keyStore st), st)) keyIds).

Definition saveKeys (keys : list Onepass.EncryptionKeyEntry) (hint : string) : Async unit :=
  keyIds ← (λ st, (KeyValueStore.list KEY_ID_PREFIX (keyStore st), st));
  (* remove existing keys *)
  _ ← allOf (map (λ id, keyStoreOp (KeyValueStore.remove id)) keyIds);
  (* save new keys and hint *)
  _ ← allOf (map (λ key, keyStoreOp (KeyValueStore.set
                                       (KEY_ID_PREFIX +:+ Onepass.identifier key)
                                       (KeyValue key))) keys
             ++ [keyStoreOp (KeyValueStore.set "hint" (HintValue hint))]);
  resolve ().

Definition passwordHint : Async (option KeyStoreValue) :=
  λ st, (KeyValueStore.get "hint" (keyStore st), st).

(** *** Notions the statements about the store use *)

(** The key [saveItem] encrypts with: the first key the agent lists. *)
Definition firstKey (st : Store) : option string := head (Onepass.listKeys (keyAgent st)).

(** The item as [saveItem] has it when the revision id is computed: stamped
    (or checked), the overview brought up to date from the content, and
    [parentRevision] set to the revision it had. *)
Definition beforeRevisionId (content' : ItemContent) (item : Item) : Item :=
  let item := updateOverviewFromContent content' item in
  setParentRevision (revision item) item.

(** The item [saveItem] hands back once the content is there. *)
Definition saved (content' : ItemContent) (item : Item) : Item :=
  setRevision (Some (generateRevisionId (beforeRevisionId content' item) content'))
              (beforeRevisionId content' item).

(** What an operation on the item store leaves alone: the key agent, the key
    store, what was published, and which keys of the item store fail. *)
Definition sameSurroundings (st st' : Store) : Prop :=
  keyAgent st' = keyAgent st ∧ keyStore st' = keyStore st
  ∧ onItemUpdated st' = onItemUpdated st ∧ onUnlock st' = onUnlock st
  ∧ KeyValueStore.failing (itemStore st') = KeyValueStore.failing (itemStore st).

(** The entries of an object store after the keys [ids] were removed, and
    after the pairs [kvs] were set, one after the other. *)
Definition removed {V} (ids : list string) (m : gmap string V) : gmap string V :=
  fold_left (λ m' id', delete id' m') ids m.

Definition stored {V} (kvs : list (string * V)) (m : gmap string V) : gmap string V :=
  fold_left (λ m' kv, <[kv.1 := kv.2]> m') kvs m.

(* what [saveKeys] sets: the keys, then the hint *)
Definition keysAndHint (keys : list Onepass.EncryptionKeyEntry) (hint : string)
    : list (string * KeyStoreValue) :=
  map (λ key, (KEY_ID_PREFIX +:+ Onepass.identifier key, KeyValue key)) keys
  ++ [("hint", HintValue hint)].

(** The overview that the revision id is computed from. *)
Definition revisionInput (content' : ItemContent) (item : Item) : Outcome ItemOverview :=
  overviewFromItem (beforeRevisionId content' item).

(** The revision record that one save of [item] with [content'] encrypts. *)
Definition savedRevision (content' : ItemContent) (item : Item) : Outcome ItemRevision :=
  match overviewFromItem item with
  | Fulfilled overview =>
      Fulfilled {| rev_parentRevision := parentRevision item;
                   rev_overview := overview;
                   rev_content := content' |}
  | Rejected e => Rejected e
  end.

(** Saves of one item, one after the other; between two saves the item is
    edited by [setContent] and by assignments to [title], [trashed] and
    [typeName]. *)
Record Edit := {
  newTitle : string;
  newTrashed : bool;
  newTypeName : string;
  newContent : option ItemContent;
}.

Definition applyEdit (edit : Edit) (item : Item) : Item :=
  {| uuid := uuid item; title := newTitle edit;
     updatedAt := updatedAt item; createdAt := createdAt item;
     trashed := newTrashed edit; typeName := newTypeName edit;
     openContents := openContents item; account := account item;
     locations := locations item; revision := revision item;
     parentRevision := parentRevision item;
     content := match newContent edit with Some c => Some c | None => content item end |}.

Fixpoint saveSequence (steps : list (Z * ChangeSource * Edit)) (item : Item) (st : Store)
    : list (Outcome unit * Item) * Store :=
  match steps with
  | [] => ([], st)
  | (now, source, edit) :: rest =>
      let '(r, item', st') := saveItem now (applyEdit edit item) source st in
      let '(results, st'') := saveSequence rest item' st' in
      ((r, item') :: results, st'')
  end.

(** Each item of the list has the revision of the one before it as its
    [parentRevision]; [prev] is the revision before the first. *)
Fixpoint linked (prev : option string) (items : list Item) : Prop :=
  match items with
  | [] => True
  | item :: rest => parentRevision item = prev ∧ linked (revision item) rest
  end.

(** A store in which a save of [item] meets no obstacle: the content is on
    the item, the agent holds a key, the item store rejects nothing, the
    index is cached or can be read, and no null is stored as the item's last
    sync time. *)
Definition readyToSave (item : Item) (st : Store) : Prop :=
  is_Some (content item) ∧ is_Some (firstKey st)
  ∧ (∀ k, KeyValueStore.failing (itemStore st) k = false)
  ∧ isFulfilled (itemIndex_get st).1 = true
  ∧ lastSyncTime (KeyValueStore.entries (itemStore st) !! ("lastSynced/" +:+ uuid item))
    ≠ Null.

(** Modelled from the spec: the law of [generateRevisionId], which is not
    part of the sources at hand.  Section 3: the "revision id is a
    deterministic function of (overview, content) — identical inputs yield
    identical ids"; section 8: "any change to either yields a different id".
    The overview is the one [overviewFromItem] makes of the item. *)
Definition revisionIdLaw : Prop :=
  ∀ item1 content1 item2 content2 overview1 overview2,
    overviewFromItem item1 = Fulfilled overview1 →
    overviewFromItem item2 = Fulfilled overview2 →
    (generateRevisionId item1 content1 = generateRevisionId item2 content2
     ↔ overview1 = overview2 ∧ content1 = content2).

(** The keys an unlock puts back into the agent after a lock. *)
Definition addKeys (keys : list (string * string)) (st : Store) : Store :=
  fold_left (λ st' '(id', key), addKey id' key st') keys st.

(* the item [listItems] makes of one entry of the index *)
Definition itemOfIndexEntry (entry : string * ItemIndexEntry) : Item :=
  itemFromOverview entry.1 (entry_overview entry.2).

(** The keys of the key store that hold key entries, and the given key that
    ends up stored under such a key: the last one with that identifier. *)
Definition isKeyId (key : string) : Prop := String.prefix KEY_ID_PREFIX key = true.

Definition keySavedAt (keys : list Onepass.EncryptionKeyEntry) (storeKey : string)
    : option KeyStoreValue :=
  KeyValue <$> list.last (filter (λ key, KEY_ID_PREFIX +:+ Onepass.identifier key = storeKey) keys).

(** *** Loading, unlocking and the sync bookkeeping *)

(** [loadItem]: [if (revision)] is taken for a revision that is given and is
    not the empty string.  The two promises of [Q.all] are the overview key
    and the stored text of the revision; reading the text cannot fail. *)
Definition loadItem (uuid' : string) (revision' : option string) : Async Item :=
  match revision' with
  | Some (String c rest) =>
      key ← overviewKey;
      revisionData ← (λ st, (KeyValueStore.get (revisionKey (Some (String c rest)))
                                               (itemStore st), st));
      revision'' ← decryptRead key revisionData;
      let item := itemFromOverview uuid' (rev_overview revision'') in
      resolve (setParentRevision (rev_parentRevision revision'') item)
  | _ =>
      items ← listItems noOptions;
      let matches := filter (λ item, uuid item = uuid') items in
      match matches with
      | item :: _ => resolve item
      | [] => reject (NotFoundError uuid')
      end
  end.

(* this.onUnlock.publish(null) *)
Definition publishUnlock (st : Store) : Store :=
  {| keyAgent := keyAgent st; keyStore := keyStore st; itemStore := itemStore st;
     itemIndex := itemIndex st; onItemUpdated := onItemUpdated st;
     onUnlock := S (onUnlock st) |}.

(* this.keyAgent.addKey(key.id, key.key) *)
Definition agentAddKey (key : string * string) : Async unit :=
  λ st, (Fulfilled (), addKey key.1 key.2 st).

(** [unlock]: [key_agent.decryptKeys] is not part of the sources at hand; it
    is the argument [decryptKeys], which is given what [listKeys] read and the
    password and yields the pairs of id and key, or throws.  Adding a key to
    the agent is always fulfilled. *)
Definition unlock
    (decryptKeys : list (option KeyStoreValue) → string → Outcome (list (string * string)))
    (pwd : string) : Async unit :=
  keys ← listKeys;
  if decide (length keys = 0) then reject NoKeysSavedError
  else
    keys' ← settle (decryptKeys keys pwd);
    _ ← allOf (map agentAddKey keys');
    (λ st, (Fulfilled (), publishUnlock st)) : Async unit.





(** The item as [itemFromOverview] makes it again from its own overview:
    the content that was set on it is not part of an overview. *)
Definition withoutContent (item : Item) : Item :=
  {| uuid := uuid item; title := title item;
     updatedAt := updatedAt item; createdAt := createdAt item;
     trashed := trashed item; typeName := typeName item;
     openContents := openContents item; account := account item;
     locations := locations item; revision := revision item;
     parentRevision := parentRevision item; content := None |}.

End WithImplementations.

(** A small concrete [JSON] and [item_store], used to run the store on
    examples.  A value is written so that where it ends can be told from the
    text: a string character by character, each behind a "1", with a "0" at
    the end; a list likewise; a number as binary digits up to a ".". *)
Module Toy.

Class Encode (T : Type) := enc : T → string.
Global Hint Mode Encode ! : typeclass_instances.

Fixpoint encPositive (p : positive) : string :=
  match p with
  | xH => "."
  | xO p' => String "0"%char (encPositive p')
  | xI p' => String "1"%char (encPositive p')
  end.

Fixpoint encString (s : string) : string :=
  match s with
  | EmptyString => "0"
  | String c s' => String "1"%char (String c (encString s'))
  end.

Fixpoint encList {A} (encA : A → string) (l : list A) : string :=
  match l with
  | [] => "0"
  | x :: l' => String "1"%char (encA x +:+ encList encA l')
  end.

Global Instance Encode_positive : Encode positive := encPositive.
Global Instance Encode_Z : Encode Z := λ z, encPositive (encode z).
Global Instance Encode_bool : Encode bool := λ b, if b then "t" else "f".
Global Instance Encode_string : Encode string := encString.
Global Instance Encode_list `{Encode A} : Encode (list A) := encList enc.
Global Instance Encode_option `{Encode A} : Encode (option A) :=
  λ o, match o with Some a => String "1"%char (enc a) | None => "0" end.
Global Instance Encode_prod `{Encode A, Encode B} : Encode (A * B) :=
  λ p, enc p.1 +:+ enc p.2.
Global Instance Encode_Nullable `{Encode A} : Encode (Nullable A) :=
  λ n, match n with
       | Value a => String "v"%char (enc a)
       | Null => "n"
       | Undefined => "u"
       end.

Global Instance Encode_ItemOpenContents : Encode ItemOpenContents :=
  λ x, enc (tags x, scope x).
Global Instance Encode_ItemUrl : Encode ItemUrl := λ x, enc (label x, url x).
Global Instance Encode_WebFormField : Encode WebFormField :=
  λ x, enc (value x, id x, name x, type x, designation x).
Global Instance Encode_ItemField : Encode ItemField :=
  λ x, enc (field_kind x, field_name x, field_title x, field_value x).
Global Instance Encode_ItemSection : Encode ItemSection :=
  λ x, enc (section_name x, section_title x, fields x).
Global Instance Encode_ItemContent : Encode ItemContent :=
  λ x, enc (sections x, urls x, notes x, formFields x,
            htmlMethod x, htmlAction x, htmlId x).
Global Instance Encode_ItemOverview : Encode ItemOverview :=
  λ x, enc (ov_title x, ov_updatedAt x, ov_createdAt x, ov_trashed x,
            ov_typeName x, ov_openContents x, ov_locations x, ov_account x,
            ov_revision x, ov_parentRevision x).
Global Instance Encode_ItemIndexEntry : Encode ItemIndexEntry :=
  λ x, enc (entry_overview x, lastSyncedAt x).
Global Instance Encode_ItemRevision : Encode ItemRevision :=
  λ x, enc (rev_parentRevision x, rev_overview x, rev_content x).

(** Where a written value ends can be told from the text. *)
Definition prefixFree {T} (encT : T → string) : Prop :=
  ∀ x y r s, encT x +:+ r = encT y +:+ s → x = y ∧ r = s.

Definition overviewOf (title' typeName' : string) : ItemIndexEntry :=
  {| entry_overview :=
       {| ov_title := title'; ov_updatedAt := 7; ov_createdAt := 3;
          ov_trashed := false; ov_typeName := typeName'; ov_openContents := None;
          ov_locations := []; ov_account := ""; ov_revision := Some "r1";
          ov_parentRevision := None |};
     lastSyncedAt := Value 0%Z |}.

(* an index of two items, one of them a tombstone *)
Definition exampleIndex : gmap string ItemIndexEntry :=
  <["U1" := overviewOf "Bank" "webforms.WebForm"]>
  (<["U3" := overviewOf "" "system.Tombstone"]> ∅).

(* this [parse] knows the text of two indexes: the empty one and
   [exampleIndex] *)
Definition toyJsonIndex : Json (gmap string ItemIndexEntry) :=
  {| stringify index := enc (map_to_list index);
     parse text :=
       if decide (text = enc (map_to_list exampleIndex)) then Some exampleIndex
       else if decide (text = enc (map_to_list (∅ : gmap string ItemIndexEntry))) then Some ∅
       else None |}.

(* the examples only write revisions: this [parse] reads none back *)
Definition toyJsonRevision : Json ItemRevision :=
  {| stringify := enc; parse _ := None |}.

(* the id is the text of what [overviewFromItem] reads and of the content *)
Definition toyItemStore : ItemStoreModule :=
  {| generateRevisionId item content' :=
       enc (title item, updatedAt item, createdAt item, trashed item,
            typeName item, openContents item, locations item, account item,
            revision item, parentRevision item, content');
     contentLocations content' := map url (urls content');
     contentAccount content' :=
       default "" (value <$> head (filter (λ f, designation f = "username")
                                          (formFields content'))) |}.

(** A store with one key in its agent and nothing stored. *)
Definition emptyStore : Store :=
  {| keyAgent := {| Onepass.keys := [("id1", "RAWKEY1")] |};
     keyStore := {| KeyValueStore.entries := ∅; KeyValueStore.failing := λ _, false |};
     itemStore := {| KeyValueStore.entries := ∅; KeyValueStore.failing := λ _, false |};
     itemIndex := None;
     onItemUpdated := [];
     onUnlock := 0 |}.

Definition login : ItemContent :=
  {| sections := [];
     urls := [{| label := "website"; url := "https://bank.example" |}];
     notes := "";
     formFields := [{| value := "jane"; id := ""; name := "user"; type := "T";
                       designation := "username" |}];
     htmlMethod := ""; htmlAction := ""; htmlId := "" |}.

(* a new item with content set and never saved *)
Definition bank : Item :=
  {| uuid := "U1"; title := "Bank"; updatedAt := None; createdAt := None;
     trashed := false; typeName := "webforms.WebForm"; openContents := None;
     account := ""; locations := []; revision := None; parentRevision := None;
     content := Some login |}.

(* the same item, with dates, as a sync hands it over *)
Definition synced : Item :=
  {| uuid := "U1"; title := "Bank"; updatedAt := Some 7%Z; createdAt := Some 3%Z;
     trashed := false; typeName := "webforms.WebForm"; openContents := None;
     account := ""; locations := []; revision := None; parentRevision := None;
     content := Some login |}.

(* and under another title *)
Definition renamed : Item :=
  {| uuid := "U1"; title := "Bank 2"; updatedAt := Some 7%Z; createdAt := Some 3%Z;
     trashed := false; typeName := "webforms.WebForm"; openContents := None;
     account := ""; locations := []; revision := None; parentRevision := None;
     content := Some login |}.

(* an item that a sync hands over without dates *)
Definition undated : Item :=
  {| uuid := "U2"; title := "Mail"; updatedAt := None; createdAt := None;
     trashed := false; typeName := "webforms.WebForm"; openContents := None;
     account := ""; locations := []; revision := None; parentRevision := None;
     content := Some login |}.

(* a store whose storage rejects writes to one key of the item store *)
Definition refusing (key : string) : Store :=
  {| keyAgent := {| Onepass.keys := [("id1", "RAWKEY1")] |};
     keyStore := {| KeyValueStore.entries := ∅; KeyValueStore.failing := λ _, false |};
     itemStore := {| KeyValueStore.entries := ∅;
                     KeyValueStore.failing := λ k, bool_decide (k = key) |};
     itemIndex := None;
     onItemUpdated := [];
     onUnlock := 0 |}.

(* a store that holds [exampleIndex] in its storage, encrypted under the key
   of its agent, and another index in its cache *)
Definition cachedStore : Store :=
  {| keyAgent := {| Onepass.keys := [("id1", "RAWKEY1")] |};
     keyStore := {| KeyValueStore.entries := ∅; KeyValueStore.failing := λ _, false |};
     itemStore :=
       {| KeyValueStore.entries :=
            {["index" := Encrypted (Crypto.Toy.toyEncrypt "RAWKEY1"
                                      (enc (map_to_list exampleIndex)) "salt")]};
          KeyValueStore.failing := λ _, false |};
     itemIndex := Some {["U1" := overviewOf "Old title" "webforms.WebForm"]};
     onItemUpdated := [];
     onUnlock := 0 |}.

(* a store that holds an old key, a hint and a setting in its key store *)
Definition keyedStore : Store :=
  {| keyAgent := {| Onepass.keys := [] |};
     keyStore :=
       {| KeyValueStore.entries :=
            <["key/old" := KeyValue (Onepass.Toy.entry "old" "SL5" "before" "OLDKEY")]>
            (<["hint" := HintValue "old hint"]>
             (<["settings" := HintValue "kept"]> ∅));
          KeyValueStore.failing := λ _, false |};
     itemStore := {| KeyValueStore.entries := ∅; KeyValueStore.failing := λ _, false |};
     itemIndex := None;
     onItemUpdated := [];
     onUnlock := 0 |}.

(* this [parse] knows the text of one revision *)
Definition toyJsonRevisionOf (known : ItemRevision) : Json ItemRevision :=
  {| stringify := enc;
     parse text := if decide (text = enc known) then Some known else None |}.

(* the item [bank] as a save at time 10 leaves it, and the revision record
   that this save stores *)
Definition bankSaved : Item :=
  (saveItem (jsonIndex := toyJsonIndex) (jsonRevision := toyJsonRevision)
            (itemStoreModule := toyItemStore) (crypto := Crypto.Toy.toy)
            10 bank Local emptyStore).1.2.

Definition bankRevision : ItemRevision :=
  {| rev_parentRevision := None;
     rev_overview :=
       {| ov_title := "Bank"; ov_updatedAt := 10; ov_createdAt := 10;
          ov_trashed := false; ov_typeName := "webforms.WebForm";
          ov_openContents := None; ov_locations := ["https://bank.example"];
          ov_account := "jane"; ov_revision := revision bankSaved;
          ov_parentRevision := None |};
     rev_content := login |}.

(* a key derivation that knows one password *)
Definition toyDecryptKeys (keys : list (option KeyStoreValue)) (pwd : string)
    : Outcome (list (string * string)) :=
  if decide (pwd = "correct")
  then Fulfilled [("id1", "RAWKEY1"); ("id2", "RAWKEY2")]
  else Rejected KeyValidationError.

(* two saves of one item, the second after a change of title *)
Definition twoSaves : list (Z * ChangeSource * Edit) :=
  [(10%Z, Local, {| newTitle := "Bank"; newTrashed := false;
                    newTypeName := "webforms.WebForm"; newContent := None |});
   (20%Z, Local, {| newTitle := "My bank"; newTrashed := false;
                    newTypeName := "webforms.WebForm"; newContent := None |})].

End Toy.

End LocalStore.

(** ** URLs of items (the item search code that follows the store in
    lib/local_store.ts) *)

Module ItemSearch.

(* [s.indexOf(c)] for a string [c] of one character: the offset of the first
   [c] in [s], [None] for -1 *)
Fixpoint indexOf (c : ascii) (s : string) : option nat :=
  match s with
  | EmptyString => None
  | String a s' => if decide (a = c) then Some 0 else S <$> indexOf c s'
  end.

(* [s.slice(0, n)] for [n] from 0 on; [s.slice(0, s.length - 1)] of the empty
   string is the empty string, as [substring 0 (0 - 1)] is *)
Definition slice0 (n : nat) (s : string) : string := String.substring 0 n s.

Section WithStringUtil.

(** [stringutil.endsWith] is not part of the sources at hand: the functions
    below take it as it comes. *)
Context (endsWith : string → string → bool).

(** The [while] loop of [stripQuery]: [fuel] bounds the number of times the
    test is made, [None] when it is used up before the test fails. *)
Fixpoint stripSlashes (fuel : nat) (strippedUrl : string) : option string :=
  match fuel with
  | O => None
  | S fuel' =>
      if endsWith strippedUrl "/"
      then stripSlashes fuel' (slice0 (String.length strippedUrl - 1) strippedUrl)
      else Some strippedUrl
  end.

(* Returns the part of a URL before the query string *)
Definition stripQuery (fuel : nat) (url : string) : option string :=
  let strippedUrl :=
    match indexOf "?" url with
    | Some queryOffset => slice0 queryOffset url
    | None => url
    end in
  stripSlashes fuel strippedUrl.

(* strips the query string from a URL string and prefixes an HTTPS scheme if
   none is set *)
Definition normalizeUrl (fuel : nat) (url : string) : option string :=
  let url :=
    match indexOf ":" url with
    | None => "https://" +:+ url   (* assume HTTPS if URL is lacking a scheme *)
    | Some _ => url
    end in
  stripQuery fuel url.

(** What is asked of [stringutil.endsWith]: it tells whether the string ends
    with the given one, here a slash. *)
Definition testsTrailingSlash : Prop :=
  ∀ s, endsWith s "/" = true ↔ ∃ s', s = s' +:+ "/".

End WithStringUtil.

(** An [endsWith] for suffixes of one character. *)
Module Toy.

Fixpoint lastIs (c : ascii) (s : string) : bool :=
  match s with
  | EmptyString => false
  | String a EmptyString => bool_decide (a = c)
  | String _ s' => lastIs c s'
  end.

Definition endsWith (s suffix : string) : bool :=
  match suffix with
  | String c EmptyString => lastIs c s
  | _ => false
  end.

End Toy.

End ItemSearch.

(** * Properties of the vault *)

Module VaultSpec.

Import Onepass.

(** ** The small implementation *)

Lemma string_app_cons a s t : String a s +:+ t = String a (s +:+ t).
Proof. reflexivity. Qed.

Lemma string_app_nil t : "" +:+ t = t.
Proof. reflexivity. Qed.

Lemma string_length_app s t :
  String.length (s +:+ t) = String.length s + String.length t.
Proof.
  induction s as [|a s IH]; [done|].
  rewrite string_app_cons. simpl. by rewrite IH.
Qed.

Lemma string_app_inv s1 s2 t1 t2 :
  String.length s1 = String.length s2 → s1 +:+ t1 = s2 +:+ t2 → s1 = s2 ∧ t1 = t2.
Proof.
  revert s2. induction s1 as [|a s1 IH]; intros [|b s2] Hlen Heq;
    simpl in Hlen; try discriminate.
  - done.
  - rewrite !string_app_cons in Heq. injection Heq as -> Heq.
    destruct (IH s2) as [-> ->]; auto.
Qed.

Lemma stripPrefix_app p s : Crypto.Toy.stripPrefix p (p +:+ s) = Some s.
Proof.
  induction p as [|a p IH]; [by destruct s|].
  rewrite string_app_cons. simpl. by rewrite decide_True.
Qed.

Lemma stripPrefix_Some p s m : Crypto.Toy.stripPrefix p s = Some m → s = p +:+ m.
Proof.
  revert s. induction p as [|a p IH]; intros s H.
  - destruct s; simpl in H; by simplify_eq.
  - destruct s as [|b s]; simpl in H; [done|].
    case_decide; [|done]. subst. rewrite string_app_cons. f_equal. by apply IH.
Qed.

Lemma toy_roundtrip : aesRoundTrip (crypto := Crypto.Toy.toy).
Proof.
  intros k m i. simpl. unfold Crypto.Toy.toyDecrypt, Crypto.Toy.toyEncrypt.
  assert (k +:+ i +:+ m = (k +:+ i) +:+ m) as ->.
  { induction k as [|a k IH]; [done|]. rewrite !string_app_cons. by rewrite IH. }
  by rewrite stripPrefix_app.
Qed.

Lemma string_app_assoc s t u : (s +:+ t) +:+ u = s +:+ t +:+ u.
Proof.
  induction s as [|a s IH]; [done|]. rewrite !string_app_cons. by rewrite IH.
Qed.

Lemma substring_all s : String.substring 0 (String.length s) s = s.
Proof. induction s as [|a s IH]; [done|]. simpl. by rewrite IH. Qed.

Lemma substring_none s : String.substring 0 0 s = "".
Proof. by destruct s. Qed.

Lemma toy_extract_salted ct :
  Crypto.Toy.toyExtract (Toy.salted "wxyz" ct) = {| salt := "wxyz"; cipherText := ct |}.
Proof.
  unfold Crypto.Toy.toyExtract, Toy.salted.
  rewrite string_length_app. simpl String.length.
  replace (4 + String.length ct - 4) with (String.length ct) by lia.
  rewrite 4!string_app_cons, string_app_nil. simpl.
  by rewrite substring_all, substring_none.
Qed.

Lemma toy_binds id lvl pwd rawKey :
  validationBinds (crypto := Crypto.Toy.toy) rawKey (Toy.entry id lvl pwd rawKey).
Proof.
  intros candidate. unfold decryptValidation. cbn [Toy.entry validation].
  cbn [extractSaltAndCipherText Crypto.Toy.toy]. rewrite toy_extract_salted.
  cbn [salt cipherText openSSLKey aesCbcDecrypt key iv Crypto.Toy.toy].
  unfold Crypto.Toy.toyDecrypt, Crypto.Toy.toyEncrypt.
  destruct (Crypto.Toy.stripPrefix _ _) as [m|] eqn:Hstrip.
  - intros ->. apply stripPrefix_Some in Hstrip.
    rewrite string_app_assoc in Hstrip.
    apply string_app_inv in Hstrip as [? _]; [done|].
    apply (f_equal String.length) in Hstrip.
    rewrite !string_length_app in Hstrip. simpl in Hstrip. lia.
  - intros Hbad. apply (f_equal String.length) in Hbad.
    rewrite !string_length_app in Hbad. simpl in Hbad. lia.
Qed.

(** ** Key derivation *)

Section KeyDerivation.
Context {crypto : CryptoImpl}.

Lemma decryptKey_unfold masterPwd encryptedKey slt iterCount validation' :
  decryptKey masterPwd encryptedKey slt iterCount validation' =
  let candidate := candidateKey masterPwd encryptedKey slt iterCount in
  if decide (decryptValidation candidate validation' ≠ candidate)
  then Rejected KeyValidationError else Fulfilled candidate.
Proof. reflexivity. Qed.

Lemma decryptKey_Fulfilled masterPwd encryptedKey slt iterCount validation' k :
  decryptKey masterPwd encryptedKey slt iterCount validation' = Fulfilled k ↔
  k = candidateKey masterPwd encryptedKey slt iterCount
  ∧ decryptValidation k validation' = k.
Proof.
  rewrite decryptKey_unfold. cbv zeta. case_decide as Hne; split.
  - done.
  - intros [-> ?]. done.
  - intros [= <-]. done.
  - intros [-> _]. done.
Qed.

Lemma decryptKey_Rejected masterPwd encryptedKey slt iterCount validation' e :
  decryptKey masterPwd encryptedKey slt iterCount validation' = Rejected e →
  e = KeyValidationError.
Proof. rewrite decryptKey_unfold. cbv zeta. case_decide; congruence. Qed.

Lemma substring_split32 s :
  String.length s = 32 →
  String.length (String.substring 0 16 s) = 16
  ∧ String.length (String.substring 16 16 s) = 16
  ∧ s = String.substring 0 16 s +:+ String.substring 16 16 s.
Proof.
  intros Hlen.
  do 32 (destruct s as [|? s]; [discriminate Hlen|]).
  destruct s; [|discriminate Hlen]. done.
Qed.

(** C2.  [decryptKey] takes the 32 characters of PBKDF2 apart into a key and
    an IV of 16 each, decrypts the wrapped key to a candidate, decrypts the
    validation blob under the key and IV that [openSSLKey] makes of the
    candidate and the blob's own salt, and returns the candidate exactly when
    the two agree, failing with KeyValidationError otherwise.  So an entry
    derived with a password is accepted with that password, decryption
    undoing encryption; and a password that yields another candidate is
    refused, the validation blob pinning the raw key down. *)
Theorem decryptKey_validates_by_round_trip :
  (∀ masterPwd encryptedKey slt iterCount validation',
     let derivedKey := pbkdf2 masterPwd slt iterCount 32 in
     let aesKey := String.substring 0 16 derivedKey in
     let iv' := String.substring 16 16 derivedKey in
     let candidate := aesCbcDecrypt aesKey encryptedKey iv' in
     let check := extractSaltAndCipherText validation' in
     let keyParams := openSSLKey candidate (salt check) in
     let decryptedValidation :=
       aesCbcDecrypt (key keyParams) (cipherText check) (iv keyParams) in
     (String.length derivedKey = 32 →
        String.length aesKey = 16 ∧ String.length iv' = 16
        ∧ derivedKey = aesKey +:+ iv')
     ∧ (decryptKey masterPwd encryptedKey slt iterCount validation' = Fulfilled candidate
        ↔ decryptedValidation = candidate)
     ∧ (decryptedValidation ≠ candidate →
        decryptKey masterPwd encryptedKey slt iterCount validation'
        = Rejected KeyValidationError)
     ∧ (∀ k, decryptKey masterPwd encryptedKey slt iterCount validation' = Fulfilled k →
             k = candidate)
     ∧ (∀ e, decryptKey masterPwd encryptedKey slt iterCount validation' = Rejected e →
             e = KeyValidationError))
  ∧ (∀ pwd rawKey item,
       aesRoundTrip → derivedWith pwd rawKey item →
       deriveKey pwd item = Fulfilled rawKey)
  ∧ (∀ rawKey item pwd',
       validationBinds rawKey item →
       let wrapped := extractSaltAndCipherText (data item) in
       candidateKey pwd' (cipherText wrapped) (salt wrapped) (iterations item) ≠ rawKey →
       deriveKey pwd' item = Rejected KeyValidationError).
Proof.
  split; [|split].
  - intros masterPwd encryptedKey slt iterCount validation'. cbv zeta.
    split; [apply substring_split32|].
    rewrite decryptKey_unfold. unfold candidateKey, decryptValidation, KEY_LEN.
    cbv zeta. case_decide as Hne.
    + repeat split; try done; try congruence.
    + repeat split; try done; try congruence.
  - intros pwd rawKey item Hround Hentry.
    unfold deriveKey. apply decryptKey_Fulfilled.
    destruct Hentry as [Hwrapped Hcheck]. cbv zeta in Hwrapped, Hcheck.
    unfold candidateKey, decryptValidation. cbv zeta.
    rewrite Hwrapped, Hcheck. by rewrite !Hround.
  - intros rawKey item pwd' Hbinds wrapped Hother. unfold deriveKey. fold wrapped.
    rewrite decryptKey_unfold. cbv zeta. case_decide as Hne; [done|].
    apply Hbinds in Hne. done.
Qed.

End KeyDerivation.

Lemma toy_entry_derivedWith id lvl pwd rawKey :
  derivedWith (crypto := Crypto.Toy.toy) pwd rawKey (Toy.entry id lvl pwd rawKey).
Proof.
  unfold derivedWith. cbn [Toy.entry validation data iterations].
  cbn [extractSaltAndCipherText Crypto.Toy.toy]. rewrite toy_extract_salted.
  assert (Crypto.Toy.toyExtract (Toy.salted "abcd" (Crypto.Toy.toyEncrypt
            (String.substring 0 16 (Crypto.Toy.pad 32 (pwd +:+ "abcd"))) rawKey
            (String.substring 16 16 (Crypto.Toy.pad 32 (pwd +:+ "abcd")))))
          = {| salt := "abcd";
               cipherText := Crypto.Toy.toyEncrypt
                 (String.substring 0 16 (Crypto.Toy.pad 32 (pwd +:+ "abcd"))) rawKey
                 (String.substring 16 16 (Crypto.Toy.pad 32 (pwd +:+ "abcd"))) |}) as ->.
  { unfold Crypto.Toy.toyExtract, Toy.salted.
    rewrite string_length_app. simpl String.length.
    match goal with |- context [4 + ?n - 4] => replace (4 + n - 4) with n by lia end.
    rewrite 4!string_app_cons, string_app_nil. simpl.
  by rewrite substring_all, substring_none. }
  done.
Qed.

Lemma decryptKey_validates_by_round_trip_witness :
  deriveKey (crypto := Crypto.Toy.toy) "correct" (Toy.entry "id1" "SL5" "correct" "RAWKEY")
    = Fulfilled "RAWKEY"
  ∧ deriveKey (crypto := Crypto.Toy.toy) "wrong" (Toy.entry "id1" "SL5" "correct" "RAWKEY")
    = Rejected KeyValidationError.
Proof.
  pose proof (decryptKey_validates_by_round_trip (crypto := Crypto.Toy.toy))
    as (_ & Hright & Hwrong).
  split.
  - apply Hright; [exact toy_roundtrip|apply toy_entry_derivedWith].
  - apply (Hwrong "RAWKEY"); [apply toy_binds|]. vm_compute. discriminate.
Defined.

(** ** Unlocking *)

Section Unlock.
Context {crypto : CryptoImpl}.

Lemma deriveKey_not_Fulfilled pwd item :
  isFulfilled (deriveKey pwd item) = false →
  deriveKey pwd item = Rejected KeyValidationError.
Proof.
  destruct (deriveKey pwd item) as [k|e] eqn:Hd; [done|]. intros _.
  unfold deriveKey in Hd. by apply decryptKey_Rejected in Hd as ->.
Qed.

Lemma unlockEach_cons pwd item rest agent :
  unlockEach pwd (item :: rest) agent =
  match deriveKey pwd item with
  | Rejected e => (Rejected e, agent)
  | Fulfilled k => unlockEach pwd rest (addKey (identifier item) k agent)
  end.
Proof. reflexivity. Qed.

Lemma unlockEach_stops pwd before item after agent :
  Forall (λ e, isFulfilled (deriveKey pwd e) = true) before →
  isFulfilled (deriveKey pwd item) = false →
  unlockEach pwd (before ++ item :: after) agent
  = (Rejected KeyValidationError, registered pwd before agent).
Proof.
  intros Hbefore Hitem. revert agent.
  induction Hbefore as [|e before He _ IH]; intros agent.
  - rewrite app_nil_l, unlockEach_cons.
    by rewrite (deriveKey_not_Fulfilled _ _ Hitem).
  - rewrite <-app_comm_cons, unlockEach_cons. unfold registered. simpl.
    destruct (deriveKey pwd e) as [k|]; [|done]. apply IH.
Qed.

Lemma unlockEach_all pwd items agent :
  Forall (λ e, isFulfilled (deriveKey pwd e) = true) items →
  unlockEach pwd items agent = (Fulfilled (), registered pwd items agent).
Proof.
  intros Hall. revert agent.
  induction Hall as [|e items He _ IH]; intros agent; [done|].
  rewrite unlockEach_cons. unfold registered. simpl.
  destruct (deriveKey pwd e) as [k|]; [|done]. apply IH.
Qed.

Lemma first_failing pwd (items : list EncryptionKeyEntry) :
  Exists (λ e, isFulfilled (deriveKey pwd e) = false) items →
  ∃ before item after,
    items = before ++ item :: after
    ∧ Forall (λ e, isFulfilled (deriveKey pwd e) = true) before
    ∧ isFulfilled (deriveKey pwd item) = false.
Proof.
  induction items as [|e items IH]; intros Hex; [by apply Exists_nil in Hex|].
  destruct (isFulfilled (deriveKey pwd e)) eqn:He.
  - apply Exists_cons in Hex as [Hex|Hex]; [congruence|].
    destruct (IH Hex) as (before & item & after & -> & Hb & Hi).
    exists (e :: before), item, after. split; [done|]. split; [|done].
    by constructor.
  - exists [], e, items. by repeat split.
Qed.

Lemma listKeys_addKey id k agent id' :
  id' ∈ listKeys (addKey id k agent) ↔ id' = id ∨ id' ∈ listKeys agent.
Proof.
  destruct agent as [ks]. unfold listKeys, addKey. simpl.
  induction ks as [|[i k'] ks IH]; simpl.
  - rewrite elem_of_cons, elem_of_nil. tauto.
  - case_decide; subst; simpl; rewrite !elem_of_cons; [tauto|].
    rewrite IH. tauto.
Qed.

Lemma listKeys_registered pwd items agent id :
  id ∈ listKeys agent → id ∈ listKeys (registered pwd items agent).
Proof.
  revert agent. induction items as [|e items IH]; intros agent Hin; [done|].
  unfold registered. simpl. apply IH.
  destruct (deriveKey pwd e); [|done]. apply listKeys_addKey. by right.
Qed.

Lemma registered_listed pwd items agent e :
  Forall (λ e, isFulfilled (deriveKey pwd e) = true) items →
  e ∈ items → identifier e ∈ listKeys (registered pwd items agent).
Proof.
  intros Hall. revert agent.
  induction Hall as [|e' items He _ IH]; intros agent Hin; [by apply elem_of_nil in Hin|].
  unfold registered. simpl. destruct (deriveKey pwd e') as [k|] eqn:Hd; [|done].
  apply elem_of_cons in Hin as [->|Hin].
  - apply listKeys_registered, listKeys_addKey. by left.
  - by apply IH.
Qed.

(** A successful unlock registers every entry. *)
Lemma unlock_all_valid pwd vault keyEntries :
  vaultKeys vault = Fulfilled keyEntries →
  Forall (λ e, isFulfilled (deriveKey pwd e) = true) keyEntries →
  unlock pwd vault
  = (Fulfilled (), {| vaultKeys := vaultKeys vault;
                      keyAgent := registered pwd keyEntries (keyAgent vault) |}).
Proof.
  intros Hkeys Hall. unfold unlock. rewrite Hkeys.
  by rewrite (unlockEach_all _ _ _ Hall).
Qed.

End Unlock.

(** C1.  [unlock] where it is not atomic: of two entries the first derives
    with the password and the second does not; [unlock] is rejected with
    KeyValidationError, and the key of the first entry, which that attempt
    added, is in the agent, which held no key before.  ([Store.unlock] of
    lib/local_store.ts, which the source marks as a duplicate of this one,
    derives every key before it adds any.) *)
Lemma unlock_leaves_earlier_keys :
  unlock (crypto := Crypto.Toy.toy) "correct"
         {| vaultKeys := Fulfilled Toy.twoEntries; keyAgent := newKeyAgent |}
  = (Rejected KeyValidationError,
     {| vaultKeys := Fulfilled Toy.twoEntries;
        keyAgent := {| keys := [("id1", "RAWKEY1")] |} |})
  ∧ listKeys newKeyAgent = []
  ∧ listKeys {| keys := [("id1", "RAWKEY1")] |} = ["id1"].
Proof. vm_compute. done. Qed.

(** ** Item data by security level *)

Section ItemData.
Context {crypto : CryptoImpl}.

Lemma forLevel_entry op keys lvl data' :
  forLevel op keys lvl data'
  = (λ key, op (identifier key) data' {| algo := AES128_OpenSSLKey |})
      <$> entryForLevel keys lvl.
Proof.
  unfold forLevel, entryForLevel.
  induction keys as [|key keys IH] using rev_ind; [done|].
  rewrite fold_left_app, list.filter_app, IH. simpl.
  rewrite filter_cons, filter_nil. case_decide.
  - by rewrite last_snoc.
  - by rewrite app_nil_r.
Qed.

Lemma entryForLevel_Some keys lvl key :
  entryForLevel keys lvl = Some key → key ∈ keys ∧ level key = lvl.
Proof.
  unfold entryForLevel. intros Hlast.
  apply last_Some_elem_of, list_elem_of_filter in Hlast. tauto.
Qed.

Lemma entryForLevel_None keys lvl :
  entryForLevel keys lvl = None ↔ Forall (λ key, level key ≠ lvl) keys.
Proof.
  unfold entryForLevel. rewrite last_None, list.Forall_forall. split.
  - intros Hnil key Hin Hlvl.
    assert (key ∈ filter (λ key, level key = lvl) keys) as Hf
      by by apply list_elem_of_filter.
    rewrite Hnil in Hf. by apply elem_of_nil in Hf.
  - intros Hall. destruct (filter _ keys) as [|key rest] eqn:Hf; [done|].
    assert (key ∈ filter (λ key, level key = lvl) keys) as Hin
      by (rewrite Hf; apply elem_of_cons; by left).
    apply list_elem_of_filter in Hin as [Hlvl Hin]. by apply Hall in Hin.
Qed.

Lemma agent_never_NoKeyForLevel agent id text params lvl :
  decrypt agent id text params ≠ Rejected (NoKeyForLevelError lvl)
  ∧ encrypt agent id text params ≠ Rejected (NoKeyForLevelError lvl).
Proof.
  unfold decrypt, encrypt.
  destruct (property id (keys agent)), (algo params); done.
Qed.

Lemma item_data_uses_key_of_level_aux vault keyEntries lvl data' :
  vaultKeys vault = Fulfilled keyEntries →
  decryptItemData vault lvl data'
  = match entryForLevel keyEntries lvl with
    | Some key => decrypt (keyAgent vault) (identifier key) data' {| algo := AES128_OpenSSLKey |}
    | None => Rejected (NoKeyForLevelError lvl)
    end
  ∧ encryptItemData vault lvl data'
    = match entryForLevel keyEntries lvl with
      | Some key => encrypt (keyAgent vault) (identifier key) data' {| algo := AES128_OpenSSLKey |}
      | None => Rejected (NoKeyForLevelError lvl)
      end.
Proof.
  intros Hkeys. unfold decryptItemData, encryptItemData. rewrite Hkeys.
  rewrite !forLevel_entry. by destruct (entryForLevel keyEntries lvl).
Qed.

Lemma filter_level_loaded (atob : string → string) (keyList : list EncryptionKeyEntry) lvl :
  filter (λ key, level key = lvl)
         (filter (λ item, level item ≠ "SL3")
                 (map (λ entry, {| data := atob (data entry);
                                   identifier := identifier entry;
                                   iterations := iterations entry;
                                   level := level entry;
                                   validation := atob (validation entry) |}) keyList))
  = if decide (lvl = "SL3") then []
    else map (λ entry, {| data := atob (data entry);
                          identifier := identifier entry;
                          iterations := iterations entry;
                          level := level entry;
                          validation := atob (validation entry) |})
             (filter (λ key, level key = lvl) keyList).
Proof.
  induction keyList as [|entry keyList IH].
  - by case_decide.
  - rewrite map_cons, !filter_cons. cbn [level].
    destruct (decide (level entry ≠ "SL3")) as [Hloaded|Hskipped].
    + rewrite filter_cons, IH. cbn [level].
      destruct (decide (level entry = lvl)) as [<-|Hother].
      * destruct (decide (level entry = "SL3")); [done|]. by rewrite map_cons.
      * done.
    + rewrite IH. destruct (decide (lvl = "SL3")) as [->|Hlvl]; [done|].
      rewrite decide_False; [done|]. intros <-. by apply Hskipped in Hlvl.
Qed.

Lemma persistedEntryForLevel_None keyList lvl :
  persistedEntryForLevel keyList lvl = None
  ↔ lvl = "SL3" ∨ Forall (λ key, level key ≠ lvl) keyList.
Proof.
  unfold persistedEntryForLevel. case_decide as Hlvl.
  - split; [by left|done].
  - rewrite entryForLevel_None. split; [by right|]. by intros [?|?].
Qed.

(** C8, as the code has it.  [decryptItemData] and [encryptItemData] hand the
    data to the key agent under the identifier of the last entry of the key
    file whose level is the one asked for, with the AES128_OpenSSLKey
    parameters, unless that level is SL3, whose entries are skipped when the
    file is read; they fail with NoKeyForLevelError exactly when the level is
    SL3 or no entry of the file has it. *)
Theorem item_data_uses_persisted_key_of_level
    (atob : string → string) (keyList : list EncryptionKeyEntry) (agent : SimpleKeyAgent)
    (lvl data' : string) :
  let vault := {| vaultKeys := readKeyData atob (Fulfilled (Some keyList));
                  keyAgent := agent |} in
  decryptItemData vault lvl data'
  = match persistedEntryForLevel keyList lvl with
    | Some key => decrypt agent (identifier key) data' {| algo := AES128_OpenSSLKey |}
    | None => Rejected (NoKeyForLevelError lvl)
    end
  ∧ encryptItemData vault lvl data'
    = match persistedEntryForLevel keyList lvl with
      | Some key => encrypt agent (identifier key) data' {| algo := AES128_OpenSSLKey |}
      | None => Rejected (NoKeyForLevelError lvl)
      end
  ∧ (∀ key, persistedEntryForLevel keyList lvl = Some key →
            key ∈ keyList ∧ level key = lvl ∧ lvl ≠ "SL3")
  ∧ (persistedEntryForLevel keyList lvl = None
     ↔ lvl = "SL3" ∨ Forall (λ key, level key ≠ lvl) keyList)
  ∧ (∀ lvl', decryptItemData vault lvl data' = Rejected (NoKeyForLevelError lvl')
             ↔ lvl' = lvl ∧ (lvl = "SL3" ∨ Forall (λ key, level key ≠ lvl) keyList))
  ∧ (∀ lvl', encryptItemData vault lvl data' = Rejected (NoKeyForLevelError lvl')
             ↔ lvl' = lvl ∧ (lvl = "SL3" ∨ Forall (λ key, level key ≠ lvl) keyList)).
Proof.
  intros vault.
  destruct (item_data_uses_key_of_level_aux vault _ lvl data' eq_refl) as [Hdec Henc].
  assert (entryForLevel
            (filter (λ item, level item ≠ "SL3")
               (map (λ entry, {| data := atob (data entry);
                                 identifier := identifier entry;
                                 iterations := iterations entry;
                                 level := level entry;
                                 validation := atob (validation entry) |}) keyList)) lvl
          = (λ entry, {| data := atob (data entry);
                         identifier := identifier entry;
                         iterations := iterations entry;
                         level := level entry;
                         validation := atob (validation entry) |})
              <$> persistedEntryForLevel keyList lvl) as Hentry.
  { unfold entryForLevel at 1. rewrite filter_level_loaded. unfold persistedEntryForLevel.
    case_decide; [done|]. unfold entryForLevel.
    change (map ?f ?l) with (f <$> l). by rewrite fmap_last. }
  rewrite Hentry in Hdec, Henc.
  pose proof (persistedEntryForLevel_None keyList lvl) as Hnone.
  assert (∀ key, persistedEntryForLevel keyList lvl = Some key →
                 key ∈ keyList ∧ level key = lvl ∧ lvl ≠ "SL3") as Hsome.
  { intros key. unfold persistedEntryForLevel. case_decide as Hlvl; [done|].
    intros [Hin Hlevel]%entryForLevel_Some. done. }
  rewrite Hdec, Henc.
  destruct (persistedEntryForLevel keyList lvl) as [key|]; simpl.
  - split; [done|]. split; [done|]. split; [done|]. split; [done|].
    split; intros lvl'; split.
    + intros Hrej. by apply agent_never_NoKeyForLevel in Hrej.
    + intros [_ Hall]. by apply Hnone in Hall.
    + intros Hrej. by apply agent_never_NoKeyForLevel in Hrej.
    + intros [_ Hall]. by apply Hnone in Hall.
  - split; [done|]. split; [done|]. split; [done|]. split; [done|].
    split; intros lvl'; split.
    + intros [= ->]. split; [done|]. by apply Hnone.
    + by intros [-> _].
    + intros [= ->]. split; [done|]. by apply Hnone.
    + by intros [-> _].
Qed.

End ItemData.

(** C8, as stated, fails: the key file has an entry of level SL3 and the
    agent holds the key of that entry, yet item data of level SL3 is refused
    with NoKeyForLevelError, while data of level SL5 goes to the agent. *)
Lemma persisted_SL3_entry_is_not_used :
  let vault := {| vaultKeys := readKeyData (λ text, text) (Fulfilled (Some Toy.withUnusedEntry));
                  keyAgent := {| keys := [("id1", "RAWKEY1"); ("id3", "RAWKEY3")] |} |} in
  Exists (λ key, level key = "SL3") Toy.withUnusedEntry
  ∧ decryptItemData (crypto := Crypto.Toy.toy) vault "SL3" "RAWKEY3saltsecret"
    = Rejected (NoKeyForLevelError "SL3")
  ∧ encryptItemData (crypto := Crypto.Toy.toy) vault "SL3" "secret"
    = Rejected (NoKeyForLevelError "SL3")
  ∧ decryptItemData (crypto := Crypto.Toy.toy) vault "SL5" "RAWKEY1saltsecret"
    = Fulfilled "secret".
Proof.
  intros vault. split; [|by vm_compute].
  apply Exists_cons_tl, Exists_cons_hd. reflexivity.
Qed.

(** Entries of level SL3 are dropped when the key data is read, so a vault
    never finds a key for that level. *)
Lemma level_SL3_is_not_loaded `{!CryptoImpl} atob content agent keyEntries data' :
  readKeyData atob content = Fulfilled keyEntries →
  decryptItemData {| vaultKeys := readKeyData atob content; keyAgent := agent |}
                  "SL3" data'
  = Rejected (NoKeyForLevelError "SL3").
Proof.
  intros Hread.
  destruct (item_data_uses_key_of_level_aux
              {| vaultKeys := readKeyData atob content; keyAgent := agent |}
              keyEntries "SL3" data' Hread) as [Hdec Hnone].
  rewrite Hdec. destruct (entryForLevel keyEntries "SL3") as [key|] eqn:Hentry; [|done].
  apply entryForLevel_Some in Hentry as [Hin Hlevel].
  unfold readKeyData in Hread. destruct content as [[keyList|]|]; try done.
  injection Hread as <-. by apply list_elem_of_filter in Hin as [? _].
Qed.

(** ** Listing the items of a vault *)

Lemma vault_listItems_filter `{!CryptoImpl} (entries : list ContentsEntry) :
  listItems (Fulfilled entries)
  = Fulfilled (filter (λ item, isTombstone item = false) (map itemOfEntry entries)).
Proof.
  unfold listItems. f_equal.
  induction entries as [|entry entries IH] using rev_ind; [done|].
  rewrite fold_left_app, map_app, list.filter_app, IH. simpl.
  fold (itemOfEntry entry). rewrite filter_cons, filter_nil.
  destruct (isTombstone (itemOfEntry entry)).
  - rewrite decide_False by done. by rewrite app_nil_r.
  - by rewrite decide_True by done.
Qed.

End VaultSpec.

(** * Properties of the local store *)

Module StoreSpec.

Import LocalStore.

Section Store.
Context {crypto : CryptoImpl} {jsonIndex : Json (gmap string ItemIndexEntry)}
        {jsonRevision : Json ItemRevision} {itemStoreModule : ItemStoreModule}.

(** ** Operations that only read *)

Lemma overviewKey_reads st :
  overviewKey st = (match firstKey st with
                    | Some keyId => Fulfilled keyId
                    | None => Rejected VaultLockedError
                    end, st).
Proof. unfold overviewKey, firstKey. by destruct (Onepass.listKeys _). Qed.

Lemma encrypt_reads {T} `{!Json T} key (data : T) st :
  (encrypt key data st).2 = st.
Proof. done. Qed.

Lemma decrypt_reads {T} `{!Json T} key data st :
  (decrypt (T := T) key data st).2 = st.
Proof.
  unfold decrypt, mbind, Async_bind, andThen.
  destruct (Onepass.decrypt _ _ _ _); [|done]. by destruct (parse _).
Qed.

Lemma decryptNothing_reads {T} `{!Json T} key st :
  (decryptNothing (T := T) key st).2 = st.
Proof.
  unfold decryptNothing, mbind, Async_bind, andThen.
  destruct (Onepass.decryptNothing _ _ _); [|done]. by destruct (parse _).
Qed.

Lemma decryptRead_reads {T} `{!Json T} key data st :
  (decryptRead (T := T) key data st).2 = st.
Proof.
  unfold decryptRead. destruct (encryptedText data);
    [apply decrypt_reads|apply decryptNothing_reads].
Qed.

Lemma getContent_reads item st : (getContent item st).2 = st.
Proof.
  unfold getContent, keyForItem, mbind, Async_bind, andThen.
  rewrite overviewKey_reads. destruct (firstKey st) as [key|]; [|done]. simpl.
  pose proof (decryptRead_reads (T := ItemRevision) key
                (KeyValueStore.entries (itemStore st) !! revisionKey (revision item)) st)
    as Hd.
  unfold KeyValueStore.get.
  destruct (decryptRead key _ st) as [[?|?] ?]; simpl in *; by subst.
Qed.

Lemma item_getContent_reads item st : (item_getContent item st).2 = st.
Proof.
  unfold item_getContent. destruct (content item); [done|]. apply getContent_reads.
Qed.

(** ** The steps of [saveItem] *)

(** What a fulfilled [saveItem] went through. *)
Lemma saveItem_Fulfilled now item source st item' st' :
  saveItem now item source st = (Fulfilled (), item', st') →
  ∃ item0 key content' revision' st2 st3,
    stampOrAssert now item source = Fulfilled item0
    ∧ firstKey st = Some key
    ∧ item_getContent item0 st = (Fulfilled content', st)
    ∧ item' = saved content' item0
    ∧ savedRevision content' item' = Fulfilled revision'
    ∧ indexUpdateQueue_push item' st = (Fulfilled (), st2)
    ∧ itemStoreOp (KeyValueStore.set (revisionKey (revision item'))
         (Encrypted (encryptAgileKeychainItemData
                       (default "" (Onepass.property key (Onepass.keys (keyAgent st))))
                       (stringify revision')))) st2
      = (Fulfilled (), st3)
    ∧ st' = publishItemUpdated item' st3.
Proof.
  unfold saveItem. intros Hsave.
  destruct (stampOrAssert now item source) as [item0|] eqn:Hstamp; [|done].
  unfold keyForItem in Hsave. rewrite overviewKey_reads in Hsave.
  destruct (firstKey st) as [key|] eqn:Hkey; [|done].
  pose proof (item_getContent_reads item0 st) as Hreads.
  destruct (item_getContent item0 st) as [[content'|] st1] eqn:Hcontent; [|done].
  simpl in Hreads. subst st1.
  fold (beforeRevisionId content' item0) in Hsave. fold (saved content' item0) in Hsave.
  destruct (overviewFromItem (saved content' item0)) as [overview|] eqn:Hov; [|done].
  unfold encrypt at 1 in Hsave. unfold Onepass.encrypt in Hsave.
  destruct (Onepass.property key _) as [k|] eqn:Hprop; [|done]. simpl in Hsave.
  destruct (indexUpdateQueue_push (saved content' item0) st) as [indexUpdated st2] eqn:Hpush.
  destruct (itemStoreOp _ st2) as [revisionSaved st3] eqn:Hset.
  destruct indexUpdated as [[]|]; [|done]. destruct revisionSaved as [[]|]; [|done].
  simpl in Hsave. injection Hsave as <- <-.
  eexists item0, key, content', _, st2, st3.
  unfold savedRevision. rewrite Hov, Hprop. simpl.
  split_and!; try reflexivity; done.
Qed.

(** Whatever comes of it, the item keeps the dates it has after the first
    step. *)
Lemma saveItem_dates now item source st :
  let '(r, item', st') := saveItem now item source st in
  match stampOrAssert now item source with
  | Rejected e => r = Rejected e ∧ item' = item ∧ st' = st
  | Fulfilled item0 =>
      updatedAt item' = updatedAt item0 ∧ createdAt item' = createdAt item0
  end.
Proof.
  unfold saveItem. destruct (stampOrAssert now item source); [|done].
  repeat case_match; simplify_eq; done.
Qed.

(** C7.  For a source other than Sync, [saveItem] sets [updatedAt] to the
    current time, and [createdAt] too when the item has none, before anything
    else; for Sync it asserts that both dates are set: when one is missing
    the call fails with an assertion violation, with the item and the store
    untouched, and when both are set the dates stay as they are. *)
Theorem saveItem_stamps_or_asserts (now : Z) (item : Item) (source : ChangeSource)
    (st : Store) :
  let '(r, item', st') := saveItem now item source st in
  (source ≠ Sync →
     updatedAt item' = Some now
     ∧ createdAt item' = Some (default now (createdAt item)))
  ∧ (source = Sync → createdAt item = None ∨ updatedAt item = None →
     r = Rejected AssertionViolation ∧ item' = item ∧ st' = st)
  ∧ (source = Sync → is_Some (createdAt item) → is_Some (updatedAt item) →
     updatedAt item' = updatedAt item ∧ createdAt item' = createdAt item).
Proof.
  pose proof (saveItem_dates now item source st) as Hdates.
  destruct (saveItem now item source st) as [[r item'] st'].
  unfold stampOrAssert in Hdates. split; [|split].
  - intros Hsource. rewrite decide_True in Hdates by done.
    destruct Hdates as [-> ->]. simpl. by destruct (createdAt item).
  - intros -> Hmissing. rewrite decide_False in Hdates by (by intros []).
    destruct Hmissing as [Hc|Hu].
    + by rewrite Hc in Hdates.
    + rewrite Hu in Hdates. by destruct (createdAt item).
  - intros -> [c Hc] [u Hu]. rewrite decide_False in Hdates by (by intros []).
    by rewrite Hc, Hu in Hdates.
Qed.

(** ** The chain of revisions *)

Lemma stampOrAssert_revision now item source item0 :
  stampOrAssert now item source = Fulfilled item0 →
  revision item0 = revision item ∧ uuid item0 = uuid item
  ∧ content item0 = content item.
Proof.
  unfold stampOrAssert. case_decide; [by intros [= <-]|].
  destruct (createdAt item), (updatedAt item); by intros [= <-].
Qed.

Lemma itemStore_set_Fulfilled key value st st' :
  itemStoreOp (KeyValueStore.set key value) st = (Fulfilled (), st') →
  KeyValueStore.failing (itemStore st) key = false
  ∧ st' = withItemStore
            {| KeyValueStore.entries := <[key := value]> (KeyValueStore.entries (itemStore st));
               KeyValueStore.failing := KeyValueStore.failing (itemStore st) |} st.
Proof.
  unfold itemStoreOp, KeyValueStore.set.
  destruct (KeyValueStore.failing (itemStore st) key); [done|]. by intros [= <-].
Qed.

Lemma itemStore_set_Rejected key value st e st' :
  itemStoreOp (KeyValueStore.set key value) st = (Rejected e, st') →
  KeyValueStore.failing (itemStore st) key = true ∧ st' = st.
Proof.
  unfold itemStoreOp, KeyValueStore.set.
  destruct (KeyValueStore.failing (itemStore st) key); [|done].
  intros [= <- <-]. by destruct st.
Qed.

(** One fulfilled save: the parent is the revision the item had, the new id
    is computed from the item with that parent already set, and the revision
    record stored under the new id carries the same parent. *)
Lemma saveItem_parent now item source st item' st' :
  saveItem now item source st = (Fulfilled (), item', st') →
  parentRevision item' = revision item
  ∧ (∃ content' before,
       revision item' = Some (generateRevisionId before content')
       ∧ parentRevision before = revision item
       ∧ revision before = revision item)
  ∧ (∃ k revision',
       KeyValueStore.entries (itemStore st') !! revisionKey (revision item')
       = Some (Encrypted (encryptAgileKeychainItemData k (stringify revision')))
       ∧ rev_parentRevision revision' = revision item
       ∧ ov_parentRevision (rev_overview revision') = revision item
       ∧ ov_revision (rev_overview revision') = revision item').
Proof.
  intros Hsave.
  apply saveItem_Fulfilled in Hsave
    as (item0 & key & content' & revision' & st2 & st3 & Hstamp & _ & _ & -> &
        Hrev & _ & Hset & ->).
  apply stampOrAssert_revision in Hstamp as (Hr & _ & _).
  split; [done|]. split.
  - exists content', (beforeRevisionId content' item0). by rewrite <-Hr.
  - apply itemStore_set_Fulfilled in Hset as [_ ->].
    eexists _, revision'. split; [apply lookup_insert_eq|].
    unfold savedRevision in Hrev.
    destruct (overviewFromItem _) as [overview|] eqn:Hov; [|done].
    injection Hrev as <-. simpl.
    unfold overviewFromItem in Hov. simpl in Hov.
    destruct (updatedAt item0), (createdAt item0); try done.
    by injection Hov as <-.
Qed.

Lemma applyEdit_revision edit item : revision (applyEdit edit item) = revision item.
Proof. done. Qed.

(** ** The index update and the write of the revision *)

Lemma sameSurroundings_refl st : sameSurroundings st st.
Proof. by repeat split. Qed.

Lemma sameSurroundings_trans st1 st2 st3 :
  sameSurroundings st1 st2 → sameSurroundings st2 st3 → sameSurroundings st1 st3.
Proof.
  intros (?&?&?&?&?) (?&?&?&?&?). repeat split; congruence.
Qed.

Lemma firstKey_property st key :
  firstKey st = Some key →
  ∃ k, Onepass.property key (Onepass.keys (keyAgent st)) = Some k.
Proof.
  unfold firstKey, Onepass.listKeys.
  destruct (Onepass.keys (keyAgent st)) as [|[i k] ks]; [done|].
  simpl. intros [= ->]. exists k. by rewrite decide_True.
Qed.

Lemma writeItemIndex_cases index st :
  writeItemIndex index st =
  match firstKey st with
  | None => (Rejected VaultLockedError, st)
  | Some key =>
      itemStoreOp (KeyValueStore.set "index"
        (Encrypted (encryptAgileKeychainItemData
                      (default "" (Onepass.property key (Onepass.keys (keyAgent st))))
                      (stringify index)))) st
  end.
Proof.
  unfold writeItemIndex, mbind, Async_bind, andThen. rewrite overviewKey_reads.
  destruct (firstKey st) as [key|] eqn:Hkey; [|done].
  destruct (firstKey_property _ _ Hkey) as [k Hk].
  unfold encrypt, Onepass.encrypt. by rewrite Hk.
Qed.

Lemma readItemIndex_reads st : (readItemIndex st).2 = st.
Proof.
  unfold readItemIndex, mbind, Async_bind, andThen. rewrite overviewKey_reads.
  destruct (firstKey st) as [key|]; [|done]. simpl.
  pose proof (decryptRead_reads (T := gmap string ItemIndexEntry) key
                (KeyValueStore.entries (itemStore st) !! "index") st) as Hd.
  destruct (KeyValueStore.entries (itemStore st) !! "index") as [[data'|]|]; try done.
  by destruct data'.
Qed.

Lemma itemIndex_get_state st :
  match itemIndex_get st with
  | (Fulfilled index, st') => st' = withItemIndex (Some index) st
  | (Rejected _, st') => st' = st
  end.
Proof.
  unfold itemIndex_get. destruct (itemIndex st) as [cached|] eqn:Hc.
  - destruct st; simpl in *; by subst.
  - pose proof (readItemIndex_reads st) as Hr.
    destruct (readItemIndex st) as [[loaded|] st']; simpl in *; by subst.
Qed.

Lemma getLastSyncEntries_one id st :
  getLastSyncEntries [id] st
  = (Fulfilled [KeyValueStore.entries (itemStore st) !! ("lastSynced/" +:+ id)], st).
Proof. reflexivity. Qed.

(** The index update of one item, case by case. *)
Lemma push_cases item st :
  indexUpdateQueue_push item st =
  match itemIndex_get st with
  | (Rejected e, _) => (Rejected e, st)
  | (Fulfilled overviewMap, _) =>
      match overviewFromItem item with
      | Rejected e => (Rejected e, withItemIndex (Some overviewMap) st)
      | Fulfilled overview =>
          let entry :=
            {| entry_overview := overview;
               lastSyncedAt := lastSyncTime (KeyValueStore.entries (itemStore st)
                                               !! ("lastSynced/" +:+ uuid item)) |} in
          if decide (lastSyncedAt entry = Null)
          then (Rejected AssertionViolation, withItemIndex (Some overviewMap) st)
          else
            let index := <[uuid item := entry]> overviewMap in
            match firstKey st with
            | None => (Rejected VaultLockedError, withItemIndex (Some index) st)
            | Some key =>
                if KeyValueStore.failing (itemStore st) "index"
                then (Rejected (StorageError "index"), withItemIndex (Some index) st)
                else
                  (Fulfilled (),
                   withItemIndex (Some index)
                     (withItemStore
                        {| KeyValueStore.entries :=
                             <["index" := Encrypted
                                 (encryptAgileKeychainItemData
                                    (default "" (Onepass.property key
                                                   (Onepass.keys (keyAgent st))))
                                    (stringify index))]>
                               (KeyValueStore.entries (itemStore st));
                           KeyValueStore.failing := KeyValueStore.failing (itemStore st) |}
                        st))
            end
      end
  end.
Proof.
  unfold indexUpdateQueue_push, updateIndex.
  pose proof (itemIndex_get_state st) as Hget.
  destruct (itemIndex_get st) as [[overviewMap|e] st1]; subst st1.
  - simpl. destruct (overviewFromItem item) as [overview|] eqn:Hov; simpl.
    + case_decide as Hnull; simpl.
      * done.
      * unfold itemIndex_set. rewrite writeItemIndex_cases.
        unfold firstKey, itemStoreOp, KeyValueStore.set. simpl.
        destruct (head (Onepass.listKeys (keyAgent st))); [|done].
        by destruct (KeyValueStore.failing (itemStore st) "index").
    + done.
  - done.
Qed.

Lemma itemIndex_get_surroundings st :
  sameSurroundings st (itemIndex_get st).2.
Proof.
  pose proof (itemIndex_get_state st) as Hget.
  destruct (itemIndex_get st) as [[?|?] st']; subst; by repeat split.
Qed.

Lemma push_surroundings item st :
  sameSurroundings st (indexUpdateQueue_push item st).2.
Proof.
  rewrite push_cases.
  destruct (itemIndex_get st) as [[overviewMap|e] st1]; [|by repeat split].
  destruct (overviewFromItem item); [|by repeat split]. simpl.
  case_decide; [by repeat split|].
  destruct (firstKey st); [|by repeat split].
  destruct (KeyValueStore.failing (itemStore st) "index"); by repeat split.
Qed.

Lemma itemStore_set_surroundings key value st :
  sameSurroundings st (itemStoreOp (KeyValueStore.set key value) st).2.
Proof.
  unfold itemStoreOp, KeyValueStore.set.
  destruct (KeyValueStore.failing (itemStore st) key); by repeat split.
Qed.

(** A rejected [saveItem] publishes nothing. *)
Lemma saveItem_Rejected_publishes_nothing now item source st e item' st' :
  saveItem now item source st = (Rejected e, item', st') →
  onItemUpdated st' = onItemUpdated st.
Proof.
  unfold saveItem, keyForItem. rewrite overviewKey_reads.
  destruct (stampOrAssert now item source) as [item0|]; [|by intros [= _ _ <-]].
  destruct (firstKey st) as [key|]; [|by intros [= _ _ <-]].
  pose proof (item_getContent_reads item0 st) as Hreads.
  destruct (item_getContent item0 st) as [[content'|] st1]; simpl in Hreads; subst st1;
    [|by intros [= _ _ <-]].
  destruct (overviewFromItem _) as [a|]; [|by intros [= _ _ <-]].
  destruct (encrypt key _ st) as [[revisionData|] st1] eqn:Henc;
    pose proof (encrypt_reads key
      {| rev_parentRevision :=
           parentRevision (setRevision
             (Some (generateRevisionId
                (setParentRevision (revision (updateOverviewFromContent content' item0))
                   (updateOverviewFromContent content' item0)) content'))
             (setParentRevision (revision (updateOverviewFromContent content' item0))
                (updateOverviewFromContent content' item0)));
         rev_overview := a; rev_content := content' |} st) as Hst;
    rewrite Henc in Hst; simpl in Hst; subst st1; [|by intros [= _ _ <-]].
  pose proof (push_surroundings
    (setRevision
       (Some (generateRevisionId
          (setParentRevision (revision (updateOverviewFromContent content' item0))
             (updateOverviewFromContent content' item0)) content'))
       (setParentRevision (revision (updateOverviewFromContent content' item0))
          (updateOverviewFromContent content' item0))) st) as Hpush.
  destruct (indexUpdateQueue_push _ st) as [indexUpdated st2]. simpl in Hpush.
  match goal with
  | |- context [itemStoreOp (KeyValueStore.set ?k ?v) st2] =>
      pose proof (itemStore_set_surroundings k v st2) as Hset;
      destruct (itemStoreOp (KeyValueStore.set k v) st2) as [revisionSaved st3]
  end.
  simpl in Hset.
  destruct (sameSurroundings_trans _ _ _ Hpush Hset) as (_ & _ & Hpub & _).
  destruct indexUpdated as [[]|], revisionSaved as [[]|]; simpl;
    intros [= <- <- <-]; done.
Qed.

Lemma revisionKey_not_index rev : revisionKey rev ≠ "index".
Proof. unfold revisionKey. by rewrite VaultSpec.string_app_cons. Qed.

(** A fulfilled index update of one item: the cached index and the stored
    index both hold the item's overview. *)
Lemma push_Fulfilled item st st2 :
  indexUpdateQueue_push item st = (Fulfilled (), st2) →
  KeyValueStore.failing (itemStore st) "index" = false
  ∧ ∃ index entry k,
      itemIndex st2 = Some index
      ∧ index !! uuid item = Some entry
      ∧ overviewFromItem item = Fulfilled (entry_overview entry)
      ∧ KeyValueStore.entries (itemStore st2) !! "index"
        = Some (Encrypted (encryptAgileKeychainItemData k (stringify index))).
Proof.
  rewrite push_cases.
  destruct (itemIndex_get st) as [[overviewMap|e] st1]; [|done].
  destruct (overviewFromItem item) as [overview|]; [|done]. simpl.
  case_decide; [done|]. destruct (firstKey st) as [key|]; [|done].
  destruct (KeyValueStore.failing (itemStore st) "index"); [done|].
  intros [= <-]. split; [done|]. eexists _, _, _. simpl.
  split; [done|]. split; [apply lookup_insert_eq|]. split; [done|].
  apply lookup_insert_eq.
Qed.

(** C5.  The promise of [saveItem] is fulfilled only when the index update
    and the write of the encrypted revision under 'revisions/<new id>' were
    both fulfilled: the store then holds both, and the item is published on
    [onItemUpdated].  If either is rejected (as when the storage refuses the
    key "index" or the revision's key) the promise is rejected, and a
    rejected [saveItem] publishes nothing. *)
Theorem saveItem_resolves_after_both_writes (now : Z) (item : Item)
    (source : ChangeSource) (st : Store) :
  let '(r, item', st') := saveItem now item source st in
  (r = Fulfilled () →
     (∃ st2 st3 revisionData,
        indexUpdateQueue_push item' st = (Fulfilled (), st2)
        ∧ itemStoreOp (KeyValueStore.set (revisionKey (revision item'))
                                         (Encrypted revisionData)) st2
          = (Fulfilled (), st3)
        ∧ st' = publishItemUpdated item' st3)
     ∧ KeyValueStore.failing (itemStore st) "index" = false
     ∧ KeyValueStore.failing (itemStore st) (revisionKey (revision item')) = false
     ∧ (∃ k content' revision',
          savedRevision content' item' = Fulfilled revision'
          ∧ KeyValueStore.entries (itemStore st') !! revisionKey (revision item')
            = Some (Encrypted (encryptAgileKeychainItemData k (stringify revision'))))
     ∧ (∃ index entry k,
          itemIndex st' = Some index
          ∧ index !! uuid item' = Some entry
          ∧ overviewFromItem item' = Fulfilled (entry_overview entry)
          ∧ KeyValueStore.entries (itemStore st') !! "index"
            = Some (Encrypted (encryptAgileKeychainItemData k (stringify index))))
     ∧ onItemUpdated st' = onItemUpdated st ++ [item'])
  ∧ (∀ e, r = Rejected e → onItemUpdated st' = onItemUpdated st).
Proof.
  destruct (saveItem now item source st) as [[r item'] st'] eqn:Hsave.
  split.
  - intros ->.
    apply saveItem_Fulfilled in Hsave
      as (item0 & key & content' & revision' & st2 & st3 & _ & _ & _ & Hitem &
          Hrev & Hpush & Hset & ->).
    pose proof (push_surroundings item' st) as Hsur. rewrite Hpush in Hsur.
    destruct Hsur as (_ & _ & Hpub & _ & Hfail). simpl in Hpub, Hfail.
    pose proof Hset as Hset'.
    apply itemStore_set_Fulfilled in Hset' as [Hok ->].
    apply push_Fulfilled in Hpush as Hidx.
    destruct Hidx as (Hindex_ok & index & entry & k & Hcache & Hentry & Hov & Hstored).
    split; [by eexists st2, _, _|]. split; [done|].
    split; [by rewrite <-Hfail|]. split; [|split].
    + eexists _, content', revision'. split; [done|]. simpl. apply lookup_insert_eq.
    + exists index, entry, k. simpl. split; [done|]. split; [done|]. split; [done|].
      rewrite lookup_insert_ne; [done|]. apply revisionKey_not_index.
    + simpl. by rewrite Hpub.
  - intros e ->. by apply saveItem_Rejected_publishes_nothing in Hsave.
Qed.

(** [saveItem] is fulfilled when the dates are there for a sync, the content
    is on the item, the agent holds a key, the index can be read, the storage
    rejects nothing and no null was stored as the item's last sync time. *)
Lemma saveItem_succeeds now item source st content' key :
  (source = Sync → is_Some (createdAt item) ∧ is_Some (updatedAt item)) →
  content item = Some content' →
  firstKey st = Some key →
  (∀ k, KeyValueStore.failing (itemStore st) k = false) →
  isFulfilled (itemIndex_get st).1 = true →
  lastSyncTime (KeyValueStore.entries (itemStore st) !! ("lastSynced/" +:+ uuid item))
    ≠ Null →
  (saveItem now item source st).1.1 = Fulfilled ().
Proof.
  intros Hdates Hcontent Hkey Hok Hindex Hsync.
  assert (∃ item0 u c, stampOrAssert now item source = Fulfilled item0
                       ∧ updatedAt item0 = Some u ∧ createdAt item0 = Some c
                       ∧ content item0 = Some content' ∧ uuid item0 = uuid item)
    as (item0 & u & c & Hstamp & Hu & Hc & Hcontent0 & Huuid).
  { unfold stampOrAssert. case_decide as Hsource.
    - eexists _, now, (default now (createdAt item)). split; [done|]. simpl.
      by destruct (createdAt item).
    - destruct (Hdates Hsource) as [[c Hc] [u Hu]].
      exists item, u, c. by rewrite Hc, Hu. }
  unfold saveItem, keyForItem. rewrite Hstamp, overviewKey_reads, Hkey.
  unfold item_getContent. rewrite Hcontent0. simpl.
  unfold overviewFromItem at 1. simpl. rewrite Hu, Hc.
  destruct (firstKey_property _ _ Hkey) as [k Hk].
  unfold Onepass.encrypt. rewrite Hk. simpl.
  rewrite push_cases.
  destruct (itemIndex_get st) as [[overviewMap|] st1]; [|done].
  unfold overviewFromItem. simpl. rewrite Hu, Hc, Huuid. simpl.
  rewrite decide_False by done. rewrite Hkey, Hok.
  unfold itemStoreOp, KeyValueStore.set. simpl. by rewrite Hok.
Qed.

(** ** Revision ids *)

Lemma saved_revisionInput content' item0 revision' :
  savedRevision content' (saved content' item0) = Fulfilled revision' →
  ∃ input, revisionInput content' item0 = Fulfilled input.
Proof.
  unfold savedRevision, revisionInput, overviewFromItem. simpl.
  destruct (updatedAt item0), (createdAt item0); try done. by eexists.
Qed.

(** C3.  The revision id that a fulfilled [saveItem] gives the item is
    [generateRevisionId] of the item as it stands then (dates stamped or
    checked, overview brought up to date, parent set) and of the content.
    Saving the same item with the same content from Sync, which leaves
    [updatedAt] alone, gives the same id whatever the store and the time;
    and under the law of [generateRevisionId], two fulfilled saves get the
    same id exactly when the overviews and the contents they were computed
    from are the same. *)
Theorem revision_id_deterministic :
  (∀ now1 now2 item st1 st2 content' item1' st1' item2' st2',
     content item = Some content' →
     saveItem now1 item Sync st1 = (Fulfilled (), item1', st1') →
     saveItem now2 item Sync st2 = (Fulfilled (), item2', st2') →
     revision item1' = revision item2')
  ∧ (∀ now1 item1 source1 st1 item1' st1' now2 item2 source2 st2 item2' st2',
       saveItem now1 item1 source1 st1 = (Fulfilled (), item1', st1') →
       saveItem now2 item2 source2 st2 = (Fulfilled (), item2', st2') →
       ∃ item01 content1 input1 item02 content2 input2,
         stampOrAssert now1 item1 source1 = Fulfilled item01
         ∧ item_getContent item01 st1 = (Fulfilled content1, st1)
         ∧ revisionInput content1 item01 = Fulfilled input1
         ∧ revision item1'
           = Some (generateRevisionId (beforeRevisionId content1 item01) content1)
         ∧ stampOrAssert now2 item2 source2 = Fulfilled item02
         ∧ item_getContent item02 st2 = (Fulfilled content2, st2)
         ∧ revisionInput content2 item02 = Fulfilled input2
         ∧ revision item2'
           = Some (generateRevisionId (beforeRevisionId content2 item02) content2)
         ∧ (revisionIdLaw →
            (revision item1' = revision item2'
             ↔ input1 = input2 ∧ content1 = content2))).
Proof.
  split.
  - intros now1 now2 item st1 st2 content' item1' st1' item2' st2' Hcontent Hs1 Hs2.
    apply saveItem_Fulfilled in Hs1
      as (item01 & _ & content1 & _ & _ & _ & Hstamp1 & _ & Hc1 & -> & _).
    apply saveItem_Fulfilled in Hs2
      as (item02 & _ & content2 & _ & _ & _ & Hstamp2 & _ & Hc2 & -> & _).
    unfold stampOrAssert in Hstamp1, Hstamp2.
    rewrite decide_False in Hstamp1, Hstamp2 by (by intros []).
    destruct (createdAt item), (updatedAt item); try done.
    injection Hstamp1 as <-. injection Hstamp2 as <-.
    unfold item_getContent in Hc1, Hc2. rewrite Hcontent in Hc1, Hc2.
    injection Hc1 as <-. injection Hc2 as <-. done.
  - intros now1 item1 source1 st1 item1' st1' now2 item2 source2 st2 item2' st2' Hs1 Hs2.
    apply saveItem_Fulfilled in Hs1
      as (item01 & _ & content1 & rev1 & _ & _ & Hstamp1 & _ & Hc1 & -> & Hrev1 & _).
    apply saveItem_Fulfilled in Hs2
      as (item02 & _ & content2 & rev2 & _ & _ & Hstamp2 & _ & Hc2 & -> & Hrev2 & _).
    apply saved_revisionInput in Hrev1 as [input1 Hin1].
    apply saved_revisionInput in Hrev2 as [input2 Hin2].
    exists item01, content1, input1, item02, content2, input2.
    split_and!; try done.
    intros Hlaw. simpl. rewrite <-(Hlaw _ _ _ _ _ _ Hin1 Hin2). split; congruence.
Qed.

(** ** Locking and the cached index *)

Lemma addKeys_stores keys st :
  itemIndex (addKeys keys st) = itemIndex st
  ∧ itemStore (addKeys keys st) = itemStore st
  ∧ keyStore (addKeys keys st) = keyStore st.
Proof.
  revert st. induction keys as [|[id' key] keys IH]; intros st; [done|].
  simpl. destruct (IH (addKey id' key st)) as (-> & -> & ->). done.
Qed.

Lemma addKeys_agent keys st cached :
  keyAgent (addKeys keys (withItemIndex cached st)) = keyAgent (addKeys keys st).
Proof.
  revert st. induction keys as [|[id' key] keys IH]; intros st; [done|].
  simpl. apply (IH (addKey id' key st)).
Qed.

Lemma listItems_loads opts st :
  itemIndex st = None →
  listItems opts st =
  match readItemIndex st with
  | (Fulfilled index, _) => (Fulfilled (itemsOf opts index), withItemIndex (Some index) st)
  | (Rejected e, _) => (Rejected e, st)
  end.
Proof.
  intros Hnone. unfold listItems, mbind, Async_bind, andThen, itemIndex_get.
  rewrite Hnone. pose proof (readItemIndex_reads st) as Hr.
  destruct (readItemIndex st) as [[index|] st']; simpl in Hr; by subst.
Qed.

Lemma readItemIndex_ignores_cache st cached :
  (readItemIndex (withItemIndex cached st)).1 = (readItemIndex st).1.
Proof.
  unfold readItemIndex, mbind, Async_bind, andThen. rewrite !overviewKey_reads.
  unfold firstKey. simpl. destruct (head _) as [key|]; [|done]. simpl.
  destruct (KeyValueStore.entries (itemStore st) !! "index") as [[data'|]|]; try done.
  - destruct data'; [done|].
    unfold decryptRead, decrypt, mbind, Async_bind, andThen. simpl.
    destruct (Onepass.decrypt _ _ _ _); [|done]. by destruct (parse _).
  - unfold decryptRead, decryptNothing, mbind, Async_bind, andThen. simpl.
    destruct (Onepass.decryptNothing _ _ _); [|done]. by destruct (parse _).
Qed.

Lemma readItemIndex_cases st :
  readItemIndex st =
  (match firstKey st with
   | None => Rejected VaultLockedError
   | Some key =>
       match KeyValueStore.entries (itemStore st) !! "index" with
       | None | Some (Encrypted "") => Fulfilled ∅
       | Some (Encrypted data') =>
           match parse (decryptAgileKeychainItemData
                          (default "" (Onepass.property key (Onepass.keys (keyAgent st))))
                          data') with
           | Some index => Fulfilled index
           | None => Rejected SchemaError
           end
       | Some (LastSynced _) => (decryptNothing key st).1
       end
   end, st).
Proof.
  unfold readItemIndex, mbind, Async_bind, andThen. rewrite overviewKey_reads.
  destruct (firstKey st) as [key|] eqn:Hkey; [|done]. simpl.
  destruct (firstKey_property _ _ Hkey) as [k Hk].
  destruct (KeyValueStore.entries (itemStore st) !! "index") as [[data'|]|]; try done.
  - destruct data' as [|c data']; [done|].
    unfold decryptRead, decrypt, mbind, Async_bind, andThen, Onepass.decrypt.
    simpl. rewrite Hk. simpl. by destruct (parse _).
  - unfold decryptRead. simpl.
    pose proof (decryptNothing_reads (T := gmap string ItemIndexEntry) key st) as Hd.
    destruct (decryptNothing key st) as [? ?]. simpl in *. by subst.
Qed.

(** C6.  The lock event clears the cached index: after [forgetKeys] the
    store holds no cached index, [listItems] on the locked store is rejected
    rather than answered from memory, and once keys are back [listItems]
    runs the loader, [readItemIndex], on what is stored: it lists the stored
    index, decrypted and parsed again; its answer is the same whatever was
    cached before the lock. *)
Theorem lock_invalidates_index_cache (st : Store) :
  itemIndex (forgetKeys st) = None
  ∧ (∀ opts, listItems opts (forgetKeys st)
             = (Rejected VaultLockedError, forgetKeys st))
  ∧ (∀ opts keys,
       let st' := addKeys keys (forgetKeys st) in
       listItems opts st' =
       match readItemIndex st' with
       | (Fulfilled index, _) =>
           (Fulfilled (itemsOf opts index), withItemIndex (Some index) st')
       | (Rejected e, _) => (Rejected e, st')
       end)
  ∧ (∀ opts keys key k data' index,
       let st' := addKeys keys (forgetKeys st) in
       firstKey st' = Some key →
       Onepass.property key (Onepass.keys (keyAgent st')) = Some k →
       KeyValueStore.entries (itemStore st) !! "index" = Some (Encrypted data') →
       data' ≠ "" →
       parse (decryptAgileKeychainItemData k data') = Some index →
       listItems opts st'
       = (Fulfilled (itemsOf opts index), withItemIndex (Some index) st'))
  ∧ (∀ opts keys cached,
       listItems opts (addKeys keys (forgetKeys (withItemIndex cached st)))
       = listItems opts (addKeys keys (forgetKeys st))).
Proof.
  assert (∀ opts keys,
            let st' := addKeys keys (forgetKeys st) in
            listItems opts st' =
            match readItemIndex st' with
            | (Fulfilled index, _) =>
                (Fulfilled (itemsOf opts index), withItemIndex (Some index) st')
            | (Rejected e, _) => (Rejected e, st')
            end) as Hloads.
  { intros opts keys st'. apply listItems_loads.
    unfold st'. by rewrite (proj1 (addKeys_stores _ _)). }
  split; [done|]. split; [|split; [|split]].
  - intros opts. rewrite listItems_loads by done.
    unfold readItemIndex, mbind, Async_bind, andThen. by rewrite overviewKey_reads.
  - exact Hloads.
  - intros opts keys key k data' index st' Hkey Hk Hstored Hdata Hparse.
    subst st'. rewrite (Hloads opts keys), readItemIndex_cases, Hkey, Hk.
    rewrite (proj1 (proj2 (addKeys_stores _ _))). simpl.
    rewrite Hstored. destruct data' as [|c data']; [done|]. simpl in *.
    by rewrite Hparse.
  - done.
Qed.

(** ** Listing and tombstones *)

Lemma itemsOf_filter opts index :
  itemsOf opts index
  = filter (λ item, isTombstone item = false ∨ includeTombstones opts = Some true)
           (map itemOfIndexEntry (map_to_list index)).
Proof.
  unfold itemsOf. generalize (map_to_list index). intros entries.
  induction entries as [|[key overview] entries IH] using rev_ind; [done|].
  rewrite fold_left_app, map_app, list.filter_app, IH. simpl.
  rewrite filter_cons, filter_nil.
  change (itemFromOverview key (entry_overview overview))
    with (itemOfIndexEntry (key, overview)).
  destruct (isTombstone (itemOfIndexEntry (key, overview))) eqn:Ht; simpl.
  - destruct (includeTombstones opts) as [[]|]; simpl; by rewrite ?app_nil_r.
  - done.
Qed.

Lemma listItems_Fulfilled opts st items st' :
  listItems opts st = (Fulfilled items, st') →
  ∃ index, items = itemsOf opts index ∧ itemIndex st' = Some index.
Proof.
  unfold listItems, mbind, Async_bind, andThen.
  pose proof (itemIndex_get_state st) as Hget.
  destruct (itemIndex_get st) as [[index|] st1]; [|done].
  intros [= <- <-]. exists index. by subst.
Qed.

(** C9.  [Store.listItems] returns an item whose type is 'system.Tombstone'
    only when [opts.includeTombstones] is true: with the default options no
    tombstone of the index is returned and every other item is; and
    [Vault.listItems] never returns a tombstone. *)
Theorem listItems_filters_tombstones :
  (∀ opts st items st' item,
     listItems opts st = (Fulfilled items, st') →
     item ∈ items → isTombstone item = true → includeTombstones opts = Some true)
  ∧ (∀ opts st items st',
       listItems opts st = (Fulfilled items, st') →
       ∃ index,
         itemIndex st' = Some index
         ∧ items = filter (λ item, isTombstone item = false
                                   ∨ includeTombstones opts = Some true)
                          (map itemOfIndexEntry (map_to_list index)))
  ∧ (∀ st items st' item,
       listItems noOptions st = (Fulfilled items, st') →
       item ∈ items → isTombstone item = false)
  ∧ (∀ content' items item,
       Onepass.listItems content' = Fulfilled items →
       item ∈ items → Onepass.isTombstone item = false)
  ∧ (∀ entries,
       Onepass.listItems (Fulfilled entries)
       = Fulfilled (filter (λ item, Onepass.isTombstone item = false)
                           (map Onepass.itemOfEntry entries))).
Proof.
  split; [|split; [|split; [|split]]].
  - intros opts st items st' item Hlist Hin Htomb.
    apply listItems_Fulfilled in Hlist as (index & -> & _).
    rewrite itemsOf_filter in Hin. apply list_elem_of_filter in Hin as [[?|?] _]; congruence.
  - intros opts st items st' Hlist.
    apply listItems_Fulfilled in Hlist as (index & -> & Hidx).
    exists index. by rewrite itemsOf_filter.
  - intros st items st' item Hlist Hin.
    apply listItems_Fulfilled in Hlist as (index & -> & _).
    rewrite itemsOf_filter in Hin. apply list_elem_of_filter in Hin as [[?|?] _]; done.
  - intros [entries|] items item; [|done].
    rewrite VaultSpec.vault_listItems_filter. intros [= <-] Hin.
    by apply list_elem_of_filter in Hin as [? _].
  - intros entries. apply VaultSpec.vault_listItems_filter.
Qed.

(** ** Saving the keys *)

Lemma withKeyStore_same st :
  withKeyStore {| KeyValueStore.entries := KeyValueStore.entries (keyStore st);
                  KeyValueStore.failing := KeyValueStore.failing (keyStore st) |} st = st.
Proof. destruct st as [? [] ? ? ? ?]. done. Qed.

Lemma startAll_cons {A} (op : Async A) ops st :
  startAll (op :: ops) st
  = let '(o, st') := op st in
    let '(os, st'') := startAll ops st' in
    (o :: os, st'').
Proof. reflexivity. Qed.

Lemma startAll_removes ids st l :
  Q.all (startAll (map (λ id', keyStoreOp (KeyValueStore.remove id')) ids) st).1
  = Fulfilled l →
  (startAll (map (λ id', keyStoreOp (KeyValueStore.remove id')) ids) st).2
  = withKeyStore
      {| KeyValueStore.entries := removed ids (KeyValueStore.entries (keyStore st));
         KeyValueStore.failing := KeyValueStore.failing (keyStore st) |} st.
Proof.
  revert st l. induction ids as [|id' ids IH]; intros st l.
  - intros _. simpl. by rewrite withKeyStore_same.
  - rewrite map_cons, startAll_cons.
    destruct (keyStoreOp (KeyValueStore.remove id') st) as [o st1] eqn:Hop.
    specialize (IH st1). destruct (startAll _ st1) as [os st2]. simpl in *.
    destruct o as [[]|]; [|done]. destruct (Q.all os) as [l'|]; [|done].
    intros _. rewrite (IH l' eq_refl).
    unfold keyStoreOp, KeyValueStore.remove in Hop.
    destruct (KeyValueStore.failing (keyStore st) id'); [done|].
    by injection Hop as <-.
Qed.

Lemma startAll_sets (kvs : list (string * KeyStoreValue)) st l :
  Q.all (startAll (map (λ kv, keyStoreOp (KeyValueStore.set kv.1 kv.2)) kvs) st).1
  = Fulfilled l →
  (startAll (map (λ kv, keyStoreOp (KeyValueStore.set kv.1 kv.2)) kvs) st).2
  = withKeyStore
      {| KeyValueStore.entries := stored kvs (KeyValueStore.entries (keyStore st));
         KeyValueStore.failing := KeyValueStore.failing (keyStore st) |} st.
Proof.
  revert st l. induction kvs as [|[k v] kvs IH]; intros st l.
  - intros _. simpl. by rewrite withKeyStore_same.
  - rewrite map_cons, startAll_cons.
    destruct (keyStoreOp (KeyValueStore.set (k, v).1 (k, v).2) st) as [o st1] eqn:Hop.
    specialize (IH st1). destruct (startAll _ st1) as [os st2]. simpl in *.
    destruct o as [[]|]; [|done]. destruct (Q.all os) as [l'|]; [|done].
    intros _. rewrite (IH l' eq_refl).
    unfold keyStoreOp, KeyValueStore.set in Hop.
    destruct (KeyValueStore.failing (keyStore st) k); [done|].
    by injection Hop as <-.
Qed.

Lemma lookup_removed {V} ids (m : gmap string V) k :
  removed ids m !! k = if decide (k ∈ ids) then None else m !! k.
Proof.
  unfold removed. revert m. induction ids as [|id' ids IH]; intros m.
  - destruct (decide (k ∈ [])) as [Hin|]; [by apply elem_of_nil in Hin|done].
  - change (fold_left ?f (id' :: ids) m) with (fold_left f ids (delete id' m)).
    rewrite IH.
    destruct (decide (k ∈ id' :: ids)) as [Hin|Hnin];
      destruct (decide (k ∈ ids)) as [Hin'|Hnin']; try done.
    + apply elem_of_cons in Hin as [->|?]; [|done]. apply lookup_delete_eq.
    + exfalso. apply Hnin, elem_of_cons. by right.
    + apply lookup_delete_ne. intros ->. apply Hnin, elem_of_cons. by left.
Qed.

Lemma lookup_stored {V} (kvs : list (string * V)) (m : gmap string V) k :
  stored kvs m !! k
  = match list.last (filter (λ kv, kv.1 = k) kvs) with
    | Some kv => Some kv.2
    | None => m !! k
    end.
Proof.
  unfold stored. induction kvs as [|[k' v] kvs IH] using rev_ind; [done|].
  rewrite fold_left_app, list.filter_app. simpl. rewrite filter_cons, filter_nil. simpl.
  destruct (decide (k' = k)) as [->|Hne].
  - by rewrite last_snoc, lookup_insert_eq.
  - rewrite app_nil_r, lookup_insert_ne by done. apply IH.
Qed.

Lemma filter_keys_fst (keys : list Onepass.EncryptionKeyEntry) k :
  filter (λ kv : string * KeyStoreValue, kv.1 = k)
         (map (λ key, (KEY_ID_PREFIX +:+ Onepass.identifier key, KeyValue key)) keys)
  = map (λ key, (KEY_ID_PREFIX +:+ Onepass.identifier key, KeyValue key))
        (filter (λ key, KEY_ID_PREFIX +:+ Onepass.identifier key = k) keys).
Proof.
  induction keys as [|key keys IH]; [done|].
  simpl. rewrite !filter_cons. simpl. rewrite IH. by case_decide.
Qed.

Lemma last_keysAndHint keys hint k :
  k ≠ "hint" →
  (λ kv : string * KeyStoreValue, kv.2)
    <$> list.last (filter (λ kv, kv.1 = k) (keysAndHint keys hint))
  = keySavedAt keys k.
Proof.
  intros Hk. unfold keysAndHint, keySavedAt.
  rewrite list.filter_app, filter_cons, filter_nil. simpl.
  rewrite decide_False by done. rewrite app_nil_r, filter_keys_fst.
  change (map ?f ?l) with (f <$> l). rewrite fmap_last.
  by destruct (list.last _).
Qed.

Lemma isKeyId_not_hint k : isKeyId k → k ≠ "hint".
Proof. intros Hp ->. done. Qed.

Lemma isKeyId_prefixed id' : isKeyId (KEY_ID_PREFIX +:+ id').
Proof.
  unfold isKeyId, KEY_ID_PREFIX. rewrite 4!VaultSpec.string_app_cons. simpl.
  rewrite VaultSpec.string_app_nil. by destruct id'.
Qed.

(** What [saveKeys] leaves in the key store when it is fulfilled. *)
Lemma saveKeys_Fulfilled keys hint st st' :
  saveKeys keys hint st = (Fulfilled (), st') →
  st' = withKeyStore
          {| KeyValueStore.entries :=
               stored (keysAndHint keys hint)
                 (removed (filter (λ key, String.prefix KEY_ID_PREFIX key = true)
                                  (map_to_list (KeyValueStore.entries (keyStore st))).*1)
                          (KeyValueStore.entries (keyStore st)));
             KeyValueStore.failing := KeyValueStore.failing (keyStore st) |} st.
Proof.
  unfold saveKeys, mbind, Async_bind, andThen, KeyValueStore.list, allOf. simpl.
  set (ids := filter _ _).
  pose proof (startAll_removes ids st) as Hrm.
  destruct (startAll (map _ ids) st) as [os1 st1]. simpl in Hrm.
  destruct (Q.all os1) as [l1|] eqn:Hall1; [|done].
  specialize (Hrm l1 eq_refl). subst st1.
  assert (map (λ key, keyStoreOp (KeyValueStore.set
                 (KEY_ID_PREFIX +:+ Onepass.identifier key) (KeyValue key))) keys
          ++ [keyStoreOp (KeyValueStore.set "hint" (HintValue hint))]
          = map (λ kv, keyStoreOp (KeyValueStore.set kv.1 kv.2)) (keysAndHint keys hint))
    as ->.
  { unfold keysAndHint. by rewrite map_app, map_map. }
  match goal with
  | |- context [startAll ?ops ?st1] =>
      pose proof (startAll_sets (keysAndHint keys hint) st1) as Hset;
      destruct (startAll ops st1) as [os2 st2]
  end.
  simpl in Hset. destruct (Q.all os2) as [l2|]; [|done].
  specialize (Hset l2 eq_refl). subst st2. by intros [= <-].
Qed.

Lemma listed_keys_is_Some {V} (m : gmap string V) k :
  k ∈ (map_to_list m).*1 ↔ is_Some (m !! k).
Proof.
  rewrite list_elem_of_fmap. split.
  - intros ([k' v] & -> & Hin). apply elem_of_map_to_list in Hin. by exists v.
  - intros [v Hv]. exists (k, v). split; [done|]. by apply elem_of_map_to_list.
Qed.

Lemma keySavedAt_is_Some keys k :
  is_Some (keySavedAt keys k)
  ↔ ∃ key, key ∈ keys ∧ KEY_ID_PREFIX +:+ Onepass.identifier key = k.
Proof.
  unfold keySavedAt. rewrite fmap_is_Some, last_is_Some. split.
  - destruct (filter _ keys) as [|key rest] eqn:Hf; [done|]. intros _.
    assert (key ∈ filter (λ key, KEY_ID_PREFIX +:+ Onepass.identifier key = k) keys)
      as Hin by (rewrite Hf; apply elem_of_cons; by left).
    apply list_elem_of_filter in Hin as [? ?]. by exists key.
  - intros (key & Hin & Hk) Hnil.
    assert (key ∈ filter (λ key, KEY_ID_PREFIX +:+ Onepass.identifier key = k) keys)
      as Hf by by apply list_elem_of_filter.
    rewrite Hnil in Hf. by apply elem_of_nil in Hf.
Qed.

Lemma keySavedAt_NoDup keys key :
  NoDup (map Onepass.identifier keys) → key ∈ keys →
  keySavedAt keys (KEY_ID_PREFIX +:+ Onepass.identifier key) = Some (KeyValue key).
Proof.
  unfold keySavedAt. intros Hnd Hin.
  induction keys as [|key0 keys IH]; [by apply elem_of_nil in Hin|].
  simpl in Hnd. apply list.NoDup_cons in Hnd as [Hfresh Hnd].
  rewrite filter_cons. apply elem_of_cons in Hin as [->|Hin].
  - rewrite decide_True by done.
    assert (filter (λ k', KEY_ID_PREFIX +:+ Onepass.identifier k'
                          = KEY_ID_PREFIX +:+ Onepass.identifier key0) keys = []) as ->;
      [|done].
    destruct (filter _ keys) as [|k' rest] eqn:Hf; [done|]. exfalso.
    assert (k' ∈ filter (λ k', KEY_ID_PREFIX +:+ Onepass.identifier k'
                               = KEY_ID_PREFIX +:+ Onepass.identifier key0) keys)
      as Hk' by (rewrite Hf; apply elem_of_cons; by left).
    apply list_elem_of_filter in Hk' as [Hsame Hk'].
    apply (inj (String.app KEY_ID_PREFIX)) in Hsame.
    apply Hfresh. rewrite <-Hsame. change (map ?f ?l) with (f <$> l).
    by apply list_elem_of_fmap_2.
  - rewrite decide_False; [by apply IH|].
    intros Hsame. apply (inj (String.app KEY_ID_PREFIX)) in Hsame.
    apply Hfresh. rewrite Hsame. change (map ?f ?l) with (f <$> l).
    by apply list_elem_of_fmap_2.
Qed.

Lemma startAll_reads {V} (read : Store → KeyValueStore.ObjectStore V) ids st :
  startAll (map (λ id' st', (KeyValueStore.get id' (read st'), st')) ids) st
  = (map (λ id', Fulfilled (KeyValueStore.entries (read st) !! id')) ids, st).
Proof.
  induction ids as [|id' ids IH]; [done|].
  simpl in *. by rewrite IH.
Qed.

Lemma all_Fulfilled {A} (l : list A) : Q.all (map Fulfilled l) = Fulfilled l.
Proof. induction l as [|a l IH]; [done|]. simpl. by rewrite IH. Qed.

Lemma listKeys_reads st :
  listKeys st
  = (Fulfilled (map (λ id', KeyValueStore.entries (keyStore st) !! id')
                    (filter (λ key, String.prefix KEY_ID_PREFIX key = true)
                            (map_to_list (KeyValueStore.entries (keyStore st))).*1)),
     st).
Proof.
  unfold listKeys, mbind, Async_bind, andThen, KeyValueStore.list, allOf. simpl.
  rewrite (startAll_reads keyStore).
  rewrite <-(map_map (λ id', KeyValueStore.entries (keyStore st) !! id') Fulfilled).
  by rewrite all_Fulfilled.
Qed.

(** C10.  When [saveKeys] is fulfilled, the key store holds under the
    'key/' prefix exactly the given keys (under an identifier that several of
    them share, the last of them), nothing that was there before; the hint
    read back is the given one; every other entry of the key store, the item
    store and the rest of the store are as before.  With identifiers that
    differ, [listKeys] then lists the given keys, in some order. *)
Theorem saveKeys_replaces_key_set
    (keys : list Onepass.EncryptionKeyEntry) (hint : string) (st st' : Store) :
  saveKeys keys hint st = (Fulfilled (), st') →
  (∀ storeKey, isKeyId storeKey →
     KeyValueStore.entries (keyStore st') !! storeKey = keySavedAt keys storeKey)
  ∧ passwordHint st' = (Fulfilled (Some (HintValue hint)), st')
  ∧ (∀ storeKey, ¬ isKeyId storeKey → storeKey ≠ "hint" →
       KeyValueStore.entries (keyStore st') !! storeKey
       = KeyValueStore.entries (keyStore st) !! storeKey)
  ∧ (itemStore st' = itemStore st ∧ keyAgent st' = keyAgent st
     ∧ itemIndex st' = itemIndex st ∧ onItemUpdated st' = onItemUpdated st
     ∧ onUnlock st' = onUnlock st
     ∧ KeyValueStore.failing (keyStore st') = KeyValueStore.failing (keyStore st))
  ∧ (NoDup (map Onepass.identifier keys) →
     ∃ listed, listKeys st' = (Fulfilled listed, st')
               ∧ listed ≡ₚ map (λ key, Some (KeyValue key)) keys).
Proof.
  intros Hsave. apply saveKeys_Fulfilled in Hsave.
  set (m0 := KeyValueStore.entries (keyStore st)) in *.
  set (ids := filter (λ key, String.prefix KEY_ID_PREFIX key = true) (map_to_list m0).*1) in *.
  assert (∀ k, isKeyId k → removed ids m0 !! k = None) as Hgone.
  { intros k Hk. rewrite lookup_removed. case_decide as Hin; [done|].
    destruct (m0 !! k) as [v|] eqn:Hv; [|done]. exfalso. apply Hin.
    apply list_elem_of_filter. split; [done|]. apply listed_keys_is_Some. by exists v. }
  assert (∀ k, ¬ isKeyId k → removed ids m0 !! k = m0 !! k) as Hkept.
  { intros k Hk. rewrite lookup_removed. case_decide as Hin; [|done].
    by apply list_elem_of_filter in Hin as [? _]. }
  assert (∀ k, isKeyId k →
            KeyValueStore.entries (keyStore st') !! k = keySavedAt keys k) as Hkeys.
  { intros k Hk. subst st'. simpl. rewrite lookup_stored.
    rewrite <-(last_keysAndHint keys hint k) by by apply isKeyId_not_hint.
    destruct (list.last _); [done|]. by apply Hgone. }
  split; [done|]. split; [|split; [|split]].
  - unfold passwordHint, KeyValueStore.get. f_equal. f_equal.
    subst st'. simpl. rewrite lookup_stored. unfold keysAndHint.
    rewrite list.filter_app, filter_cons, filter_nil. simpl.
    by rewrite last_snoc.
  - intros k Hk Hhint. subst st'. simpl. rewrite lookup_stored.
    pose proof (last_keysAndHint keys hint k Hhint) as Hlast.
    destruct (list.last _) as [kv|]; [|by apply Hkept].
    exfalso. apply Hk.
    assert (is_Some (keySavedAt keys k)) as Hs by (rewrite <-Hlast; by eexists).
    apply keySavedAt_is_Some in Hs as (key & _ & <-). apply isKeyId_prefixed.
  - by subst st'.
  - intros Hnd. eexists. split; [apply listKeys_reads|].
    set (m' := KeyValueStore.entries (keyStore st')) in *.
    set (byId := λ id', m' !! id').
    assert (filter (λ key, String.prefix KEY_ID_PREFIX key = true) (map_to_list m').*1
            ≡ₚ (λ key, KEY_ID_PREFIX +:+ Onepass.identifier key) <$> keys) as Hperm.
    { apply list.NoDup_Permutation.
      - apply list.NoDup_filter, NoDup_fst_map_to_list.
      - rewrite (list_fmap_compose Onepass.identifier (String.app KEY_ID_PREFIX)).
        apply (NoDup_fmap_2 _). by change (NoDup (map Onepass.identifier keys)).
      - intros k. rewrite list_elem_of_filter, listed_keys_is_Some, list_elem_of_fmap.
        split.
        + intros [Hk Hs]. rewrite (Hkeys k Hk) in Hs.
          apply keySavedAt_is_Some in Hs as (key & ? & <-). by exists key.
        + intros (key & -> & Hin). split; [apply isKeyId_prefixed|].
          rewrite Hkeys by apply isKeyId_prefixed.
          apply keySavedAt_is_Some. by exists key. }
    change (map byId ?l) with (byId <$> l). rewrite Hperm.
    rewrite <-list_fmap_compose. change (map ?f keys) with (f <$> keys).
    erewrite list_fmap_ext; [done|].
    intros i key Hkey. simpl. unfold byId.
    rewrite Hkeys by apply isKeyId_prefixed.
    apply keySavedAt_NoDup; [done|]. by eapply list_elem_of_lookup_2.
Qed.

(** With a storage that rejects nothing, [saveKeys] is fulfilled. *)
Lemma startAll_ok {A} (ops : list (Async A)) st :
  (∀ k, KeyValueStore.failing (keyStore st) k = false) →
  Forall (λ op : Async A, ∀ st0,
            (∀ k, KeyValueStore.failing (keyStore st0) k = false) →
            (∃ a, (op st0).1 = Fulfilled a)
            ∧ ∀ k, KeyValueStore.failing (keyStore (op st0).2) k = false) ops →
  (∃ l, Q.all (startAll ops st).1 = Fulfilled l)
  ∧ ∀ k, KeyValueStore.failing (keyStore (startAll ops st).2) k = false.
Proof.
  intros Hst Hops. revert st Hst.
  induction Hops as [|op ops Hop _ IH]; intros st Hst.
  - split; [by exists []|done].
  - rewrite startAll_cons. destruct (Hop st Hst) as [[a Ha] Hst1].
    destruct (op st) as [o st1]. simpl in Ha, Hst1. subst o.
    destruct (IH st1 Hst1) as [[l Hl] Hst2].
    destruct (startAll ops st1) as [os st2]. simpl in *.
    rewrite Hl. split; [by eexists|done].
Qed.

Lemma keyStore_write_ok (write : KeyValueStore.ObjectStore KeyStoreValue
                                 → Outcome unit * KeyValueStore.ObjectStore KeyStoreValue) :
  (∀ os, (∀ k, KeyValueStore.failing os k = false) →
         (write os).1 = Fulfilled ()
         ∧ ∀ k, KeyValueStore.failing (write os).2 k = false) →
  ∀ st0, (∀ k, KeyValueStore.failing (keyStore st0) k = false) →
         (∃ a, (keyStoreOp write st0).1 = Fulfilled a)
         ∧ ∀ k, KeyValueStore.failing (keyStore (keyStoreOp write st0).2) k = false.
Proof.
  intros Hw st0 Hst0. unfold keyStoreOp. destruct (Hw _ Hst0) as [Ho Hf].
  destruct (write (keyStore st0)) as [o os]. simpl in *. subst o.
  split; [by eexists|done].
Qed.

Lemma saveKeys_succeeds keys hint st :
  (∀ k, KeyValueStore.failing (keyStore st) k = false) →
  (saveKeys keys hint st).1 = Fulfilled ().
Proof.
  intros Hok.
  unfold saveKeys, mbind, Async_bind, andThen, KeyValueStore.list, allOf. simpl.
  set (ids := filter _ _).
  destruct (startAll_ok (map (λ id', keyStoreOp (KeyValueStore.remove id')) ids) st Hok)
    as [[l1 Hl1] Hst1].
  { apply list.Forall_forall. intros op Hop.
    change (map ?f ?l) with (f <$> l) in Hop.
    apply list_elem_of_fmap in Hop as (id' & -> & _).
    apply keyStore_write_ok. intros os Hos. unfold KeyValueStore.remove.
    by rewrite Hos. }
  destruct (startAll _ st) as [os1 st1]. simpl in Hl1, Hst1. rewrite Hl1.
  match goal with
  | |- context [startAll ?ops st1] =>
      destruct (startAll_ok ops st1 Hst1) as [[l2 Hl2] _]
  end.
  { apply list.Forall_app. split.
    - apply list.Forall_forall. intros op Hop.
      change (map ?f ?l) with (f <$> l) in Hop.
      apply list_elem_of_fmap in Hop as (key & -> & _).
      apply keyStore_write_ok. intros os Hos. unfold KeyValueStore.set.
      by rewrite Hos.
    - apply list.Forall_singleton.
      apply keyStore_write_ok. intros os Hos. unfold KeyValueStore.set.
      by rewrite Hos. }
  destruct (startAll _ st1) as [os2 st2]. simpl in Hl2. by rewrite Hl2.
Qed.

End Store.

(** ** The small implementation of the store's collaborators *)

Section ToyEncoding.
Import LocalStore.Toy.
Import VaultSpec.

Lemma prefixFree_positive : prefixFree encPositive.
Proof.
  intros x. induction x as [x IH|x IH|]; intros [y|y|] r s; simpl;
    rewrite ?string_app_cons, ?string_app_nil; intros H; try discriminate.
  - injection H as H. by destruct (IH _ _ _ H) as [-> ->].
  - injection H as H. by destruct (IH _ _ _ H) as [-> ->].
  - by injection H as ->.
Qed.

Lemma prefixFree_Z : prefixFree (enc (T := Z)).
Proof.
  intros x y r s H. apply prefixFree_positive in H as [H ->].
  by apply (inj encode) in H as ->.
Qed.

Lemma prefixFree_bool : prefixFree (enc (T := bool)).
Proof.
  intros [] [] r s; unfold enc, Encode_bool; rewrite !string_app_cons, !string_app_nil;
    intros H; try discriminate; by injection H as ->.
Qed.

Lemma prefixFree_string : prefixFree (enc (T := string)).
Proof.
  intros x. induction x as [|a x IH]; intros [|b y] r s; unfold enc, Encode_string; simpl;
    rewrite ?string_app_cons, ?string_app_nil; intros H; try discriminate.
  - by injection H as ->.
  - injection H as -> H. by destruct (IH _ _ _ H) as [-> ->].
Qed.

Lemma prefixFree_prod {A B} (encA : A → string) (encB : B → string) :
  prefixFree encA → prefixFree encB →
  prefixFree (λ p : A * B, encA p.1 +:+ encB p.2).
Proof.
  intros Ha Hb [a1 b1] [a2 b2] r s H. simpl in H.
  rewrite !string_app_assoc in H.
  apply Ha in H as [-> H]. by apply Hb in H as [-> ->].
Qed.

Lemma prefixFree_list {A} (encA : A → string) :
  prefixFree encA → prefixFree (encList encA).
Proof.
  intros Ha x. induction x as [|a x IH]; intros [|b y] r s; simpl;
    rewrite ?string_app_cons, ?string_app_nil; intros H; try discriminate.
  - by injection H as ->.
  - injection H as H. rewrite !string_app_assoc in H.
    apply Ha in H as [-> H]. by destruct (IH _ _ _ H) as [-> ->].
Qed.

Lemma prefixFree_option {A} (encA : A → string) :
  prefixFree encA →
  prefixFree (λ o, match o with Some a => String "1"%char (encA a) | None => "0" end).
Proof.
  intros Ha [a|] [b|] r s; rewrite ?string_app_cons, ?string_app_nil;
    intros H; try discriminate.
  - injection H as H. by apply Ha in H as [-> ->].
  - by injection H as ->.
Qed.

Lemma prefixFree_via {A B} (f : A → B) (encB : B → string) :
  (∀ x y, f x = f y → x = y) → prefixFree encB → prefixFree (λ x, encB (f x)).
Proof. intros Hf Hb x y r s H. apply Hb in H as [H ->]. by apply Hf in H as ->. Qed.

Ltac prefix_free :=
  repeat first
    [ exact prefixFree_string | exact prefixFree_Z | exact prefixFree_bool
    | apply prefixFree_prod | apply prefixFree_list | apply prefixFree_option ].

Lemma prefixFree_ItemOpenContents : prefixFree (enc (T := ItemOpenContents)).
Proof.
  apply (prefixFree_via (λ x, (tags x, scope x))); [by intros [] [] [= -> ->]|].
  prefix_free.
Qed.

Lemma prefixFree_ItemUrl : prefixFree (enc (T := ItemUrl)).
Proof.
  apply (prefixFree_via (λ x, (label x, url x))); [by intros [] [] [= -> ->]|].
  prefix_free.
Qed.

Lemma prefixFree_WebFormField : prefixFree (enc (T := WebFormField)).
Proof.
  apply (prefixFree_via (λ x, (value x, id x, name x, type x, designation x)));
    [by intros [] [] [= -> -> -> -> ->]|].
  prefix_free.
Qed.

Lemma prefixFree_ItemField : prefixFree (enc (T := ItemField)).
Proof.
  apply (prefixFree_via (λ x, (field_kind x, field_name x, field_title x, field_value x)));
    [by intros [] [] [= -> -> -> ->]|].
  prefix_free.
Qed.

Lemma prefixFree_ItemSection : prefixFree (enc (T := ItemSection)).
Proof.
  apply (prefixFree_via (λ x, (section_name x, section_title x, fields x)));
    [by intros [] [] [= -> -> ->]|].
  prefix_free. exact prefixFree_ItemField.
Qed.

Lemma prefixFree_ItemContent : prefixFree (enc (T := ItemContent)).
Proof.
  apply (prefixFree_via (λ x, (sections x, urls x, notes x, formFields x,
                               htmlMethod x, htmlAction x, htmlId x)));
    [by intros [] [] [= -> -> -> -> -> -> ->]|].
  prefix_free.
  - exact prefixFree_ItemSection.
  - exact prefixFree_ItemUrl.
  - exact prefixFree_WebFormField.
Qed.

Lemma toy_revisionIdLaw : revisionIdLaw (itemStoreModule := toyItemStore).
Proof.
  intros item1 content1 item2 content2 overview1 overview2 Hov1 Hov2.
  unfold overviewFromItem in Hov1, Hov2.
  destruct (updatedAt item1) as [u1|] eqn:Hu1, (createdAt item1) as [c1|] eqn:Hc1;
    try done.
  destruct (updatedAt item2) as [u2|] eqn:Hu2, (createdAt item2) as [c2|] eqn:Hc2;
    try done.
  injection Hov1 as <-. injection Hov2 as <-.
  cbn [generateRevisionId toyItemStore]. rewrite Hu1, Hc1, Hu2, Hc2. split.
  - intros H.
    assert (prefixFree (enc (T := string * option Z * option Z * bool * string
                                  * option ItemOpenContents * list string * string
                                  * option string * option string * ItemContent)))
      as Hfree.
    { prefix_free.
      - exact prefixFree_ItemOpenContents.
      - exact prefixFree_ItemContent. }
    destruct (Hfree _ _ "" "" (f_equal (λ t, t +:+ "") H)) as [Heq _].
    injection Heq; intros; split; congruence.
  - intros [Heq ->]. injection Heq; intros; congruence.
Qed.

End ToyEncoding.

(** ** The properties at work on the small implementation *)

Section Examples.
Import LocalStore.Toy.
Local Existing Instances Crypto.Toy.toy toyJsonIndex toyJsonRevision toyItemStore.

Lemma revision_id_deterministic_witness :
  revision (saveItem 5 synced Sync emptyStore).1.2
  = revision (saveItem 9 synced Sync (refusing "other")).1.2
  ∧ revision (saveItem 5 synced Sync emptyStore).1.2
    ≠ revision (saveItem 5 renamed Sync emptyStore).1.2.
Proof.
  destruct revision_id_deterministic as [Hsame Hiff].
  assert (saveItem 5 synced Sync emptyStore
          = (Fulfilled (), (saveItem 5 synced Sync emptyStore).1.2,
             (saveItem 5 synced Sync emptyStore).2)) as Hfirst
    by (vm_compute; reflexivity).
  split.
  - apply (Hsame 5%Z 9%Z synced emptyStore (refusing "other") login
             _ (saveItem 5 synced Sync emptyStore).2
             _ (saveItem 9 synced Sync (refusing "other")).2).
    + reflexivity.
    + exact Hfirst.
    + vm_compute; reflexivity.
  - intros Heq.
    destruct (Hiff 5%Z synced Sync emptyStore _ _ 5%Z renamed Sync emptyStore
                (saveItem 5 renamed Sync emptyStore).1.2
                (saveItem 5 renamed Sync emptyStore).2 Hfirst)
      as (item01 & content1 & input1 & item02 & content2 & input2 &
          Hs1 & Hc1 & Hi1 & _ & Hs2 & Hc2 & Hi2 & _ & Hsame').
    { vm_compute; reflexivity. }
    apply (Hsame' toy_revisionIdLaw) in Heq as [Hinput _].
    vm_compute in Hs1, Hs2. injection Hs1 as <-. injection Hs2 as <-.
    vm_compute in Hc1, Hc2. injection Hc1 as <-. injection Hc2 as <-.
    vm_compute in Hi1, Hi2. injection Hi1 as <-. injection Hi2 as <-.
    discriminate Hinput.
Defined.

Lemma saveItem_resolves_after_both_writes_witness :
  onItemUpdated (saveItem 10 bank Local emptyStore).2
  = [(saveItem 10 bank Local emptyStore).1.2]
  ∧ (saveItem 10 bank Local (refusing "index")).1.1 = Rejected (StorageError "index")
  ∧ onItemUpdated (saveItem 10 bank Local (refusing "index")).2 = [].
Proof.
  split; [|split].
  - pose proof (saveItem_resolves_after_both_writes 10 bank Local emptyStore) as H.
    destruct (saveItem 10 bank Local emptyStore) as [[r item'] st'] eqn:Hsave.
    assert (r = Fulfilled ()) as Hr.
    { apply (f_equal (λ x, x.1.1)) in Hsave. vm_compute in Hsave. by subst r. }
    destruct H as [Hok _]. destruct (Hok Hr) as (_ & _ & _ & _ & _ & Hpub).
    exact Hpub.
  - vm_compute. reflexivity.
  - pose proof (saveItem_resolves_after_both_writes 10 bank Local (refusing "index")) as H.
    destruct (saveItem 10 bank Local (refusing "index")) as [[r item'] st'] eqn:Hsave.
    assert (r = Rejected (StorageError "index")) as Hr.
    { apply (f_equal (λ x, x.1.1)) in Hsave. vm_compute in Hsave. by subst r. }
    destruct H as [_ Hrej]. exact (Hrej _ Hr).
Defined.

Lemma lock_invalidates_index_cache_witness :
  (listItems noOptions cachedStore).1
  = Fulfilled [itemOfIndexEntry ("U1", overviewOf "Old title" "webforms.WebForm")]
  ∧ (listItems noOptions (forgetKeys cachedStore)).1 = Rejected VaultLockedError
  ∧ (listItems noOptions (addKeys [("id1", "RAWKEY1")] (forgetKeys cachedStore))).1
    = Fulfilled [itemOfIndexEntry ("U1", overviewOf "Bank" "webforms.WebForm")].
Proof.
  destruct (lock_invalidates_index_cache cachedStore) as (_ & Hlocked & _ & Hstored & _).
  split; [vm_compute; reflexivity|]. split.
  - by rewrite Hlocked.
  - rewrite (Hstored noOptions [("id1", "RAWKEY1")] "id1" "RAWKEY1"
               (Crypto.Toy.toyEncrypt "RAWKEY1" (enc (map_to_list exampleIndex)) "salt")
               exampleIndex); try (vm_compute; reflexivity).
    vm_compute. discriminate.
Defined.

Lemma saveItem_stamps_or_asserts_witness :
  updatedAt (saveItem 10 bank Local emptyStore).1.2 = Some 10%Z
  ∧ createdAt (saveItem 10 bank Local emptyStore).1.2 = Some 10%Z
  ∧ saveItem 10 undated Sync emptyStore = (Rejected AssertionViolation, undated, emptyStore)
  ∧ updatedAt (saveItem 10 synced Sync emptyStore).1.2 = Some 7%Z
  ∧ createdAt (saveItem 10 synced Sync emptyStore).1.2 = Some 3%Z.
Proof.
  pose proof (saveItem_stamps_or_asserts 10 bank Local emptyStore) as Hlocal.
  pose proof (saveItem_stamps_or_asserts 10 undated Sync emptyStore) as Hundated.
  pose proof (saveItem_stamps_or_asserts 10 synced Sync emptyStore) as Hsynced.
  destruct (saveItem 10 bank Local emptyStore) as [[r1 item1] st1].
  destruct (saveItem 10 undated Sync emptyStore) as [[r2 item2] st2].
  destruct (saveItem 10 synced Sync emptyStore) as [[r3 item3] st3].
  destruct Hlocal as [Hlocal _]. destruct (Hlocal ltac:(done)) as [Hu Hc].
  destruct Hundated as (_ & Hundated & _).
  destruct (Hundated eq_refl (or_introl eq_refl)) as (-> & -> & ->).
  destruct Hsynced as (_ & _ & Hsynced).
  destruct (Hsynced eq_refl ltac:(by eexists) ltac:(by eexists)) as [Hu3 Hc3].
  simpl. by rewrite Hu, Hc, Hu3, Hc3.
Defined.

Lemma listItems_filters_tombstones_witness :
  (∀ item, item ∈ itemsOf noOptions exampleIndex → isTombstone item = false)
  ∧ (∀ item, Onepass.listItems
               (Fulfilled [{| Onepass.entry0 := "U3"; Onepass.entry1 := "system.Tombstone";
                              Onepass.entry2 := ""; Onepass.entry3 := "";
                              Onepass.entry4 := 0; Onepass.entry5 := "";
                              Onepass.entry6 := 0; Onepass.entry7 := "N" |}])
             = Fulfilled [item] → False).
Proof.
  destruct listItems_filters_tombstones as (_ & _ & Hdefault & Hvault & _).
  split.
  - intros item Hin.
    apply (Hdefault (withItemIndex (Some exampleIndex) cachedStore)
             (itemsOf noOptions exampleIndex)
             (withItemIndex (Some exampleIndex) cachedStore) item); [|exact Hin].
    reflexivity.
  - intros item Hlist.
    pose proof (Hvault _ _ item Hlist ltac:(apply elem_of_cons; by left)) as Hno.
    vm_compute in Hlist. discriminate Hlist.
Defined.

Lemma saveKeys_replaces_key_set_witness :
  KeyValueStore.entries (keyStore (saveKeys Onepass.Toy.twoEntries "new hint" keyedStore).2)
    !! "key/old" = None
  ∧ KeyValueStore.entries (keyStore (saveKeys Onepass.Toy.twoEntries "new hint" keyedStore).2)
      !! "settings" = Some (HintValue "kept")
  ∧ (passwordHint (saveKeys Onepass.Toy.twoEntries "new hint" keyedStore).2).1
    = Fulfilled (Some (HintValue "new hint")).
Proof.
  destruct (saveKeys_replaces_key_set Onepass.Toy.twoEntries "new hint" keyedStore
              (saveKeys Onepass.Toy.twoEntries "new hint" keyedStore).2)
    as (Hkeys & Hhint & Hrest & _).
  { vm_compute. reflexivity. }
  split; [|split].
  - rewrite Hkeys by reflexivity. vm_compute. reflexivity.
  - rewrite Hrest; [vm_compute; reflexivity| |]; vm_compute; discriminate.
  - by rewrite Hhint.
Defined.

(** C10, as stated, fails for keys that share an identifier: [saveKeys] of two
    keys with the identifier 'id1' is fulfilled, and the key store then holds
    one key entry, the second of the two; the first is not stored. *)
Lemma saveKeys_keeps_last_of_shared_identifier :
  (saveKeys Onepass.Toy.sameIdentifier "new hint" keyedStore).1 = Fulfilled ()
  ∧ (listKeys (saveKeys Onepass.Toy.sameIdentifier "new hint" keyedStore).2).1
    = Fulfilled [Some (KeyValue (Onepass.Toy.entry "id1" "SL4" "other" "RAWKEY2"))]
  ∧ ¬ [Some (KeyValue (Onepass.Toy.entry "id1" "SL4" "other" "RAWKEY2"))]
      ≡ₚ map (λ key, Some (KeyValue key)) Onepass.Toy.sameIdentifier.
Proof.
  split; [|split].
  - vm_compute. reflexivity.
  - vm_compute. reflexivity.
  - intros Hperm. apply Permutation_length in Hperm. discriminate Hperm.
Qed.

End Examples.

End StoreSpec.

(** * The key agent and the lock state of a vault *)

Module KeyAgentSpec.

Import Onepass.

Section KeyAgent.
Context {crypto : CryptoImpl}.

Lemma listKeys_assign id key ks :
  (assign id key ks).*1 = if decide (id ∈ ks.*1) then ks.*1 else ks.*1 ++ [id].
Proof.
  induction ks as [|[i k'] ks IH].
  - destruct (decide (id ∈ ([] : list (string * string)).*1)) as [Hin|]; [|done].
    by apply elem_of_nil in Hin.
  - cbn [assign]. destruct (decide (i = id)) as [->|Hne].
    + destruct (decide (id ∈ ((id, k') :: ks).*1)) as [|Hnin]; [done|].
      exfalso. apply Hnin. rewrite fmap_cons. apply elem_of_cons. by left.
    + rewrite fmap_cons, IH. rewrite (fmap_cons fst (i, k') ks).
      destruct (decide (id ∈ ks.*1)) as [Hin|Hnin];
        destruct (decide (id ∈ (i, k').1 :: ks.*1)) as [Hin'|Hnin']; try done.
      * exfalso. apply Hnin'. apply elem_of_cons. by right.
      * exfalso. apply elem_of_cons in Hin' as [->|?]; done.
Qed.

Lemma property_assign id key ks id' :
  property id' (assign id key ks) = if decide (id' = id) then Some key else property id' ks.
Proof.
  induction ks as [|[i k'] ks IH]; simpl.
  - destruct (decide (id = id')), (decide (id' = id)); congruence.
  - destruct (decide (i = id)) as [->|Hne]; simpl.
    + destruct (decide (id = id')), (decide (id' = id)); congruence.
    + rewrite IH. destruct (decide (i = id')), (decide (id' = id)); congruence.
Qed.

Lemma property_listed id ks : is_Some (property id ks) ↔ id ∈ ks.*1.
Proof.
  induction ks as [|[i k'] ks IH]; simpl.
  - rewrite elem_of_nil. split; [by intros [? ?]|done].
  - rewrite elem_of_cons. destruct (decide (i = id)) as [->|Hne].
    + split; [by left|by eexists].
    + rewrite IH. split; [by right|]. by intros [?|?].
Qed.

Lemma algo_cases (params : CryptoParams) :
  algo params = AES128_OpenSSLKey
  ∨ algo params ≠ AES128_OpenSSLKey
    ∧ (∀ k text, match algo params with
                 | 0%Z => Fulfilled (decryptAgileKeychainItemData k text)
                 | _ => Rejected UnsupportedAlgorithmError
                 end = Rejected UnsupportedAlgorithmError)
    ∧ (∀ k text, match algo params with
                 | 0%Z => Fulfilled (encryptAgileKeychainItemData k text)
                 | _ => Rejected UnsupportedAlgorithmError
                 end = Rejected UnsupportedAlgorithmError).
Proof.
  unfold AES128_OpenSSLKey. destruct (algo params); [by left|right..]; by split.
Qed.

(** X1.  Among ids that are ordinary names (no integer index, not '__proto__'),
    the agent lists the ids in the order in which they were first added:
    adding a key under an id that the agent holds leaves the list as it is, a
    new id goes to its end; so no sequence of [addKey] under such ids makes
    the agent list an id twice, or an id that is not such a name. *)
Theorem addKey_keeps_order :
  (∀ id key agent,
     Forall ordinaryName (listKeys agent) → ordinaryName id →
     listKeys (addKey id key agent)
     = if decide (id ∈ listKeys agent) then listKeys agent else listKeys agent ++ [id])
  ∧ (∀ added : list (string * string),
       Forall (λ kv, ordinaryName kv.1) added →
       NoDup (listKeys (fold_left (λ agent kv, addKey kv.1 kv.2 agent) added newKeyAgent))
       ∧ Forall ordinaryName
           (listKeys (fold_left (λ agent kv, addKey kv.1 kv.2 agent) added newKeyAgent))).
Proof.
  split.
  - intros id key [ks] _ _. apply listKeys_assign.
  - intros added.
    assert (∀ agent, NoDup (listKeys agent) → Forall ordinaryName (listKeys agent) →
              Forall (λ kv, ordinaryName kv.1) added →
              NoDup (listKeys (fold_left (λ agent kv, addKey kv.1 kv.2 agent) added agent))
              ∧ Forall ordinaryName
                  (listKeys (fold_left (λ agent kv, addKey kv.1 kv.2 agent) added agent)))
      as Hall; [|apply Hall; [apply NoDup_nil_2|constructor]].
    induction added as [|[id key] added IH]; intros [ks] Hnd Hord Hadded; [done|].
    apply Forall_cons_1 in Hadded as [Hid Hadded].
    simpl. apply IH; [| |done]; unfold listKeys, addKey in *; simpl in *;
      rewrite listKeys_assign; case_decide as Hin; try done.
    + apply list.NoDup_app. split; [done|]. split; [|apply NoDup_singleton].
      intros x Hx Hx'. apply list_elem_of_singleton in Hx' as ->. done.
    + apply Forall_app. split; [done|]. by apply Forall_singleton.
Qed.

(** X2.  An agent that holds no key under 'hasOwnProperty' decrypts and encrypts
    under an id exactly when it lists the id and the algorithm asked for is
    AES128_OpenSSLKey; under an id that it does not list both are rejected
    with NoSuchKeyError for that id, and under a listed id with another
    algorithm both are rejected as an unknown algorithm. *)
Theorem agent_serves_listed_ids (agent : SimpleKeyAgent) (id text : string)
    (params : CryptoParams) :
  ordinaryAgent agent →
  (isFulfilled (decrypt agent id text params) = true
   ↔ id ∈ listKeys agent ∧ algo params = AES128_OpenSSLKey)
  ∧ (isFulfilled (encrypt agent id text params) = true
     ↔ id ∈ listKeys agent ∧ algo params = AES128_OpenSSLKey)
  ∧ (id ∉ listKeys agent →
       decrypt agent id text params = Rejected (NoSuchKeyError id)
       ∧ encrypt agent id text params = Rejected (NoSuchKeyError id))
  ∧ (id ∈ listKeys agent → algo params ≠ AES128_OpenSSLKey →
       decrypt agent id text params = Rejected UnsupportedAlgorithmError
       ∧ encrypt agent id text params = Rejected UnsupportedAlgorithmError).
Proof.
  intros _. pose proof (property_listed id (keys agent)) as Hlisted.
  unfold decrypt, encrypt, listKeys.
  destruct (property id (keys agent)) as [k|]; simpl.
  - assert (id ∈ (keys agent).*1) as Hin by (apply Hlisted; by eexists).
    destruct (algo_cases params) as [Halgo|(Halgo & Hd & He)].
    + rewrite Halgo. simpl. by repeat split.
    + rewrite Hd, He. simpl. repeat split; try done; by intros [_ ?].
  - assert (id ∉ (keys agent).*1) as Hnin by (intros [? ?]%Hlisted; done).
    repeat split; try done; by intros [? _].
Qed.

(** X3.  Under an id other than 'hasOwnProperty' and '__proto__', an agent that
    holds no key under these two works with the key that was added under the
    id last, when the algorithm asked for is AES128_OpenSSLKey, and rejects
    any other algorithm; adding a key under one id changes nothing for the
    other ids. *)
Theorem agent_uses_latest_key (agent : SimpleKeyAgent) (id key id' text : string)
    (params : CryptoParams) :
  ordinaryAgent agent → id ≠ "hasOwnProperty" → id ≠ "__proto__" →
  decrypt (addKey id key agent) id' text params
  = (if decide (id' = id)
     then if decide (algo params = AES128_OpenSSLKey)
          then Fulfilled (decryptAgileKeychainItemData key text)
          else Rejected UnsupportedAlgorithmError
     else decrypt agent id' text params)
  ∧ encrypt (addKey id key agent) id' text params
    = (if decide (id' = id)
       then if decide (algo params = AES128_OpenSSLKey)
            then Fulfilled (encryptAgileKeychainItemData key text)
            else Rejected UnsupportedAlgorithmError
       else encrypt agent id' text params).
Proof.
  intros _ _ _. unfold decrypt, encrypt, addKey. simpl. rewrite property_assign.
  destruct (decide (id' = id)); [|done].
  destruct (algo_cases params) as [Halgo|(Halgo & Hd & He)].
  - rewrite Halgo. by case_decide.
  - rewrite Hd, He. by case_decide.
Qed.

End KeyAgent.

Lemma agent_serves_listed_ids_witness :
  isFulfilled (decrypt (crypto := Crypto.Toy.toy) {| keys := [("id1", "RAWKEY1")] |}
                 "id1" "RAWKEY1saltsecret" {| algo := AES128_OpenSSLKey |}) = true
  ∧ decrypt (crypto := Crypto.Toy.toy) {| keys := [("id1", "RAWKEY1")] |}
      "id2" "RAWKEY1saltsecret" {| algo := AES128_OpenSSLKey |}
    = Rejected (NoSuchKeyError "id2").
Proof.
  assert (ordinaryAgent {| keys := [("id1", "RAWKEY1")] |}) as Hagent.
  { split; intros Hin; apply list_elem_of_singleton in Hin; discriminate Hin. }
  split.
  - apply (agent_serves_listed_ids (crypto := Crypto.Toy.toy)
             {| keys := [("id1", "RAWKEY1")] |} "id1" "RAWKEY1saltsecret"
             {| algo := AES128_OpenSSLKey |} Hagent).
    split; [|reflexivity]. apply list_elem_of_singleton. reflexivity.
  - apply (agent_serves_listed_ids (crypto := Crypto.Toy.toy)
             {| keys := [("id1", "RAWKEY1")] |} "id2" "RAWKEY1saltsecret"
             {| algo := AES128_OpenSSLKey |} Hagent).
    intros Hin. apply list_elem_of_singleton in Hin. discriminate Hin.
Defined.

Lemma agent_uses_latest_key_witness :
  decrypt (crypto := Crypto.Toy.toy)
    (addKey "id1" "RAWKEY2" {| keys := [("id1", "RAWKEY1")] |})
    "id1" "RAWKEY2saltsecret" {| algo := AES128_OpenSSLKey |}
  = Fulfilled "secret"
  ∧ decrypt (crypto := Crypto.Toy.toy)
      (addKey "id1" "RAWKEY2" {| keys := [("id1", "RAWKEY1")] |})
      "id1" "RAWKEY2saltsecret" {| algo := 1%Z |}
    = Rejected UnsupportedAlgorithmError.
Proof.
  assert (ordinaryAgent {| keys := [("id1", "RAWKEY1")] |}) as Hagent.
  { split; intros Hin; apply list_elem_of_singleton in Hin; discriminate Hin. }
  split.
  - rewrite (proj1 (agent_uses_latest_key (crypto := Crypto.Toy.toy)
                      {| keys := [("id1", "RAWKEY1")] |} "id1" "RAWKEY2" "id1"
                      "RAWKEY2saltsecret" {| algo := AES128_OpenSSLKey |} Hagent
                      ltac:(discriminate) ltac:(discriminate))).
    vm_compute. reflexivity.
  - rewrite (proj1 (agent_uses_latest_key (crypto := Crypto.Toy.toy)
                      {| keys := [("id1", "RAWKEY1")] |} "id1" "RAWKEY2" "id1"
                      "RAWKEY2saltsecret" {| algo := 1%Z |} Hagent
                      ltac:(discriminate) ltac:(discriminate))).
    vm_compute. reflexivity.
Defined.

End KeyAgentSpec.

Module LockSpec.

Import Onepass VaultSpec.

Section Lock.
Context {crypto : CryptoImpl}.

Lemma isLocked_fold (keyIDs : list string) (keyEntries : list EncryptionKeyEntry) locked :
  fold_left (λ locked entry,
               if bool_decide (identifier entry ∈ keyIDs) then locked else true)
            keyEntries locked = true
  ↔ locked = true ∨ ∃ entry, entry ∈ keyEntries ∧ identifier entry ∉ keyIDs.
Proof.
  revert locked. induction keyEntries as [|e keyEntries IH]; intros locked; simpl.
  - split; [by left|]. intros [?|(entry & Hin & _)]; [done|]. by apply elem_of_nil in Hin.
  - rewrite IH. case_bool_decide as Hid; split.
    + intros [?|(entry & Hin & Hmiss)]; [by left|]. right. exists entry.
      split; [|done]. apply elem_of_cons. by right.
    + intros [?|(entry & Hin & Hmiss)]; [by left|].
      apply elem_of_cons in Hin as [->|Hin]; [done|]. right. by exists entry.
    + intros _. right. exists e. split; [|done]. apply elem_of_cons. by left.
    + intros _. by left.
Qed.

Lemma isLocked_cases vault keyEntries :
  vaultKeys vault = Fulfilled keyEntries →
  ∃ locked, isLocked vault = Fulfilled locked
            ∧ (locked = true ↔ ∃ entry, entry ∈ keyEntries
                                        ∧ identifier entry ∉ listKeys (keyAgent vault)).
Proof.
  intros Hkeys. unfold isLocked. rewrite Hkeys. eexists. split; [done|].
  rewrite isLocked_fold. split; [|by right]. by intros [?|?].
Qed.

(** X4.  [isLocked] answers true exactly when some key entry of the vault has an
    identifier that the key agent does not list, so a set of keys that lacks
    one of them counts as locked; when the key entries could not be read it
    is rejected with the error of that reading. *)
Theorem isLocked_iff_key_missing (vault : Vault) :
  match vaultKeys vault with
  | Fulfilled keyEntries =>
      ∃ locked, isLocked vault = Fulfilled locked
                ∧ (locked = true ↔ ∃ entry, entry ∈ keyEntries
                                            ∧ identifier entry ∉ listKeys (keyAgent vault))
  | Rejected e => isLocked vault = Rejected e
  end.
Proof.
  destruct (vaultKeys vault) as [keyEntries|e] eqn:Hkeys.
  - by apply isLocked_cases.
  - unfold isLocked. by rewrite Hkeys.
Qed.

Lemma all_derive_or_one_fails pwd (keyEntries : list EncryptionKeyEntry) :
  Forall (λ e, isFulfilled (deriveKey pwd e) = true) keyEntries
  ∨ Exists (λ e, isFulfilled (deriveKey pwd e) = false) keyEntries.
Proof.
  induction keyEntries as [|e keyEntries [IH|IH]].
  - left. constructor.
  - destruct (isFulfilled (deriveKey pwd e)) eqn:He.
    + left. by constructor.
    + right. by apply Exists_cons_hd.
  - right. by apply Exists_cons_tl.
Qed.

Lemma unlock_Fulfilled pwd vault vault' :
  unlock pwd vault = (Fulfilled (), vault') →
  ∃ keyEntries,
    vaultKeys vault = Fulfilled keyEntries
    ∧ Forall (λ e, isFulfilled (deriveKey pwd e) = true) keyEntries
    ∧ vault' = {| vaultKeys := vaultKeys vault;
                  keyAgent := registered pwd keyEntries (keyAgent vault) |}.
Proof.
  unfold unlock. destruct (vaultKeys vault) as [keyEntries|] eqn:Hkeys; [|done].
  intros Hunlock. exists keyEntries. split; [done|].
  destruct (all_derive_or_one_fails pwd keyEntries) as [Hall|Hex].
  - split; [done|]. rewrite (unlockEach_all _ _ _ Hall) in Hunlock.
    by injection Hunlock as <-.
  - exfalso.
    destruct (first_failing pwd keyEntries Hex) as (before & item & after & -> & Hb & Hi).
    by rewrite (unlockEach_stops _ _ _ _ _ Hb Hi) in Hunlock.
Qed.

(** X5.  After [unlock] was fulfilled on a vault none of whose key entries has
    the identifier '__proto__', the vault is not locked, whatever the key
    agent held before. *)
Theorem unlocked_after_unlock (pwd : string) (vault vault' : Vault)
    (keyEntries : list EncryptionKeyEntry) :
  vaultKeys vault = Fulfilled keyEntries →
  Forall (λ entry, identifier entry ≠ "__proto__") keyEntries →
  "__proto__" ∉ listKeys (keyAgent vault) →
  unlock pwd vault = (Fulfilled (), vault') →
  isLocked vault' = Fulfilled false.
Proof.
  intros Hentries _ _ (keyEntries' & Hkeys & Hall & ->)%unlock_Fulfilled.
  destruct (isLocked_cases
              {| vaultKeys := vaultKeys vault;
                 keyAgent := registered pwd keyEntries' (keyAgent vault) |} keyEntries' Hkeys)
    as (locked & -> & Hlocked).
  destruct locked; [|done]. exfalso.
  destruct (proj1 Hlocked eq_refl) as (entry & Hin & Hmiss).
  apply Hmiss. simpl. by apply registered_listed.
Qed.

(** X6.  After [lock] a vault with at least one key entry is locked; a vault
    whose key file lists no key, or keys of level SL3 only, is never
    locked. *)
Theorem locked_after_lock (vault : Vault) (keyEntries : list EncryptionKeyEntry) :
  vaultKeys vault = Fulfilled keyEntries →
  isLocked (lock vault) = Fulfilled (bool_decide (keyEntries ≠ []))
  ∧ (keyEntries = [] → isLocked vault = Fulfilled false).
Proof.
  intros Hkeys. split.
  - destruct (isLocked_cases (lock vault) keyEntries Hkeys) as (locked & -> & Hlocked).
    f_equal. case_bool_decide as Hne.
    + apply Hlocked. destruct keyEntries as [|entry keyEntries]; [done|].
      exists entry. split; [apply elem_of_cons; by left|]. apply not_elem_of_nil.
    + destruct locked; [|done]. destruct (proj1 Hlocked eq_refl) as (entry & Hin & _).
      subst keyEntries. by apply elem_of_nil in Hin.
  - intros ->. unfold isLocked. by rewrite Hkeys.
Qed.

Lemma registered_listed_inv pwd items agent id :
  id ∈ listKeys (registered pwd items agent) →
  id ∈ listKeys agent ∨ id ∈ identifier <$> items.
Proof.
  revert agent. induction items as [|e items IH]; intros agent; [by left|].
  unfold registered. simpl. intros Hin. apply IH in Hin. rewrite elem_of_cons.
  destruct Hin as [Hin|Hin]; [|by right; right].
  destruct (deriveKey pwd e); [|by left].
  apply listKeys_addKey in Hin as [->|Hin]; [right; by left|by left].
Qed.

(** X7.  When [unlock] is rejected on a vault whose key entries have identifiers
    that differ and of which the agent listed none, the vault is locked
    afterwards, although the agent keeps the keys of the entries before the
    one that failed. *)
Theorem failed_unlock_stays_locked (pwd : string) (vault vault' : Vault)
    (keyEntries : list EncryptionKeyEntry) (e : Failure) :
  vaultKeys vault = Fulfilled keyEntries →
  NoDup (identifier <$> keyEntries) →
  (∀ entry, entry ∈ keyEntries → identifier entry ∉ listKeys (keyAgent vault)) →
  unlock pwd vault = (Rejected e, vault') →
  isLocked vault' = Fulfilled true.
Proof.
  intros Hkeys Hnd Hnone Hunlock.
  unfold unlock in Hunlock. rewrite Hkeys in Hunlock.
  destruct (all_derive_or_one_fails pwd keyEntries) as [Hall|Hex].
  { by rewrite (unlockEach_all _ _ _ Hall) in Hunlock. }
  destruct (first_failing pwd keyEntries Hex) as (before & item & after & -> & Hb & Hi).
  rewrite (unlockEach_stops _ _ _ _ _ Hb Hi) in Hunlock. injection Hunlock as _ <-.
  destruct (isLocked_cases
              {| vaultKeys := Fulfilled (before ++ item :: after);
                 keyAgent := registered pwd before (keyAgent vault) |}
              (before ++ item :: after) eq_refl) as (locked & -> & Hlocked).
  f_equal. apply Hlocked. exists item. split.
  { apply elem_of_app. right. apply elem_of_cons. by left. }
  simpl. intros [Hin|Hin]%registered_listed_inv.
  - apply (Hnone item); [|done]. apply elem_of_app. right. apply elem_of_cons. by left.
  - rewrite fmap_app, fmap_cons in Hnd. apply list.NoDup_app in Hnd as (_ & Hnd & _).
    apply (Hnd _ Hin). apply elem_of_cons. by left.
Qed.

(** X8.  Once the vault is locked, no item data of any level is decrypted or
    encrypted, and the agent lists no key. *)
Theorem lock_closes_item_data (vault : Vault) (lvl data' : string) :
  isFulfilled (decryptItemData (lock vault) lvl data') = false
  ∧ isFulfilled (encryptItemData (lock vault) lvl data') = false
  ∧ listKeys (keyAgent (lock vault)) = [].
Proof.
  split; [|split; [|done]].
  - unfold decryptItemData. simpl. destruct (vaultKeys vault) as [keyEntries|]; [|done].
    rewrite forLevel_entry. by destruct (entryForLevel keyEntries lvl).
  - unfold encryptItemData. simpl. destruct (vaultKeys vault) as [keyEntries|]; [|done].
    rewrite forLevel_entry. by destruct (entryForLevel keyEntries lvl).
Qed.

(** X9.  What [encryptItemData] made for a level, [decryptItemData] reads back
    for that level while the agent holds the same keys, under a cipher whose
    decryption undoes its encryption. *)
Theorem item_data_round_trip (vault : Vault) (lvl data' encrypted : string) :
  (∀ k text, decryptAgileKeychainItemData k (encryptAgileKeychainItemData k text) = text) →
  encryptItemData vault lvl data' = Fulfilled encrypted →
  decryptItemData vault lvl encrypted = Fulfilled data'.
Proof.
  intros Hcrypto. unfold encryptItemData, decryptItemData.
  destruct (vaultKeys vault) as [keyEntries|]; [|done].
  rewrite !forLevel_entry. destruct (entryForLevel keyEntries lvl) as [key|]; [|done].
  simpl. unfold encrypt, decrypt.
  destruct (property (identifier key) (keys (keyAgent vault))) as [k|]; [|done].
  simpl. intros [= <-]. by rewrite Hcrypto.
Qed.

(** X10.  Key entries of level SL3 are dropped when the key file is read: the
    entries of the vault are the others, decoded, in the order of the file,
    and item data of level SL3 is neither decrypted nor encrypted, whatever
    keys the agent holds.  A key file without a list is a rejected
    reading. *)
Theorem readKeyData_drops_SL3 (atob : string → string) :
  (∀ keyList keyEntries,
     readKeyData atob (Fulfilled (Some keyList)) = Fulfilled keyEntries →
     identifier <$> keyEntries
     = identifier <$> filter (λ entry, level entry ≠ "SL3") keyList)
  ∧ (∀ content keyEntries agent data',
       readKeyData atob content = Fulfilled keyEntries →
       Forall (λ entry, level entry ≠ "SL3") keyEntries
       ∧ decryptItemData {| vaultKeys := readKeyData atob content; keyAgent := agent |}
                         "SL3" data'
         = Rejected (NoKeyForLevelError "SL3")
       ∧ encryptItemData {| vaultKeys := readKeyData atob content; keyAgent := agent |}
                         "SL3" data'
         = Rejected (NoKeyForLevelError "SL3"))
  ∧ readKeyData atob (Fulfilled None) = Rejected SchemaError.
Proof.
  split; [|split; [|done]].
  - intros keyList keyEntries [= <-].
    induction keyList as [|entry keyList IH]; [done|].
    cbn [map]. rewrite !filter_cons. cbn [level].
    destruct (decide (level entry ≠ "SL3")); [|exact IH].
    rewrite !fmap_cons. cbn [identifier]. by rewrite IH.
  - intros content keyEntries agent data' Hread.
    assert (Forall (λ entry, level entry ≠ "SL3") keyEntries) as Hall.
    { unfold readKeyData in Hread. destruct content as [[keyList|]|]; try done.
      injection Hread as <-. apply list.Forall_forall.
      intros entry Hin. by apply list_elem_of_filter in Hin as [? _]. }
    split; [done|].
    destruct (item_data_uses_key_of_level_aux
                {| vaultKeys := readKeyData atob content; keyAgent := agent |}
                keyEntries "SL3" data' Hread) as [-> ->].
    by rewrite (proj2 (entryForLevel_None keyEntries "SL3") Hall).
Qed.

(** *** Unlocking again *)

Lemma registered_cons pwd e items agent :
  registered pwd (e :: items) agent
  = registered pwd items match deriveKey pwd e with
                         | Fulfilled key => addKey (identifier e) key agent
                         | Rejected _ => agent
                         end.
Proof. reflexivity. Qed.

Lemma registered_NoDup pwd items agent :
  NoDup (listKeys agent) → NoDup (listKeys (registered pwd items agent)).
Proof.
  revert agent. induction items as [|e items IH]; intros agent Hnd; [done|].
  rewrite registered_cons. apply IH. destruct (deriveKey pwd e) as [key|]; [|done].
  destruct agent as [ks]. unfold listKeys, addKey in *. simpl in *.
  rewrite KeyAgentSpec.listKeys_assign. case_decide as Hin; [done|].
  apply list.NoDup_app. split; [done|]. split; [|apply NoDup_singleton].
  intros x Hx Hx'. apply list_elem_of_singleton in Hx' as ->. done.
Qed.

(* the key that the agent holds under [id] after the entries were
   registered depends on the agent only through the key it held under [id] *)
Lemma registered_property pwd items agent agent' id :
  property id (keys agent) = property id (keys agent') →
  property id (keys (registered pwd items agent))
  = property id (keys (registered pwd items agent')).
Proof.
  revert agent agent'. induction items as [|e items IH]; intros agent agent' Hsame; [done|].
  rewrite !registered_cons. apply IH. destruct (deriveKey pwd e) as [key|]; [|done].
  simpl. rewrite !KeyAgentSpec.property_assign. by case_decide.
Qed.

Lemma registered_snoc pwd items e agent :
  registered pwd (items ++ [e]) agent
  = match deriveKey pwd e with
    | Fulfilled key => addKey (identifier e) key (registered pwd items agent)
    | Rejected _ => registered pwd items agent
    end.
Proof. unfold registered. by rewrite fold_left_app. Qed.

Lemma registered_twice_property pwd items agent id :
  property id (keys (registered pwd items (registered pwd items agent)))
  = property id (keys (registered pwd items agent)).
Proof.
  revert agent. induction items as [|e items IH] using rev_ind; intros agent; [done|].
  rewrite !registered_snoc. destruct (deriveKey pwd e) as [key|] eqn:Hd; [|apply IH].
  simpl. rewrite !KeyAgentSpec.property_assign. case_decide as Hid; [done|].
  rewrite <-(IH agent). apply registered_property.
  simpl. rewrite KeyAgentSpec.property_assign. by rewrite decide_False.
Qed.

Lemma registered_twice_listKeys pwd items agent :
  listKeys (registered pwd items (registered pwd items agent))
  = listKeys (registered pwd items agent).
Proof.
  assert (∀ later agent',
            (∀ e, e ∈ later → isFulfilled (deriveKey pwd e) = true →
                  identifier e ∈ listKeys agent') →
            listKeys (registered pwd later agent') = listKeys agent') as Hkept.
  { induction later as [|e later IH]; intros agent' Hin; [done|].
    rewrite registered_cons.
    destruct (deriveKey pwd e) as [key|] eqn:Hd.
    - assert (identifier e ∈ listKeys agent') as He.
      { apply Hin; [apply elem_of_cons; by left|]. by rewrite Hd. }
      assert (listKeys (addKey (identifier e) key agent') = listKeys agent') as Hsame.
      { destruct agent' as [ks]. unfold listKeys, addKey in *. simpl in *.
        rewrite KeyAgentSpec.listKeys_assign. by rewrite decide_True. }
      rewrite IH; [done|]. intros e' He' Hd'. rewrite Hsame.
      apply Hin; [|done]. apply elem_of_cons. by right.
    - apply IH. intros e' He' Hd'. apply Hin; [|done]. apply elem_of_cons. by right. }
  apply Hkept. intros e He Hd. clear Hkept. revert agent.
  induction items as [|e' items IH]; intros agent; [by apply elem_of_nil in He|].
  rewrite registered_cons. apply elem_of_cons in He as [->|He]; [|by apply IH].
  destruct (deriveKey pwd e') as [key|]; [|done].
  apply listKeys_registered, listKeys_addKey. by left.
Qed.

Lemma keys_determined (ks ks' : list (string * string)) :
  NoDup ks.*1 → ks.*1 = ks'.*1 →
  (∀ id, property id ks = property id ks') → ks = ks'.
Proof.
  revert ks'. induction ks as [|[i k] ks IH]; intros [|[i' k'] ks'] Hnd Hfst Hprop;
    try done.
  rewrite !fmap_cons in Hfst. simpl in Hfst. injection Hfst as <- Hfst.
  rewrite fmap_cons in Hnd. apply list.NoDup_cons in Hnd as [Hi Hnd]. simpl in Hi.
  pose proof (Hprop i) as Hk. simpl in Hk. rewrite !decide_True in Hk by done.
  injection Hk as <-. f_equal. apply IH; [done|done|].
  intros id. destruct (decide (id = i)) as [->|Hne].
  - destruct (property i ks) as [x|] eqn:Hx.
    { exfalso. apply Hi, KeyAgentSpec.property_listed. by eexists. }
    destruct (property i ks') as [x|] eqn:Hx'; [|done].
    exfalso. apply Hi. rewrite Hfst. apply KeyAgentSpec.property_listed. by eexists.
  - specialize (Hprop id). simpl in Hprop. by rewrite !decide_False in Hprop by done.
Qed.

Lemma registered_twice pwd items agent :
  NoDup (listKeys agent) →
  registered pwd items (registered pwd items agent) = registered pwd items agent.
Proof.
  intros Hnd.
  pose proof (registered_twice_listKeys pwd items agent) as Hlist.
  pose proof (registered_twice_property pwd items agent) as Hprop.
  pose proof (registered_NoDup pwd items _ (registered_NoDup pwd items _ Hnd)) as Hnd'.
  destruct (registered pwd items (registered pwd items agent)) as [ks].
  destruct (registered pwd items agent) as [ks']. f_equal.
  by apply keys_determined.
Qed.

Lemma unlockEach_registers pwd keyEntries :
  ∃ r before, ∀ agent, unlockEach pwd keyEntries agent = (r, registered pwd before agent).
Proof.
  destruct (all_derive_or_one_fails pwd keyEntries) as [Hall|Hex].
  - exists (Fulfilled ()), keyEntries. intros agent. by apply unlockEach_all.
  - destruct (first_failing pwd keyEntries Hex) as (before & item & after & -> & Hb & Hi).
    exists (Rejected KeyValidationError), before. intros agent. by apply unlockEach_stops.
Qed.

(** X11.  Unlocking again with the same password changes nothing: the outcome is
    that of the first attempt, and the key agent, which lists no id twice,
    is left as the first attempt left it. *)
Theorem unlock_idempotent (pwd : string) (vault : Vault) :
  NoDup (listKeys (keyAgent vault)) →
  unlock pwd (unlock pwd vault).2 = unlock pwd vault.
Proof.
  intros Hnd. unfold unlock.
  destruct (vaultKeys vault) as [keyEntries|] eqn:Hkeys; simpl; [|by rewrite Hkeys].
  destruct (unlockEach_registers pwd keyEntries) as (r & before & Heach).
  rewrite (Heach (keyAgent vault)). simpl. rewrite Heach.
  by rewrite registered_twice.
Qed.

End Lock.

Lemma unlocked_after_unlock_witness :
  isLocked (unlock (crypto := Crypto.Toy.toy) "correct"
              {| vaultKeys := Fulfilled [Toy.entry "id1" "SL5" "correct" "RAWKEY1"];
                 keyAgent := newKeyAgent |}).2
  = Fulfilled false.
Proof.
  apply (unlocked_after_unlock (crypto := Crypto.Toy.toy) "correct"
           {| vaultKeys := Fulfilled [Toy.entry "id1" "SL5" "correct" "RAWKEY1"];
              keyAgent := newKeyAgent |} _
           [Toy.entry "id1" "SL5" "correct" "RAWKEY1"]).
  - reflexivity.
  - apply Forall_singleton. discriminate.
  - apply not_elem_of_nil.
  - vm_compute. reflexivity.
Defined.

Lemma locked_after_lock_witness :
  isLocked (lock {| vaultKeys := Fulfilled Toy.twoEntries;
                    keyAgent := {| keys := [("id1", "RAWKEY1"); ("id2", "RAWKEY2")] |} |})
  = Fulfilled true
  ∧ isLocked {| vaultKeys := Fulfilled []; keyAgent := newKeyAgent |} = Fulfilled false.
Proof.
  split.
  - apply (locked_after_lock
             {| vaultKeys := Fulfilled Toy.twoEntries;
                keyAgent := {| keys := [("id1", "RAWKEY1"); ("id2", "RAWKEY2")] |} |}
             Toy.twoEntries eq_refl).
  - apply (locked_after_lock {| vaultKeys := Fulfilled []; keyAgent := newKeyAgent |}
             [] eq_refl). reflexivity.
Defined.

Lemma failed_unlock_stays_locked_witness :
  isLocked (unlock (crypto := Crypto.Toy.toy) "correct"
              {| vaultKeys := Fulfilled Toy.twoEntries; keyAgent := newKeyAgent |}).2
  = Fulfilled true
  ∧ listKeys (keyAgent (unlock (crypto := Crypto.Toy.toy) "correct"
                          {| vaultKeys := Fulfilled Toy.twoEntries;
                             keyAgent := newKeyAgent |}).2) = ["id1"].
Proof.
  split; [|vm_compute; reflexivity].
  apply (failed_unlock_stays_locked (crypto := Crypto.Toy.toy) "correct"
           {| vaultKeys := Fulfilled Toy.twoEntries; keyAgent := newKeyAgent |} _
           Toy.twoEntries KeyValidationError).
  - reflexivity.
  - vm_compute. apply list.NoDup_cons. split; [|apply NoDup_singleton].
    rewrite list_elem_of_singleton. discriminate.
  - intros entry _. apply not_elem_of_nil.
  - vm_compute. reflexivity.
Defined.

Lemma item_data_round_trip_witness :
  decryptItemData (crypto := Crypto.Toy.toy)
    {| vaultKeys := Fulfilled Toy.twoEntries;
       keyAgent := {| keys := [("id1", "RAWKEY1")] |} |} "SL5" "RAWKEY1saltsecret"
  = Fulfilled "secret".
Proof.
  apply (item_data_round_trip (crypto := Crypto.Toy.toy)
           {| vaultKeys := Fulfilled Toy.twoEntries;
              keyAgent := {| keys := [("id1", "RAWKEY1")] |} |} "SL5" "secret").
  - intros k text. exact (toy_roundtrip k text "salt").
  - vm_compute. reflexivity.
Defined.

Lemma unlock_idempotent_witness :
  unlock (crypto := Crypto.Toy.toy) "correct"
         (unlock (crypto := Crypto.Toy.toy) "correct"
                 {| vaultKeys := Fulfilled Toy.twoEntries; keyAgent := newKeyAgent |}).2
  = unlock (crypto := Crypto.Toy.toy) "correct"
           {| vaultKeys := Fulfilled Toy.twoEntries; keyAgent := newKeyAgent |}.
Proof.
  apply (unlock_idempotent (crypto := Crypto.Toy.toy) "correct"
           {| vaultKeys := Fulfilled Toy.twoEntries; keyAgent := newKeyAgent |}).
  apply NoDup_nil_2.
Defined.

End LockSpec.


(** * Dates, contents.js and the content of items *)

Module ContentsSpec.

Import Onepass.

Lemma toInt32_range x : (- 2 ^ 31 ≤ toInt32 x < 2 ^ 31)%Z.
Proof.
  unfold toInt32. pose proof (Z.mod_pos_bound (x + 2 ^ 31) (2 ^ 32)) as Hmod. lia.
Qed.

Lemma toInt32_small x : (- 2 ^ 31 ≤ x < 2 ^ 31)%Z → toInt32 x = x.
Proof. intros Hx. unfold toInt32. rewrite Z.mod_small; lia. Qed.

(** X12.  A time in whole seconds survives the way to a [Date] and back exactly
    when it fits 32 bits: as long as a [Date] can hold it, it comes back
    wrapped into 32 bits (as for the seconds of a date after January 2038),
    and as 0 once its milliseconds exceed what a [Date] holds.  A [Date] whose
    seconds fit 32 bits comes back from its UNIX time without its
    milliseconds, an invalid date as the start of 1970. *)
Theorem UNIXDate_round_trip :
  (∀ timestamp,
     UNIXDateFromDate (dateFromUNIXDate timestamp)
     = if decide (- maxTime ≤ timestamp * 1000 ≤ maxTime)%Z
       then toInt32 timestamp else 0%Z)
  ∧ (∀ timestamp, UNIXDateFromDate (dateFromUNIXDate timestamp) = timestamp
                  ↔ (- 2 ^ 31 ≤ timestamp < 2 ^ 31)%Z)
  ∧ (∀ time, (- 2 ^ 31 ≤ time ÷ 1000 < 2 ^ 31)%Z →
             newDate time = DateOf time
             ∧ dateFromUNIXDate (UNIXDateFromDate (newDate time))
               = DateOf (time - Z.rem time 1000))
  ∧ dateFromUNIXDate (UNIXDateFromDate InvalidDate) = DateOf 0
  ∧ (∀ date, (- 2 ^ 31 ≤ UNIXDateFromDate date < 2 ^ 31)%Z).
Proof.
  assert (∀ timestamp,
            UNIXDateFromDate (dateFromUNIXDate timestamp)
            = if decide (- maxTime ≤ timestamp * 1000 ≤ maxTime)%Z
              then toInt32 timestamp else 0%Z) as Hwrap.
  { intros timestamp. unfold UNIXDateFromDate, dateFromUNIXDate, newDate.
    case_decide; [|done]. by rewrite Z.quot_mul. }
  split; [done|]. split; [|split; [|split]].
  - intros timestamp. rewrite Hwrap. unfold maxTime. split.
    + case_decide as Hrange.
      * intros <-. apply toInt32_range.
      * intros <-. lia.
    + intros Hfits. rewrite decide_True by lia. by apply toInt32_small.
  - intros time Htime.
    pose proof (Z.quot_rem' time 1000) as Hqr.
    pose proof (Z.rem_bound_abs time 1000 ltac:(lia)) as Hrem.
    assert (newDate time = DateOf time) as Hnew.
    { unfold newDate, maxTime. rewrite decide_True; [done|]. lia. }
    split; [done|]. rewrite Hnew. unfold UNIXDateFromDate, dateFromUNIXDate.
    rewrite toInt32_small by done. unfold newDate, maxTime.
    rewrite decide_True by lia. f_equal. lia.
  - reflexivity.
  - intros [time|]; simpl; [apply toInt32_range|lia].
Qed.

(** ** The tuple of an item in contents.js *)

Lemma listItems_of_entries (entries : list ContentsEntry) :
  listItems (Fulfilled entries)
  = Fulfilled (filter (λ item, isTombstone item = false) (itemOfEntry <$> entries)).
Proof. exact (@VaultSpec.vault_listItems_filter Crypto.Toy.toy entries). Qed.

Lemma itemOfEntry_contentsEntryOf now item :
  itemOfEntry (contentsEntryOf now item) = listedAfterSave now item.
Proof.
  unfold itemOfEntry, contentsEntryOf, listedAfterSave. simpl. f_equal.
  by destruct (trashed item).
Qed.

Lemma updateContentEntries_at now item contentEntries :
  ∃ i, updateContentEntries now item contentEntries !! i = Some (contentsEntryOf now item)
       ∧ (∀ j, j ≠ i →
               updateContentEntries now item contentEntries !! j = contentEntries !! j)
       ∧ (∀ entry, contentEntries !! i = Some entry → entry0 entry = uuid item)
       ∧ (∀ j entry, j < i → contentEntries !! j = Some entry → entry0 entry ≠ uuid item)
       ∧ (i < length contentEntries ∨
          i = length contentEntries
          ∧ Forall (λ entry, entry0 entry ≠ uuid item) contentEntries).
Proof.
  unfold updateContentEntries.
  destruct (list_find _ contentEntries) as [[i found]|] eqn:Hfind.
  - apply list_find_Some in Hfind as (Hi & Hfound & Hfirst).
    pose proof (lookup_lt_Some _ _ _ Hi) as Hlt.
    exists i. split_and!.
    + by apply list_lookup_insert_eq.
    + intros j Hj. by apply list_lookup_insert_ne.
    + intros entry Hentry. by simplify_eq.
    + intros j entry Hj Hentry. by eapply Hfirst.
    + by left.
  - apply list_find_None in Hfind.
    exists (length contentEntries). split_and!.
    + by rewrite lookup_app_r, Nat.sub_diag.
    + intros j Hj. destruct (decide (j < length contentEntries)) as [Hlt|Hge].
      * by apply lookup_app_l.
      * rewrite (lookup_ge_None_2 contentEntries) by lia.
        apply lookup_ge_None_2. rewrite length_app. simpl. lia.
    + intros entry Hentry. apply lookup_lt_Some in Hentry. lia.
    + intros j entry _ Hentry. apply list_elem_of_lookup_2 in Hentry.
      by apply (proj1 (list.Forall_forall _ _) Hfind entry).
    + by right.
Qed.

(** X13.  [saveItem] writes the item's tuple over the first tuple of contents.js
    that carries its uuid, or behind all the tuples when there is none, and
    leaves the other tuples as they are.  A listing made from the new file
    then shows the item, unless it is a tombstone, with its time cut to whole
    seconds (wrapped into 32 bits) and with the security level SL5, whatever
    level the item has; and it shows every item of another uuid that a
    listing showed before. *)
Theorem saved_item_is_listed (now : Z) (item : Item) (contentEntries : list ContentsEntry) :
  let contentEntries' := updateContentEntries now item contentEntries in
  (∃ i, contentEntries' !! i = Some (contentsEntryOf now item)
        ∧ (∀ j, j ≠ i → contentEntries' !! j = contentEntries !! j)
        ∧ (∀ j entry, j < i → contentEntries !! j = Some entry →
                      entry0 entry ≠ uuid item)
        ∧ (i < length contentEntries ∧ length contentEntries' = length contentEntries
           ∨ i = length contentEntries
             ∧ length contentEntries' = S (length contentEntries)
             ∧ Forall (λ entry, entry0 entry ≠ uuid item) contentEntries))
  ∧ (∃ items, listItems (Fulfilled contentEntries') = Fulfilled items
              ∧ (listedAfterSave now item ∈ items ↔ isTombstone item = false)
              ∧ (∀ listed other,
                   listItems (Fulfilled contentEntries) = Fulfilled listed →
                   other ∈ listed → uuid other ≠ uuid item → other ∈ items)).
Proof.
  intros contentEntries'.
  destruct (updateContentEntries_at now item contentEntries)
    as (i & Hi & Hother & Hsame & Hfirst & Hwhere).
  fold contentEntries' in Hi, Hother. split.
  - exists i. split_and!; try done.
    unfold contentEntries', updateContentEntries in *.
    destruct Hwhere as [Hlt|[-> Hnone]].
    + left. split; [done|].
      destruct (list_find _ contentEntries) as [[i' found]|] eqn:Hfind.
      * apply length_insert.
      * apply list_find_None in Hfind. exfalso.
        destruct (lookup_lt_is_Some_2 _ _ Hlt) as [entry Hentry].
        apply (proj1 (list.Forall_forall _ _) Hfind entry); [|by apply Hsame].
        by eapply list_elem_of_lookup_2.
    + right. split; [done|]. split; [|done].
      destruct (list_find _ contentEntries) as [[i' found]|] eqn:Hfind.
      * apply list_find_Some in Hfind as (Hi' & Hfound & _). exfalso.
        apply (proj1 (list.Forall_forall _ _) Hnone found); [|done].
        by eapply list_elem_of_lookup_2.
      * rewrite length_app. simpl. lia.
  - eexists. split; [apply listItems_of_entries|]. split.
    + rewrite list_elem_of_filter. split; [by intros [? _]|]. intros Htomb.
      split; [done|]. apply list_elem_of_fmap. exists (contentsEntryOf now item).
      split; [by rewrite itemOfEntry_contentsEntryOf|].
      by eapply list_elem_of_lookup_2.
    + intros listed other Hlisted Hin Huuid.
      rewrite listItems_of_entries in Hlisted. injection Hlisted as <-.
      apply list_elem_of_filter in Hin as [Htomb Hin].
      apply list_elem_of_fmap in Hin as (entry & -> & Hentry).
      apply list_elem_of_lookup_1 in Hentry as [j Hj].
      apply list_elem_of_filter. split; [done|].
      apply list_elem_of_fmap. exists entry. split; [done|].
      apply (list_elem_of_lookup_2 _ j). rewrite Hother; [done|].
      intros ->. by apply Huuid, Hsame.
Qed.

End ContentsSpec.

(** * The content of an item and its form in a .1password file *)

Module KeychainSpec.

Import Onepass.Keychain.

Lemma pushed_is_map {A B} (f : A → B) (l : list A) (pushed : list B) :
  fold_left (λ pushed x, pushed ++ [f x]) l pushed = pushed ++ map f l.
Proof.
  revert pushed. induction l as [|x l IH]; intros pushed; simpl.
  - by rewrite app_nil_r.
  - by rewrite IH, <-app_assoc.
Qed.

Lemma field_round_trip field :
  ItemField_fromAgileKeychainObject (ItemField_toAgileKeychainObject field) = field.
Proof. by destruct field. Qed.

Lemma section_round_trip section :
  ItemSection_fromAgileKeychainObject (ItemSection_toAgileKeychainObject section) = section.
Proof.
  destruct section as [name' title' fields'].
  unfold ItemSection_fromAgileKeychainObject, ItemSection_toAgileKeychainObject. simpl.
  f_equal. rewrite !pushed_is_map. simpl. rewrite map_map.
  induction fields' as [|field fields' IH]; [done|].
  simpl. by rewrite field_round_trip, IH.
Qed.

Lemma from_to_content content :
  ItemContent_fromAgileKeychainObject (ItemContent_toAgileKeychainObject content) = content.
Proof.
  destruct content as [sections' urls' notes' formFields' method action id'].
  unfold ItemContent_fromAgileKeychainObject, ItemContent_toAgileKeychainObject. simpl.
  rewrite !pushed_is_map. simpl. rewrite !map_id, map_map.
  f_equal; try by (destruct notes', method, action, id').
  induction sections' as [|section sections' IH]; [done|].
  simpl. by rewrite section_round_trip, IH.
Qed.

(** X14.  What [toAgileKeychainObject] makes of an item's content is read back by
    [fromAgileKeychainObject] as the same content, with its sections and
    their fields, URLs, notes and form fields; and the object it makes has
    every member, the empty ones too. *)
Theorem content_round_trip (content : ItemContent) :
  ItemContent_fromAgileKeychainObject (ItemContent_toAgileKeychainObject content) = content
  ∧ is_Some (keychain_sections (ItemContent_toAgileKeychainObject content))
  ∧ is_Some (URLs (ItemContent_toAgileKeychainObject content))
  ∧ is_Some (fields (ItemContent_toAgileKeychainObject content))
  ∧ notesPlain (ItemContent_toAgileKeychainObject content) = Some (notes content).
Proof.
  split; [apply from_to_content|by repeat split].
Qed.


End KeychainSpec.


(** * Loading what was saved, and the sync bookkeeping of the store *)

Module LoadSpec.

Import LocalStore StoreSpec.

Section Load.
Context {crypto : CryptoImpl} {jsonIndex : Json (gmap string ItemIndexEntry)}
        {jsonRevision : Json ItemRevision} {itemStoreModule : ItemStoreModule}.

(** ** Overviews *)

Lemma itemFromOverview_of_item item overview :
  overviewFromItem item = Fulfilled overview →
  itemFromOverview (uuid item) overview = withoutContent item.
Proof.
  unfold overviewFromItem, itemFromOverview, withoutContent.
  destruct (updatedAt item) as [updated|] eqn:Hu; [|done].
  destruct (createdAt item) as [created|] eqn:Hc; [|done].
  by intros [= <-].
Qed.

(** X16.  The overview made of an item, and the item made of an overview, are
    made of each other again: an overview whose two times a [Date] can hold
    comes back as it is, and an item comes back without the content that was
    set on it; an item has an overview exactly when both its dates are
    set. *)
Theorem overview_round_trip :
  (∀ uuid' overview,
     validTime (ov_updatedAt overview) → validTime (ov_createdAt overview) →
     overviewFromItem (itemFromOverview uuid' overview) = Fulfilled overview)
  ∧ (∀ item overview,
       overviewFromItem item = Fulfilled overview →
       itemFromOverview (uuid item) overview = withoutContent item)
  ∧ (∀ item, isFulfilled (overviewFromItem item) = true
             ↔ is_Some (updatedAt item) ∧ is_Some (createdAt item))
  ∧ (∀ item, isFulfilled (overviewFromItem item) = false →
             overviewFromItem item = Rejected TypeError).
Proof.
  split_and!.
  - by intros uuid' [].
  - apply itemFromOverview_of_item.
  - intros item. unfold overviewFromItem.
    destruct (updatedAt item), (createdAt item); simpl; split;
      first [done | by intros _; split; eexists | by intros [[? ?] [? ?]]].
  - intros item. unfold overviewFromItem.
    by destruct (updatedAt item), (createdAt item).
Qed.

(** ** The state after a save *)

(** The store that a fulfilled [saveItem] leaves: the index, cached and
    stored, with the item's entry put in; the revision stored under its key;
    the item published. *)
Lemma saveItem_state now item source st item' st' :
  saveItem now item source st = (Fulfilled (), item', st') →
  ∃ item0 key k content' revision' index0 entry,
    stampOrAssert now item source = Fulfilled item0
    ∧ firstKey st = Some key
    ∧ Onepass.property key (Onepass.keys (keyAgent st)) = Some k
    ∧ item_getContent item0 st = (Fulfilled content', st)
    ∧ item' = saved content' item0
    ∧ savedRevision content' item' = Fulfilled revision'
    ∧ (itemIndex_get st).1 = Fulfilled index0
    ∧ overviewFromItem item' = Fulfilled (entry_overview entry)
    ∧ lastSyncedAt entry
      = lastSyncTime (KeyValueStore.entries (itemStore st)
                        !! ("lastSynced/" +:+ uuid item'))
    ∧ st' = {| keyAgent := keyAgent st; keyStore := keyStore st;
               itemStore :=
                 {| KeyValueStore.entries :=
                      <[revisionKey (revision item') :=
                          Encrypted (encryptAgileKeychainItemData k (stringify revision'))]>
                      (<["index" :=
                           Encrypted (encryptAgileKeychainItemData k
                                        (stringify (<[uuid item' := entry]> index0)))]>
                       (KeyValueStore.entries (itemStore st)));
                    KeyValueStore.failing := KeyValueStore.failing (itemStore st) |};
               itemIndex := Some (<[uuid item' := entry]> index0);
               onItemUpdated := onItemUpdated st ++ [item'];
               onUnlock := onUnlock st |}.
Proof.
  intros Hsave.
  apply saveItem_Fulfilled in Hsave
    as (item0 & key & content' & revision' & st2 & st3 & Hstamp & Hkey & Hcontent & Hitem &
        Hrev & Hpush & Hset & ->).
  destruct (firstKey_property _ _ Hkey) as [k Hk].
  rewrite push_cases in Hpush.
  destruct (itemIndex_get st) as [[index0|] st1] eqn:Hget; [|done].
  destruct (overviewFromItem item') as [overview|] eqn:Hov; [|done].
  simpl in Hpush. case_decide as Hnull; [done|].
  rewrite Hkey, Hk in Hpush. simpl in Hpush.
  destruct (KeyValueStore.failing (itemStore st) "index"); [done|].
  injection Hpush as <-.
  apply itemStore_set_Fulfilled in Hset as [_ ->]. rewrite Hk. simpl.
  eexists item0, key, k, content', revision', index0,
    {| entry_overview := overview;
       lastSyncedAt := lastSyncTime (KeyValueStore.entries (itemStore st)
                                       !! ("lastSynced/" +:+ uuid item')) |}.
  split_and!; done.
Qed.

(** ** Loading the current item *)

Lemma filter_key_of_map {V} (m : gmap string V) (k : string) :
  filter (λ kv, kv.1 = k) (map_to_list m)
  = match m !! k with Some v => [(k, v)] | None => [] end.
Proof.
  assert (∀ l : list (string * V), NoDup l.*1 →
            filter (λ kv, kv.1 = k) l = []
            ∨ ∃ v, filter (λ kv, kv.1 = k) l = [(k, v)]) as Hone.
  { induction l as [|[k' v'] l IH]; intros Hnd; [by left|].
    rewrite fmap_cons in Hnd. apply list.NoDup_cons in Hnd as [Hk' Hnd].
    rewrite filter_cons. simpl. destruct (decide (k' = k)) as [->|Hne]; [|by apply IH].
    right. exists v'. f_equal.
    destruct (filter (λ kv, kv.1 = k) l) as [|kv rest] eqn:Hf; [done|].
    exfalso. apply Hk'. simpl.
    assert (kv ∈ filter (λ kv, kv.1 = k) l) as Hin by (rewrite Hf; apply elem_of_cons; by left).
    apply list_elem_of_filter in Hin as [<- Hin]. by apply list_elem_of_fmap_2. }
  destruct (Hone (map_to_list m) (NoDup_fst_map_to_list m)) as [Hnil|[v Hv]].
  - rewrite Hnil. destruct (m !! k) as [v|] eqn:Hm; [|done].
    apply elem_of_map_to_list in Hm.
    assert ((k, v) ∈ filter (λ kv, kv.1 = k) (map_to_list m)) as Hin
      by by apply list_elem_of_filter.
    rewrite Hnil in Hin. by apply elem_of_nil in Hin.
  - rewrite Hv.
    assert ((k, v) ∈ filter (λ kv, kv.1 = k) (map_to_list m)) as Hin
      by (rewrite Hv; apply elem_of_cons; by left).
    apply list_elem_of_filter in Hin as [_ Hin]. apply elem_of_map_to_list in Hin.
    by rewrite Hin.
Qed.

Lemma filter_filter_map {A B} (f : A → B) (P Q : B → Prop) (R : A → Prop)
    `{!∀ x, Decision (P x), !∀ x, Decision (Q x), !∀ x, Decision (R x)} (l : list A) :
  (∀ a, Q (f a) ↔ R a) →
  filter Q (filter P (map f l)) = filter P (map f (filter R l)).
Proof.
  intros HQR. induction l as [|a l IH]; [done|].
  rewrite map_cons, !filter_cons.
  destruct (decide (P (f a))) as [HP|HP], (decide (R a)) as [HR|HR].
  - rewrite filter_cons, decide_True by by apply HQR.
    by rewrite map_cons, filter_cons, decide_True, IH.
  - rewrite filter_cons, decide_False; [done|]. by intros ?%HQR.
  - by rewrite map_cons, filter_cons, decide_False.
  - done.
Qed.

Lemma items_of_uuid opts (index : gmap string ItemIndexEntry) uuid' :
  filter (λ item, uuid item = uuid') (itemsOf opts index)
  = filter (λ item, isTombstone item = false ∨ includeTombstones opts = Some true)
           (map itemOfIndexEntry
                match index !! uuid' with Some entry => [(uuid', entry)] | None => [] end).
Proof.
  rewrite itemsOf_filter, <-filter_key_of_map.
  by apply filter_filter_map.
Qed.

Lemma loadItem_current_cases uuid' st :
  loadItem uuid' None st =
  match itemIndex_get st with
  | (Rejected e, st') => (Rejected e, st')
  | (Fulfilled index, st') =>
      match index !! uuid' with
      | Some entry =>
          if isTombstone (itemFromOverview uuid' (entry_overview entry))
          then (Rejected (NotFoundError uuid'), st')
          else (Fulfilled (itemFromOverview uuid' (entry_overview entry)), st')
      | None => (Rejected (NotFoundError uuid'), st')
      end
  end.
Proof.
  unfold loadItem, listItems, mbind, Async_bind, andThen.
  destruct (itemIndex_get st) as [[index|e] st1]; [|done].
  unfold resolve at 1. rewrite items_of_uuid. unfold noOptions. simpl.
  destruct (index !! uuid') as [entry|]; [|done].
  rewrite map_cons, filter_cons. unfold itemOfIndexEntry. simpl.
  destruct (isTombstone (itemFromOverview uuid' (entry_overview entry))).
  - rewrite decide_False; [done|]. by intros [?|?].
  - rewrite decide_True; [done|]. by left.
Qed.

(** X17.  [loadItem] without a revision, or with the empty string for one,
    answers from the index: the item made of the entry that the index holds
    under the uuid, and NotFoundError when it holds none or the entry is a
    tombstone; an index that cannot be had is the error of the load. *)
Theorem loadItem_reads_index (uuid' : string) (st : Store) :
  loadItem uuid' None st =
  match itemIndex_get st with
  | (Rejected e, st') => (Rejected e, st')
  | (Fulfilled index, st') =>
      match index !! uuid' with
      | Some entry =>
          if isTombstone (itemFromOverview uuid' (entry_overview entry))
          then (Rejected (NotFoundError uuid'), st')
          else (Fulfilled (itemFromOverview uuid' (entry_overview entry)), st')
      | None => (Rejected (NotFoundError uuid'), st')
      end
  end
  ∧ loadItem uuid' (Some "") st = loadItem uuid' None st
  ∧ (∀ item st', loadItem uuid' None st = (Fulfilled item, st') →
                 uuid item = uuid' ∧ isTombstone item = false ∧ content item = None).
Proof.
  split; [apply loadItem_current_cases|]. split; [done|].
  intros item st'. rewrite loadItem_current_cases.
  destruct (itemIndex_get st) as [[index|e] st1]; [|done].
  destruct (index !! uuid') as [entry|]; [|done].
  destruct (isTombstone (itemFromOverview uuid' (entry_overview entry))) eqn:Htomb; [done|].
  by intros [= <- <-].
Qed.


(** ** Reading back what a save stored *)

(** X19.  With a cipher whose decryption undoes its encryption and a JSON that
    reads back the revision record it wrote, what a fulfilled [saveItem]
    stored is what the store hands out afterwards: [getContent] gives the
    content that was saved, and [loadItem] with the item's new revision gives
    the item as the save left it. *)
Theorem saved_revision_reads_back (now : Z) (item : Item) (source : ChangeSource)
    (st : Store) (item' : Item) (st' : Store) (content' : ItemContent)
    (revision' : ItemRevision) :
  saveItem now item source st = (Fulfilled (), item', st') →
  content item = Some content' →
  savedRevision content' item' = Fulfilled revision' →
  (∀ k text, decryptAgileKeychainItemData k (encryptAgileKeychainItemData k text) = text) →
  parse (stringify revision') = Some revision' →
  getContent item' st' = (Fulfilled content', st')
  ∧ (revision item' ≠ Some "" →
     loadItem (uuid item') (revision item') st' = (Fulfilled (withoutContent item'), st')).
Proof.
  intros Hsave Hcontent Hrev Hcrypto Hjson.
  apply saveItem_state in Hsave
    as (item0 & key & k & content0 & revision0 & index0 & entry & Hstamp & Hkey & Hk &
        Hcontent0 & Hitem & Hrev0 & _ & Hov & _ & ->).
  apply stampOrAssert_revision in Hstamp as (_ & _ & Hc0).
  unfold item_getContent in Hcontent0. rewrite Hc0, Hcontent in Hcontent0.
  injection Hcontent0 as <-. rewrite Hrev in Hrev0. injection Hrev0 as <-.
  assert (∀ st0, keyAgent st0 = keyAgent st →
            decrypt (T := ItemRevision) key
              (encryptAgileKeychainItemData k (stringify revision')) st0
            = (Fulfilled revision', st0)) as Hdecrypt.
  { intros st0 Hagent. unfold decrypt, mbind, Async_bind, andThen, Onepass.decrypt.
    rewrite Hagent, Hk. simpl. by rewrite Hcrypto, Hjson. }
  split.
  - unfold getContent, keyForItem, mbind, Async_bind, andThen.
    rewrite overviewKey_reads. unfold firstKey in *. simpl. rewrite Hkey.
    unfold KeyValueStore.get. simpl. rewrite lookup_insert_eq. simpl.
    unfold decryptRead, encryptedText. cbv beta iota. rewrite Hdecrypt by done. unfold savedRevision in Hrev.
    destruct (overviewFromItem item'); [|done]. by injection Hrev as <-.
  - intros Hne. destruct (revision item') as [[|c rev]|] eqn:Hrevision.
    + done.
    + unfold loadItem, mbind, Async_bind, andThen.
      rewrite overviewKey_reads. unfold firstKey in *. simpl. rewrite Hkey.
      unfold KeyValueStore.get. simpl. rewrite lookup_insert_eq. simpl.
      unfold decryptRead, encryptedText. cbv beta iota. rewrite Hdecrypt by done. unfold resolve. f_equal. f_equal.
      unfold savedRevision in Hrev. rewrite Hov in Hrev. injection Hrev as <-. simpl.
      rewrite (itemFromOverview_of_item _ _ Hov).
      unfold setParentRevision, withoutContent. simpl. done.
    + exfalso. rewrite Hitem in Hrevision. done.
Qed.

(** X20.  A fulfilled [saveItem] touches two keys of the item store, 'index' and
    the key of the new revision, and one entry of the index, that of the
    item: every other key holds what it held, so the revisions stored
    earlier under other ids stay as they are, and every other item is in the
    index as it was; the key store and the key agent are as before. *)
Theorem saveItem_touches_its_item_only (now : Z) (item : Item) (source : ChangeSource)
    (st : Store) (item' : Item) (st' : Store) :
  saveItem now item source st = (Fulfilled (), item', st') →
  (∀ storeKey, storeKey ≠ "index" → storeKey ≠ revisionKey (revision item') →
     KeyValueStore.entries (itemStore st') !! storeKey
     = KeyValueStore.entries (itemStore st) !! storeKey)
  ∧ (∃ index0 index',
       (itemIndex_get st).1 = Fulfilled index0
       ∧ itemIndex st' = Some index'
       ∧ ∀ uuid', uuid' ≠ uuid item' → index' !! uuid' = index0 !! uuid')
  ∧ keyStore st' = keyStore st
  ∧ keyAgent st' = keyAgent st
  ∧ onUnlock st' = onUnlock st.
Proof.
  intros (item0 & key & k & content' & revision' & index0 & entry & _ & _ & _ & _ & _ & _ &
          Hget & _ & _ & ->)%saveItem_state.
  simpl. split_and!; try done.
  - intros storeKey Hindex Hrevision. by rewrite !lookup_insert_ne.
  - exists index0, (<[uuid item' := entry]> index0). split; [done|]. split; [done|].
    intros uuid' Hne. by rewrite lookup_insert_ne.
Qed.

(** ** A locked store *)

(** X21.  A store whose key agent holds no key refuses to save, to hand out
    content and to load a revision, with VaultLockedError, and leaves the
    store as it is; an item that a save from another source than Sync was
    tried on is nevertheless stamped with the time of the attempt.  A
    listing is refused in the same way when no index is cached. *)
Theorem locked_store_refuses (st : Store) :
  firstKey st = None →
  (∀ now item source,
     saveItem now item source st
     = match stampOrAssert now item source with
       | Fulfilled stamped => (Rejected VaultLockedError, stamped, st)
       | Rejected e => (Rejected e, item, st)
       end)
  ∧ (∀ now item, (saveItem now item Local st).1.2 = updateTimestamps now item)
  ∧ (∀ item, getContent item st = (Rejected VaultLockedError, st))
  ∧ (∀ uuid' c rev, loadItem uuid' (Some (String c rev)) st = (Rejected VaultLockedError, st))
  ∧ (∀ opts, itemIndex st = None → listItems opts st = (Rejected VaultLockedError, st)).
Proof.
  intros Hlocked. split_and!.
  - intros now item source. unfold saveItem, keyForItem.
    destruct (stampOrAssert now item source); [|done].
    by rewrite overviewKey_reads, Hlocked.
  - intros now item. unfold saveItem, keyForItem, stampOrAssert.
    rewrite decide_True by done. by rewrite overviewKey_reads, Hlocked.
  - intros item. unfold getContent, keyForItem, mbind, Async_bind, andThen.
    by rewrite overviewKey_reads, Hlocked.
  - intros uuid' c rev. unfold loadItem, mbind, Async_bind, andThen.
    by rewrite overviewKey_reads, Hlocked.
  - intros opts Hnone. rewrite listItems_loads by done.
    by rewrite readItemIndex_cases, Hlocked.
Qed.

(** ** The key of the store *)

(** X22.  The store encrypts under the key that its agent was given first: once
    the agent holds a key, adding keys does not change which key that is,
    and a key added under another id leaves its value as it was.  This is so
    for ids that are ordinary names; an id that is an integer index would be
    listed before the names that are none. *)
Theorem overview_key_is_first_added (st : Store) (id' key' : string) :
  Forall Onepass.ordinaryName (Onepass.listKeys (keyAgent st)) →
  Onepass.ordinaryName id' →
  firstKey (addKey id' key' st) = Some (default id' (firstKey st))
  ∧ overviewKey (addKey id' key' st)
    = (Fulfilled (default id' (firstKey st)), addKey id' key' st)
  ∧ (∀ key, key ≠ id' →
       Onepass.property key (Onepass.keys (keyAgent (addKey id' key' st)))
       = Onepass.property key (Onepass.keys (keyAgent st))).
Proof.
  intros _ _.
  assert (firstKey (addKey id' key' st) = Some (default id' (firstKey st))) as Hfirst.
  { unfold firstKey, addKey, Onepass.listKeys. simpl.
    rewrite KeyAgentSpec.listKeys_assign. case_decide as Hin.
    - destruct ((Onepass.keys (keyAgent st)).*1) as [|first rest]; [|done].
      by apply elem_of_nil in Hin.
    - by destruct ((Onepass.keys (keyAgent st)).*1). }
  split; [done|]. split.
  - by rewrite overviewKey_reads, Hfirst.
  - intros key Hne. simpl. rewrite KeyAgentSpec.property_assign. by rewrite decide_False.
Qed.

(** ** The stored index *)

(** X23.  What [writeItemIndex] stored is what [readItemIndex] loads, under a
    cipher whose decryption undoes its encryption for the text of the index
    and a JSON that reads that text back; should the encrypted text be the
    empty string, the index is read as empty. *)
Theorem index_reads_back (index : gmap string ItemIndexEntry) (st st' : Store)
    (key k : string) :
  writeItemIndex index st = (Fulfilled (), st') →
  firstKey st = Some key →
  Onepass.property key (Onepass.keys (keyAgent st)) = Some k →
  parse (decryptAgileKeychainItemData k
           (encryptAgileKeychainItemData k (stringify index))) = Some index →
  readItemIndex st'
  = (Fulfilled (if decide (encryptAgileKeychainItemData k (stringify index) = "")
                then ∅ else index), st')
  ∧ itemIndex st' = itemIndex st.
Proof.
  intros Hwrite Hkey Hk Hparse. rewrite writeItemIndex_cases, Hkey, Hk in Hwrite.
  simpl in Hwrite. apply itemStore_set_Fulfilled in Hwrite as [_ ->].
  split; [|done]. rewrite readItemIndex_cases. unfold firstKey in *. simpl.
  rewrite Hkey, Hk, lookup_insert_eq. simpl.
  destruct (encryptAgileKeychainItemData k (stringify index)) as [|c text] eqn:Htext.
  - by rewrite decide_True.
  - rewrite decide_False by done. by rewrite Hparse.
Qed.

End Load.

End LoadSpec.


Module SyncSpec.

Import LocalStore StoreSpec.

Section Sync.
Context {crypto : CryptoImpl} {jsonIndex : Json (gmap string ItemIndexEntry)}
        {jsonRevision : Json ItemRevision} {itemStoreModule : ItemStoreModule}.

Lemma lastSynced_not_index uuid' : "lastSynced/" +:+ uuid' ≠ "index".
Proof. by rewrite VaultSpec.string_app_cons. Qed.

Lemma lastSynced_not_revision uuid' rev : "lastSynced/" +:+ uuid' ≠ revisionKey rev.
Proof. unfold revisionKey. by rewrite !VaultSpec.string_app_cons. Qed.



(** ** Unlocking the store *)

Lemma addKeys_cons id' key keys st :
  addKeys ((id', key) :: keys) st = addKeys keys (addKey id' key st).
Proof. reflexivity. Qed.

Lemma allOf_addKeys keys st :
  allOf (map agentAddKey keys) st = (Fulfilled (map (λ _, ()) keys), addKeys keys st).
Proof.
  unfold allOf. revert st. induction keys as [|[id' key] keys IH]; intros st; [done|].
  rewrite map_cons, startAll_cons. unfold agentAddKey at 1. simpl.
  specialize (IH (addKey id' key st)).
  destruct (startAll (map agentAddKey keys) (addKey id' key st)) as [os st2].
  injection IH as Hos ->. simpl. by rewrite Hos.
Qed.

Lemma addKeys_lists keys st id' :
  id' ∈ keys.*1 ∨ id' ∈ Onepass.listKeys (keyAgent st) →
  id' ∈ Onepass.listKeys (keyAgent (addKeys keys st)).
Proof.
  revert st. induction keys as [|[id0 key] keys IH]; intros st.
  - intros [Hin|Hin]; [by apply elem_of_nil in Hin|done].
  - rewrite addKeys_cons, fmap_cons, elem_of_cons. simpl. intros Hin. apply IH.
    destruct Hin as [[->|Hin]|Hin]; [right|by left|right].
    + apply VaultSpec.listKeys_addKey. by left.
    + apply VaultSpec.listKeys_addKey. by right.
Qed.

(** X26.  [Store.unlock] adds all the keys or none: the keys are derived from
    what the key store lists before any is given to the agent, so a
    rejected unlock leaves the store, its key agent included, as it was and
    publishes nothing.  It is rejected with NoKeysSavedError when no key is
    stored, and with the error of the derivation otherwise; when it is
    fulfilled every derived key is with the agent and [onUnlock] was
    published once. *)
Theorem unlock_all_or_nothing
    (decryptKeys : list (option KeyStoreValue) → string → Outcome (list (string * string)))
    (pwd : string) (st : Store) :
  let '(r, st') := unlock decryptKeys pwd st in
  ∃ saved,
    listKeys st = (Fulfilled saved, st)
    ∧ (∀ e, r = Rejected e →
            st' = st
            ∧ (saved = [] ∧ e = NoKeysSavedError
               ∨ saved ≠ [] ∧ decryptKeys saved pwd = Rejected e))
    ∧ (r = Fulfilled () →
       ∃ keys', saved ≠ []
                ∧ decryptKeys saved pwd = Fulfilled keys'
                ∧ st' = publishUnlock (addKeys keys' st)
                ∧ onUnlock st' = S (onUnlock st)
                ∧ ∀ id', id' ∈ keys'.*1 → id' ∈ Onepass.listKeys (keyAgent st'))
    ∧ (saved = [] → r = Rejected NoKeysSavedError).
Proof.
  unfold unlock, mbind, Async_bind, andThen. rewrite listKeys_reads.
  set (saved := map _ _).
  destruct (decide (length saved = 0)) as [Hlen|Hlen].
  - apply nil_length_inv in Hlen. unfold reject. exists saved. split_and!; try done.
    intros e [= <-]. split; [done|]. by left.
  - assert (saved ≠ []) as Hne by (by intros Hnil; rewrite Hnil in Hlen).
    unfold settle. destruct (decryptKeys saved pwd) as [keys'|e'] eqn:Hderive.
    + rewrite allOf_addKeys. exists saved. split; [done|]. split; [done|].
      split; [|done]. intros _. exists keys'. split; [done|]. split; [done|].
      split; [done|]. split.
      * simpl. f_equal. clear. revert st.
        induction keys' as [|[id' key] keys' IH]; intros st; [done|].
        rewrite addKeys_cons. by rewrite IH.
      * intros id' Hin. simpl. apply addKeys_lists. by left.
    + exists saved. split_and!; try done.
      intros e [= <-]. split; [done|]. by right.
Qed.

End Sync.

End SyncSpec.


(** * The chain of revisions *)

Module ChainSpec.

Import LocalStore StoreSpec LoadSpec SyncSpec.

Section Chain.
Context {crypto : CryptoImpl} {jsonIndex : Json (gmap string ItemIndexEntry)}
        {jsonRevision : Json ItemRevision} {itemStoreModule : ItemStoreModule}.

Lemma saveSequence_linked steps item st :
  Forall (λ r, r.1 = Fulfilled ()) (saveSequence steps item st).1 →
  linked (revision item) (saveSequence steps item st).1.*2.
Proof.
  revert item st.
  induction steps as [|[[now source] edit] steps IH]; intros item st Hall; [done|].
  simpl in *.
  destruct (saveItem now (applyEdit edit item) source st) as [[r item'] st'] eqn:Hsave.
  specialize (IH item' st').
  destruct (saveSequence steps item' st') as [results st''].
  simpl in *. apply list.Forall_cons in Hall as [Hr Hall]. simpl in Hr. subst r.
  apply saveItem_parent in Hsave as (Hparent & _).
  split; [by rewrite Hparent|]. by apply IH.
Qed.

(** A fulfilled save leaves the store ready for the next save of the item,
    and the item with its dates and a revision. *)
Lemma saveItem_keeps_ready now item source st item' st' :
  readyToSave item st →
  saveItem now item source st = (Fulfilled (), item', st') →
  readyToSave item' st'
  ∧ (is_Some (createdAt item') ∧ is_Some (updatedAt item'))
  ∧ is_Some (revision item').
Proof.
  intros (Hcontent & Hkey & Hok & _ & Hsync) Hsave.
  apply saveItem_state in Hsave
    as (item0 & key & k & content0 & revision0 & index0 & entry & Hstamp & _ & _ &
        _ & Hitem & _ & _ & Hov & _ & ->).
  apply stampOrAssert_revision in Hstamp as (_ & Huuid & Hcontent0).
  assert (uuid item' = uuid item) as Huuid' by (by rewrite Hitem).
  assert (content item' = content item) as Hcontent' by (by rewrite Hitem).
  split; [|split].
  - split; [|split; [|split; [|split]]].
    + by rewrite Hcontent'.
    + done.
    + done.
    + done.
    + simpl. rewrite Huuid'.
      rewrite lookup_insert_ne by (apply not_eq_sym, lastSynced_not_revision).
      by rewrite lookup_insert_ne by (apply not_eq_sym, lastSynced_not_index).
  - unfold overviewFromItem in Hov.
    destruct (updatedAt item'), (createdAt item'); done.
  - rewrite Hitem. by eexists.
Qed.

Lemma saveSequence_succeeds steps item st :
  readyToSave item st →
  (∀ first, head steps = Some first → first.1.2 = Sync →
            is_Some (createdAt item) ∧ is_Some (updatedAt item)) →
  Forall (λ r, r.1 = Fulfilled ()) (saveSequence steps item st).1
  ∧ length (saveSequence steps item st).1 = length steps
  ∧ Forall (λ item', is_Some (revision item')) (saveSequence steps item st).1.*2.
Proof.
  revert item st.
  induction steps as [|[[now source] edit] steps IH]; intros item st Hready Hdates.
  { simpl. by split_and!. }
  assert (readyToSave (applyEdit edit item) st) as Hready'.
  { destruct Hready as ([c Hc] & ? & ? & ? & ?).
    split; [|split; [|split; [|split]]]; try done.
    simpl. rewrite Hc. destruct (newContent edit); by eexists. }
  assert ((saveItem now (applyEdit edit item) source st).1.1 = Fulfilled ()) as Hr.
  { destruct Hready' as ([c Hc] & [key Hkey] & Hok & Hindex & Hsync).
    apply (saveItem_succeeds now (applyEdit edit item) source st c key); try done.
    intros ->. by apply (Hdates (now, Sync, edit)). }
  simpl.
  destruct (saveItem now (applyEdit edit item) source st) as [[r item'] st'] eqn:Hsave.
  simpl in Hr. subst r.
  destruct (saveItem_keeps_ready _ _ _ _ _ _ Hready' Hsave) as (Hnext & Hdates' & Hrev).
  specialize (IH item' st' Hnext (λ _ _ _, Hdates')).
  destruct (saveSequence steps item' st') as [results st''].
  simpl in *. destruct IH as (Hall & Hlen & Hrevs).
  split_and!.
  - by apply list.Forall_cons.
  - by rewrite Hlen.
  - by apply list.Forall_cons.
Qed.

(** C4.  Every fulfilled [saveItem] leaves the item, and the revision record
    it stores, with [parentRevision] equal to the revision id the item had
    just before the save (none for a first save), and computes the new id
    from the item with that parent already in place; so in a run of saves of
    one item that are all fulfilled, each saved state has the revision of the
    state before it as its parent.  And the saves of such a run are all
    fulfilled, each leaving the item with a revision id, when the run starts
    with the content on the item and a store that is ready (a key in the
    agent, an item store that rejects nothing, an index that can be read,
    no null as the item's last sync time), with the dates set should the
    first save be one of a sync. *)
Theorem saves_link_parent_revisions :
  (∀ now item source st item' st',
     saveItem now item source st = (Fulfilled (), item', st') →
     parentRevision item' = revision item
     ∧ (∃ content' before,
          revision item' = Some (generateRevisionId before content')
          ∧ parentRevision before = revision item
          ∧ revision before = revision item)
     ∧ (∃ k revision',
          KeyValueStore.entries (itemStore st') !! revisionKey (revision item')
          = Some (Encrypted (encryptAgileKeychainItemData k (stringify revision')))
          ∧ rev_parentRevision revision' = revision item
          ∧ ov_parentRevision (rev_overview revision') = revision item
          ∧ ov_revision (rev_overview revision') = revision item'))
  ∧ (∀ steps item st,
       Forall (λ r, r.1 = Fulfilled ()) (saveSequence steps item st).1 →
       linked (revision item) (saveSequence steps item st).1.*2)
  ∧ (∀ steps item st,
       readyToSave item st →
       (∀ first, head steps = Some first → first.1.2 = Sync →
                 is_Some (createdAt item) ∧ is_Some (updatedAt item)) →
       Forall (λ r, r.1 = Fulfilled ()) (saveSequence steps item st).1
       ∧ length (saveSequence steps item st).1 = length steps
       ∧ Forall (λ item', is_Some (revision item')) (saveSequence steps item st).1.*2
       ∧ linked (revision item) (saveSequence steps item st).1.*2).
Proof.
  split; [apply saveItem_parent|]. split; [apply saveSequence_linked|].
  intros steps item st Hready Hdates.
  destruct (saveSequence_succeeds steps item st Hready Hdates) as (Hall & Hlen & Hrevs).
  split_and!; try done. by apply saveSequence_linked.
Qed.

End Chain.

Section Examples.
Import LocalStore.Toy.
Local Existing Instances Crypto.Toy.toy toyJsonIndex toyJsonRevision toyItemStore.

Lemma saves_link_parent_revisions_witness :
  Forall (λ r, r.1 = Fulfilled ()) (saveSequence twoSaves bank emptyStore).1
  ∧ length (saveSequence twoSaves bank emptyStore).1 = 2
  ∧ Forall (λ item', is_Some (revision item')) (saveSequence twoSaves bank emptyStore).1.*2
  ∧ linked None (saveSequence twoSaves bank emptyStore).1.*2.
Proof.
  apply (proj2 (proj2 saves_link_parent_revisions) twoSaves bank emptyStore).
  - split; [|split; [|split; [|split]]].
    + by eexists.
    + by eexists.
    + intros k. reflexivity.
    + vm_compute. reflexivity.
    + vm_compute. discriminate.
  - intros first [= <-]. discriminate.
Defined.

End Examples.

End ChainSpec.


Module StoreExamples.

Import LocalStore StoreSpec LocalStore.Toy LoadSpec SyncSpec.

Section Examples.
Local Existing Instances Crypto.Toy.toy toyJsonIndex toyItemStore.

Lemma toy_item_data_round_trip k text :
  decryptAgileKeychainItemData (CryptoImpl := Crypto.Toy.toy) k
    (encryptAgileKeychainItemData (CryptoImpl := Crypto.Toy.toy) k text) = text.
Proof. exact (VaultSpec.toy_roundtrip k text "salt"). Qed.

Lemma outcome_of_triple {A B C} (x : A * B * C) (a : A) :
  x.1.1 = a → x = (a, x.1.2, x.2).
Proof. destruct x as [[? ?] ?]. simpl. by intros ->. Qed.

Lemma outcome_of_pair {A B} (x : A * B) (a : A) : x.1 = a → x = (a, x.2).
Proof. destruct x as [? ?]. simpl. by intros ->. Qed.

(* the outcome of a run is computed; the item and the store it leaves are
   not written out *)
Ltac outcome_by_computation :=
  repeat match goal with x := _ |- _ => subst x end;
  first [apply outcome_of_triple | apply outcome_of_pair];
  vm_compute; reflexivity.

Section ReadingNothingBack.
Local Existing Instance toyJsonRevision.


Lemma saveItem_touches_its_item_only_witness :
  let st' := (saveItem 10 undated Local cachedStore).2 in
  ∃ index', itemIndex st' = Some index'
            ∧ index' !! "U1" = Some (overviewOf "Old title" "webforms.WebForm")
            ∧ KeyValueStore.entries (itemStore st') !! "lastSynced/U1" = None.
Proof.
  intros st'.
  destruct (saveItem_touches_its_item_only 10 undated Local cachedStore
              (saveItem 10 undated Local cachedStore).1.2 st')
    as (Hstore & (index0 & index' & Hget & Hcache & Hother) & _).
  { outcome_by_computation. }
  exists index'. split; [done|]. split.
  - rewrite Hother by (vm_compute; discriminate).
    unfold itemIndex_get, cachedStore in Hget. simpl in Hget. injection Hget as <-.
    apply lookup_singleton_eq.
  - rewrite Hstore; [done|done|]. vm_compute. discriminate.
Defined.

Lemma locked_store_refuses_witness :
  saveItem 10 bank Local keyedStore
  = (Rejected VaultLockedError, updateTimestamps 10 bank, keyedStore)
  ∧ getContent bank keyedStore = (Rejected VaultLockedError, keyedStore)
  ∧ listItems noOptions keyedStore = (Rejected VaultLockedError, keyedStore).
Proof.
  destruct (locked_store_refuses keyedStore eq_refl) as (Hsave & _ & Hcontent & _ & Hlist).
  split; [|split].
  - by rewrite Hsave.
  - apply Hcontent.
  - by apply Hlist.
Defined.

Lemma index_reads_back_witness :
  readItemIndex (writeItemIndex exampleIndex emptyStore).2
  = (Fulfilled exampleIndex, (writeItemIndex exampleIndex emptyStore).2).
Proof.
  destruct (index_reads_back exampleIndex emptyStore (writeItemIndex exampleIndex emptyStore).2
              "id1" "RAWKEY1") as [Hread _].
  - outcome_by_computation.
  - reflexivity.
  - reflexivity.
  - rewrite toy_item_data_round_trip. simpl. by rewrite decide_True.
  - rewrite Hread. rewrite decide_False; [done|]. vm_compute. discriminate.
Defined.



Lemma unlock_all_or_nothing_witness :
  unlock toyDecryptKeys "wrong" keyedStore = (Rejected KeyValidationError, keyedStore)
  ∧ Onepass.listKeys (keyAgent (unlock toyDecryptKeys "correct" keyedStore).2)
    = ["id1"; "id2"]
  ∧ (unlock toyDecryptKeys "correct" emptyStore).1 = Rejected NoKeysSavedError.
Proof.
  pose proof (unlock_all_or_nothing toyDecryptKeys "wrong" keyedStore) as Hwrong.
  pose proof (unlock_all_or_nothing toyDecryptKeys "correct" emptyStore) as Hempty.
  destruct (unlock toyDecryptKeys "wrong" keyedStore) as [r st'] eqn:Hunlock.
  destruct (unlock toyDecryptKeys "correct" emptyStore) as [r2 st2].
  destruct Hwrong as (saved & _ & Hrejected & _).
  destruct Hempty as (saved2 & Hlist & _ & _ & Hnone).
  split; [|split].
  - assert (r = Rejected KeyValidationError) as Hr.
    { apply (f_equal fst) in Hunlock. vm_compute in Hunlock. by subst r. }
    destruct (Hrejected _ Hr) as [-> _]. by rewrite Hr.
  - vm_compute. reflexivity.
  - simpl. apply Hnone. vm_compute in Hlist. by injection Hlist as <-.
Defined.

Lemma overview_key_is_first_added_witness :
  firstKey (addKey "id2" "RAWKEY2" emptyStore) = Some "id1"
  ∧ firstKey (addKey "id2" "RAWKEY2" keyedStore) = Some "id2".
Proof.
  split.
  - apply (overview_key_is_first_added emptyStore "id2" "RAWKEY2").
    + apply Forall_singleton. split; [reflexivity|discriminate].
    + split; [reflexivity|discriminate].
  - apply (overview_key_is_first_added keyedStore "id2" "RAWKEY2").
    + apply Forall_nil_2.
    + split; [reflexivity|discriminate].
Defined.

End ReadingNothingBack.

Section ReadingBack.
Local Instance readsBankRevision : Json ItemRevision := toyJsonRevisionOf bankRevision.

Lemma saved_revision_reads_back_witness :
  let item' := (saveItem 10 bank Local emptyStore).1.2 in
  let st' := (saveItem 10 bank Local emptyStore).2 in
  getContent item' st' = (Fulfilled login, st')
  ∧ loadItem (uuid item') (revision item') st' = (Fulfilled (withoutContent item'), st').
Proof.
  intros item' st'.
  destruct (saved_revision_reads_back 10 bank Local emptyStore item' st' login bankRevision)
    as [Hcontent Hload].
  - outcome_by_computation.
  - reflexivity.
  - vm_compute. reflexivity.
  - apply toy_item_data_round_trip.
  - unfold parse, stringify, readsBankRevision, toyJsonRevisionOf.
    apply decide_True. reflexivity.
  - split; [done|]. apply Hload. vm_compute. discriminate.
Defined.

End ReadingBack.

End Examples.

End StoreExamples.


Module AtomicitySpec.

Import LocalStore StoreSpec.

Section Atomicity.
Context {crypto : CryptoImpl} {jsonIndex : Json (gmap string ItemIndexEntry)}
        {jsonRevision : Json ItemRevision} {itemStoreModule : ItemStoreModule}.


End Atomicity.

Section Examples.
Import LocalStore.Toy.
Local Existing Instances Crypto.Toy.toy toyJsonIndex toyJsonRevision toyItemStore.


End Examples.

End AtomicitySpec.


(** * URLs without their query *)

Module UrlSpec.

Import ItemSearch.

Lemma slice0_cons n a s : slice0 (S n) (String a s) = String a (slice0 n s).
Proof. reflexivity. Qed.

Lemma slice0_length_app s t : slice0 (String.length s) (s +:+ t) = s.
Proof.
  induction s as [|a s IH]; [apply VaultSpec.substring_none|].
  rewrite VaultSpec.string_app_cons. simpl. rewrite slice0_cons. by rewrite IH.
Qed.

Lemma indexOf_cons c a s :
  indexOf c (String a s) = if decide (a = c) then Some 0 else S <$> indexOf c s.
Proof. reflexivity. Qed.

Lemma indexOf_app_None c s t : indexOf c (s +:+ t) = None → indexOf c s = None.
Proof.
  induction s as [|a s IH]; [done|].
  rewrite VaultSpec.string_app_cons, !indexOf_cons. case_decide; [done|].
  destruct (indexOf c (s +:+ t)); [done|]. intros _. by rewrite IH.
Qed.

Lemma indexOf_Some_split c s q :
  indexOf c s = Some q →
  indexOf c (slice0 q s) = None ∧ ∃ rest, s = slice0 q s +:+ String c rest.
Proof.
  revert q. induction s as [|a s IH]; intros q; [done|].
  rewrite indexOf_cons. case_decide as Ha.
  - intros [= <-]. subst a. split; [done|]. by exists s.
  - destruct (indexOf c s) as [q'|]; [|done]. intros [= <-].
    destruct (IH q' eq_refl) as [Hnone [rest Hrest]].
    rewrite slice0_cons, indexOf_cons, decide_False by done. rewrite Hnone.
    split; [done|]. exists rest. rewrite VaultSpec.string_app_cons. by rewrite <-Hrest.
Qed.

(* a character that is no slash is not the last one of a string that ends
   with a slash *)
Lemma app_snoc_inv p a t s' :
  p +:+ String a t = s' +:+ "/" → a ≠ "/"%char →
  ∃ t0, t = t0 +:+ "/" ∧ s' = p +:+ String a t0.
Proof.
  revert s'. induction p as [|b p IH]; intros s' Heq Ha.
  - rewrite VaultSpec.string_app_nil in Heq. destruct s' as [|b s'].
    + rewrite VaultSpec.string_app_nil in Heq. by injection Heq as -> _.
    + rewrite VaultSpec.string_app_cons in Heq. injection Heq as -> ->.
      by exists s'.
  - rewrite VaultSpec.string_app_cons in Heq. destruct s' as [|b' s'].
    + rewrite VaultSpec.string_app_nil in Heq. injection Heq as _ Heq.
      by destruct p.
    + rewrite VaultSpec.string_app_cons in Heq. injection Heq as -> Heq.
      destruct (IH s' Heq Ha) as (t0 & -> & ->). by exists t0.
Qed.

(* what stands before the first question mark stands in the part before it *)
Lemma before_query p a t s query :
  s +:+ String "?" query = p +:+ String a t →
  indexOf "?" s = None → indexOf "?" (p +:+ String a "") = None →
  ∃ t0, s = p +:+ String a t0.
Proof.
  revert s. induction p as [|b p IH]; intros s Hurl Hnone Hbefore.
  - rewrite !VaultSpec.string_app_nil in *. destruct s as [|b s].
    + rewrite VaultSpec.string_app_nil in Hurl. injection Hurl as <- _.
      by rewrite indexOf_cons, decide_True in Hbefore.
    + rewrite VaultSpec.string_app_cons in Hurl. injection Hurl as -> _.
      by exists s.
  - rewrite !VaultSpec.string_app_cons in *. destruct s as [|b' s].
    + rewrite VaultSpec.string_app_nil in Hurl. injection Hurl as <- _.
      by rewrite indexOf_cons, decide_True in Hbefore.
    + rewrite VaultSpec.string_app_cons in Hurl. injection Hurl as -> Hurl.
      rewrite indexOf_cons in Hbefore, Hnone. case_decide; [done|].
      destruct (IH s) as [t0 Ht0].
      * done.
      * by destruct (indexOf "?" s).
      * by destruct (indexOf "?" (p +:+ String a "")).
      * exists t0. by rewrite Ht0.
Qed.

Section WithStringUtil.
Context (endsWith : string → string → bool).
Hypothesis endsWith_slash : testsTrailingSlash endsWith.

Lemma endsWith_false r : endsWith r "/" = false ↔ ¬ ∃ s', r = s' +:+ "/".
Proof.
  rewrite <-(endsWith_slash r). by destruct (endsWith r "/").
Qed.

(** The loop ends, and it strips slashes from the end and nothing else. *)
Lemma stripSlashes_ends fuel s :
  String.length s < fuel →
  ∃ r, stripSlashes endsWith fuel s = Some r
       ∧ endsWith r "/" = false
       ∧ (∃ rest, s = r +:+ rest)
       ∧ (∀ p a t, s = p +:+ String a t → a ≠ "/"%char → ∃ t', r = p +:+ String a t').
Proof.
  revert s. induction fuel as [|fuel IH]; intros s Hlen; [lia|].
  simpl. destruct (endsWith s "/") eqn:Hends.
  - apply endsWith_slash in Hends as [s' ->].
    rewrite VaultSpec.string_length_app in *. simpl in *.
    replace (String.length s' + 1 - 1) with (String.length s') by lia.
    rewrite slice0_length_app.
    destruct (IH s') as (r & Hr & Hclean & [rest Hrest] & Hkept); [lia|].
    exists r. split; [done|]. split; [done|]. split.
    + exists (rest +:+ "/"). by rewrite Hrest at 1; rewrite VaultSpec.string_app_assoc.
    + intros p a t Heq Ha.
      destruct (app_snoc_inv p a t s' (eq_sym Heq) Ha) as (t0 & -> & Hs').
      by apply (Hkept p a t0).
  - exists s. split; [done|]. split; [done|]. split.
    + exists "". clear. induction s as [|a s IH]; [done|].
      by rewrite VaultSpec.string_app_cons, <-IH.
    + intros p a t -> _. by exists t.
Qed.

Lemma stripSlashes_clean fuel r :
  0 < fuel → endsWith r "/" = false → stripSlashes endsWith fuel r = Some r.
Proof. destruct fuel; [lia|]. intros _ Hclean. simpl. by rewrite Hclean. Qed.

Lemma stripQuery_spec fuel url :
  String.length url < fuel →
  ∃ r, stripQuery endsWith fuel url = Some r
       ∧ (∃ rest, url = r +:+ rest)
       ∧ indexOf "?" r = None
       ∧ endsWith r "/" = false
       ∧ (∀ p a t, url = p +:+ String a t → a ≠ "/"%char →
                   indexOf "?" (p +:+ String a "") = None → ∃ t', r = p +:+ String a t').
Proof.
  intros Hlen. unfold stripQuery.
  destruct (indexOf "?" url) as [queryOffset|] eqn:Hquery.
  - destruct (indexOf_Some_split _ _ _ Hquery) as [Hnone [query Hurl]].
    set (strippedUrl := slice0 queryOffset url) in *.
    destruct (stripSlashes_ends fuel strippedUrl)
      as (r & Hr & Hclean & [rest Hrest] & Hkept).
    { rewrite Hurl, VaultSpec.string_length_app in Hlen. lia. }
    exists r. split; [done|]. split; [|split; [|split; [done|]]].
    + exists (rest +:+ String "?" query).
      by rewrite Hurl, Hrest at 1; rewrite VaultSpec.string_app_assoc.
    + rewrite Hrest in Hnone. by apply indexOf_app_None in Hnone.
    + intros p a t Heq Ha Hbefore. rewrite Heq in Hurl.
      destruct (before_query p a t strippedUrl query (eq_sym Hurl) Hnone Hbefore)
        as [t0 Ht0].
      by apply (Hkept p a t0).
  - destruct (stripSlashes_ends fuel url Hlen) as (r & Hr & Hclean & [rest Hrest] & Hkept).
    exists r. split; [done|]. split; [by exists rest|]. split; [|split; [done|]].
    + rewrite Hrest in Hquery. by apply indexOf_app_None in Hquery.
    + intros p a t Heq Ha _. by apply (Hkept p a t).
Qed.

Lemma stripQuery_clean fuel r :
  0 < fuel → indexOf "?" r = None → endsWith r "/" = false →
  stripQuery endsWith fuel r = Some r.
Proof.
  intros Hfuel Hquery Hclean. unfold stripQuery. rewrite Hquery.
  by apply stripSlashes_clean.
Qed.

(** X28.  [stripQuery] ends (its loop makes no more turns than the URL is long)
    and gives the start of the URL, up to before the first question mark and
    without the slashes at its end: the result has no question mark and does
    not end with a slash, and stripping it again changes nothing. *)
Theorem stripQuery_strips (fuel : nat) (url : string) :
  String.length url < fuel →
  ∃ r, stripQuery endsWith fuel url = Some r
       ∧ (∃ rest, url = r +:+ rest)
       ∧ indexOf "?" r = None
       ∧ (¬ ∃ s', r = s' +:+ "/")
       ∧ (∀ fuel', 0 < fuel' → stripQuery endsWith fuel' r = Some r)
       ∧ (indexOf "?" url = None → (¬ ∃ s', url = s' +:+ "/") → r = url).
Proof.
  intros Hlen.
  destruct (stripQuery_spec fuel url Hlen) as (r & Hr & Hprefix & Hquery & Hclean & _).
  exists r. split; [done|]. split; [done|]. split; [done|].
  split; [by apply endsWith_false|]. split.
  - intros fuel' Hfuel'. by apply stripQuery_clean.
  - intros Hnoquery Hnoslash. apply endsWith_false in Hnoslash.
    rewrite (stripQuery_clean fuel url) in Hr; [by injection Hr|lia|done|done].
Qed.

(** X29.  [normalizeUrl] ends and gives a URL without query and without a slash at
    its end.  A URL in which no colon occurs comes out with the scheme
    https; a URL in which one occurs, be it in the query only, is taken to
    have a scheme and comes out as [stripQuery] leaves it.  Normalizing again
    changes nothing as long as the result has a colon. *)
Theorem normalizeUrl_normalizes (fuel : nat) (url : string) :
  String.length url + 8 < fuel →
  ∃ r, normalizeUrl endsWith fuel url = Some r
       ∧ indexOf "?" r = None
       ∧ (¬ ∃ s', r = s' +:+ "/")
       ∧ (indexOf ":" url = None → ∃ rest, r = "https:" +:+ rest)
       ∧ (indexOf ":" url ≠ None → stripQuery endsWith fuel url = Some r)
       ∧ (indexOf ":" r ≠ None → ∀ fuel', 0 < fuel' → normalizeUrl endsWith fuel' r = Some r).
Proof.
  intros Hlen. unfold normalizeUrl at 1.
  assert (∀ r, indexOf "?" r = None → endsWith r "/" = false → indexOf ":" r ≠ None →
               ∀ fuel', 0 < fuel' → normalizeUrl endsWith fuel' r = Some r) as Hagain.
  { intros r Hquery Hclean Hcolon fuel' Hfuel'. unfold normalizeUrl.
    destruct (indexOf ":" r); [|done]. by apply stripQuery_clean. }
  destruct (indexOf ":" url) as [colon|] eqn:Hcolon.
  - destruct (stripQuery_spec fuel url) as (r & Hr & _ & Hquery & Hclean & _); [lia|].
    exists r. split; [done|]. split; [done|]. split; [by apply endsWith_false|].
    split; [done|]. split; [done|]. intros Hr'. by apply Hagain.
  - destruct (stripQuery_spec fuel ("https://" +:+ url))
      as (r & Hr & _ & Hquery & Hclean & Hkept).
    { rewrite VaultSpec.string_length_app. simpl. lia. }
    exists r. split; [done|]. split; [done|]. split; [by apply endsWith_false|].
    destruct (Hkept "https" ":"%char ("//" +:+ url)) as [rest Hrest]; [done|done|done|].
    split; [intros _; by exists rest|]. split; [done|].
    intros Hr'. by apply Hagain.
Qed.

End WithStringUtil.

Lemma toy_endsWith_slash : testsTrailingSlash Toy.endsWith.
Proof.
  intros s. unfold Toy.endsWith. induction s as [|a s IH].
  - split; [done|]. intros [[|b s'] Hs']; done.
  - destruct s as [|b s].
    + simpl. rewrite bool_decide_eq_true. split.
      * intros ->. by exists "".
      * intros [[|c s'] Hs'].
        { rewrite VaultSpec.string_app_nil in Hs'. by injection Hs'. }
        rewrite VaultSpec.string_app_cons in Hs'. injection Hs' as _ Hs'. by destruct s'.
    + change (Toy.lastIs "/" (String a (String b s))) with (Toy.lastIs "/" (String b s)).
      rewrite IH. split.
      * intros [s' Hs']. exists (String a s'). by rewrite VaultSpec.string_app_cons, Hs'.
      * intros [[|c s'] Hs'].
        { rewrite VaultSpec.string_app_nil in Hs'. by injection Hs'. }
        rewrite VaultSpec.string_app_cons in Hs'. injection Hs' as _ Hs'. by exists s'.
Qed.

Lemma stripQuery_strips_witness :
  stripQuery Toy.endsWith 40 "https://bank.example/login//?next=/home"
  = Some "https://bank.example/login".
Proof.
  destruct (stripQuery_strips Toy.endsWith toy_endsWith_slash 40
              "https://bank.example/login//?next=/home") as (r & Hr & _);
    [vm_compute; lia|].
  rewrite Hr. vm_compute in Hr. by injection Hr as <-.
Defined.

Lemma normalizeUrl_normalizes_witness :
  normalizeUrl Toy.endsWith 40 "bank.example/?next=a:b" = Some "bank.example"
  ∧ normalizeUrl Toy.endsWith 40 "bank.example/" = Some "https://bank.example".
Proof.
  destruct (normalizeUrl_normalizes Toy.endsWith toy_endsWith_slash 40
              "bank.example/?next=a:b") as (r & Hr & _); [vm_compute; lia|].
  split; vm_compute; reflexivity.
Defined.

End UrlSpec.
